(** * webpack-cli: the configuration resolution engine, embedded and verified

    A shallow embedding of [packages/webpack-cli/src/webpack-cli.ts]:
    the [--env] accumulator, the flag-to-option compiler [makeOption] with
    its argument parsers, the command registry [makeCommand], the
    configuration loader [loadConfig] with [resolveExtends] and the
    [--merge] reduction, and the argument filter of [buildConfig]; then
    the table of options [getBuiltInOptions], the tests of command names
    in [run], the report of argument problems, [tryRequireThenImport],
    the [configtest] command ([packages/configtest/src/index.ts]) and
    the dealing out of options in the [serve] command.

    Conventions.
    - JavaScript strings are [string]s of 8-bit characters; the only line
      terminators in that range are LF and CR.
    - A JavaScript object used as a record of own properties is an
      association list in insertion order (or a [gmap] where order is
      irrelevant).  Property names inherited from [Object.prototype]
      ([__proto__], [constructor], ...) are outside the model.
    - [process.exit(2)] after a diagnostic, and an uncaught exception, are
      the [Err] outcomes of [result]. *)

From Stdlib Require Import ZArith List String Ascii Bool Lia DecimalString.
From stdpp Require Import gmap strings list fin_maps.
Import ListNotations.
Open Scope string_scope.
Open Scope list_scope.

Set Warnings "-register-all".

(** ** Outcomes *)

Inductive error : Type :=
| TypeError
| RecursiveConfiguration
| FailedToLoad (path : string)
| InvalidConfiguration (path : string)
| ConfigurationsNotFound (names : list string)
| MergeNeedsTwoConfigurations.

Inductive result (A : Type) : Type :=
| Ok (a : A)
| Err (e : error).

Arguments Ok {A} a.
Arguments Err {A} e.

(** ** JavaScript string primitives used by the source *)

Module JsString.

Definition is_line_terminator (c : ascii) : bool :=
  Ascii.eqb c "010"%char || Ascii.eqb c "013"%char.

(** [s.endsWith("=")] *)
Fixpoint ends_with_eq (s : string) : bool :=
  match s with
  | EmptyString => false
  | String c EmptyString => Ascii.eqb c "="%char
  | String _ rest => ends_with_eq rest
  end.

(** [s.slice(0, -1)] *)
Fixpoint slice_last (s : string) : string :=
  match s with
  | EmptyString => EmptyString
  | String _ EmptyString => EmptyString
  | String c rest => String c (slice_last rest)
  end.

(** The capture of [(.+)] at the head of [s]: the longest run of
    characters that are not line terminators. *)
Fixpoint take_line (s : string) : string :=
  match s with
  | EmptyString => EmptyString
  | String c rest =>
      if is_line_terminator c then EmptyString else String c (take_line rest)
  end.

(** [value.split(/[=](.+)/, 2)], destructured as [[allKeys, val]]: the
    text before the leftmost [=] that is followed by at least one
    character other than a line terminator, and the capture after it;
    without such a [=] the whole string and [undefined]. *)
Fixpoint split_value (s : string) : string * option string :=
  match s with
  | EmptyString => (EmptyString, None)
  | String c rest =>
      let continue_ :=
        let '(k, v) := split_value rest in (String c k, v) in
      if Ascii.eqb c "="%char then
        match rest with
        | EmptyString => continue_
        | String d _ =>
            if is_line_terminator d then continue_
            else (EmptyString, Some (take_line rest))
        end
      else continue_
  end.

(** [allKeys.split(/\.(?!$)/)]: split at every dot that is not the last
    character of the string. *)
Fixpoint split_keys_from (cur : string) (s : string) : list string :=
  match s with
  | EmptyString => [cur]
  | String c rest =>
      if Ascii.eqb c "."%char && negb (String.eqb rest EmptyString)
      then cur :: split_keys_from EmptyString rest
      else split_keys_from (cur +:+ String c EmptyString) rest
  end.

Definition split_keys (s : string) : list string :=
  split_keys_from EmptyString s.

(** [segments.join(".")], the inverse of [split_keys]. *)
Fixpoint join_dots (segments : list string) : string :=
  match segments with
  | [] => EmptyString
  | [s] => s
  | s :: rest => s +:+ "." +:+ join_dots rest
  end.

(** [name.split(" ")[0]] *)
Fixpoint first_word (s : string) : string :=
  match s with
  | EmptyString => EmptyString
  | String c rest =>
      if Ascii.eqb c " "%char then EmptyString else String c (first_word rest)
  end.

End JsString.

(** ** The [--env] accumulator ([getBuiltInOptions], option [env]) *)

Module Env.
Import JsString.

(** [Record<string, BasicPrimitive | object>] *)
Inductive env_value : Type :=
| EUndefined
| EBool (b : bool)
| ENum (n : Z)
| EStr (s : string)
| EObj (props : list (string * env_value)).

Fixpoint get (k : string) (o : list (string * env_value)) : option env_value :=
  match o with
  | [] => None
  | (k', v) :: rest => if String.eqb k k' then Some v else get k rest
  end.

(** [o[k]] as an expression *)
Definition get_prop (k : string) (o : list (string * env_value)) : env_value :=
  match get k o with
  | Some v => v
  | None => EUndefined
  end.

(** [o[k] = v] *)
Fixpoint set_prop (k : string) (v : env_value) (o : list (string * env_value))
  : list (string * env_value) :=
  match o with
  | [] => [(k, v)]
  | (k', v') :: rest =>
      if String.eqb k k' then (k, v) :: rest else (k', v') :: set_prop k v rest
  end.

Definition truthy (v : env_value) : bool :=
  match v with
  | EUndefined => false
  | EBool b => b
  | ENum n => negb (Z.eqb n 0)
  | EStr s => negb (String.eqb s EmptyString)
  | EObj _ => true
  end.

Definition is_string (v : env_value) : bool :=
  match v with
  | EStr _ => true
  | _ => false
  end.

(** The body of [for (let [index, someKey] of splitKeys.entries())].
    [prevRef] is the object the loop currently writes into; the result
    is that object after all writes below it.  Writing a property of a
    primitive throws in module (strict) code. *)
Fixpoint env_loop (splitKeys : list string) (val : option string)
    (prevRef : env_value) : result env_value :=
  match splitKeys with
  | [] => Ok prevRef
  | someKey :: rest =>
      match prevRef with
      | EObj o =>
          if ends_with_eq someKey then
            env_loop rest val (EObj (set_prop (slice_last someKey) EUndefined o))
          else
            let c0 := get_prop someKey o in
            let c1 := if truthy c0 then c0 else EObj [] in
            let c2 := if is_string c1 then EObj [] else c1 in
            let c3 :=
              match rest with
              | [] => match val with
                      | Some s => EStr s
                      | None => EBool true
                      end
              | _ :: _ => c2
              end in
            match env_loop rest val c3 with
            | Ok c' => Ok (EObj (set_prop someKey c' o))
            | Err e => Err e
            end
      | _ => Err TypeError
      end
  end.

(** The [type] function of the [env] option. *)
Definition env_type (value : string) (previous : env_value) : result env_value :=
  let previous :=
    match previous with
    | EUndefined => EObj []
    | _ => previous
    end in
  let '(allKeys, val) := split_value value in
  env_loop (split_keys allKeys) val previous.

(** Reading an own property along a path of keys. *)
Fixpoint lookup_path (path : list string) (v : env_value) : option env_value :=
  match path with
  | [] => Some v
  | k :: rest =>
      match v with
      | EObj o =>
          match get k o with
          | Some c => lookup_path rest c
          | None => None
          end
      | _ => None
      end
  end.

(** The loop can descend along [path] from [v]: every binding it meets is
    an object, or is falsy or a string (which the loop replaces by a
    fresh object). *)
Fixpoint walkable (path : list string) (v : env_value) : bool :=
  match v with
  | EObj o =>
      match path with
      | [] => true
      | k :: rest =>
          let c := get_prop k o in
          if truthy c && negb (is_string c) then walkable rest c else true
      end
  | _ => false
  end.

End Env.


(** ** The flag-to-option compiler ([makeOption]) *)

Module Options.

(** The members of [mainOption.type]: the constructors [Boolean],
    [Number], [String], or a parser function supplied by the flag. *)
Inductive kind : Type :=
| KBoolean
| KNumber
| KString
| KCustom (fn : nat).

Definition kind_eqb (a b : kind) : bool :=
  match a, b with
  | KBoolean, KBoolean => true
  | KNumber, KNumber => true
  | KString, KString => true
  | KCustom f, KCustom g => Nat.eqb f g
  | _, _ => false
  end.

(** [Set.prototype.has], [Set.prototype.add] and [new Set(array)] on an
    insertion-ordered list without repetition; [size] is [length]. *)
Definition has (k : kind) (t : list kind) : bool := existsb (kind_eqb k) t.

Definition add (k : kind) (t : list kind) : list kind :=
  if has k t then t else t ++ [k].

Definition set_of (ks : list kind) : list kind :=
  fold_left (fun t k => add k t) ks [].

Inductive config_type : Type :=
| TReset
| TBoolean
| TNumber
| TString
| TPath
| TRegExp
| TEnum
| TUnknown.

(** [a || b] on optional strings: [undefined] and the empty string are
    falsy. *)
Definition str_truthy (s : option string) : bool :=
  match s with
  | Some s => negb (String.eqb s EmptyString)
  | None => false
  end.

Definition str_or (s : option string) (d : string) : string :=
  match s with
  | Some s => if String.eqb s EmptyString then d else s
  | None => d
  end.

Definition flagsWithAlias : list string :=
  ["devtool"; "output-path"; "target"; "watch"; "extends"].

(** [[option.alias] = option.name] *)
Definition first_char (s : string) : option string :=
  match s with
  | EmptyString => None
  | String c _ => Some (String c EmptyString)
  end.

(** [[...s]] for a string [s] *)
Fixpoint chars (s : string) : list string :=
  match s with
  | EmptyString => []
  | String c rest => String c EmptyString :: chars rest
  end.

Section WithNumbers.

(** The host's numbers: [Number(value)], [Number.isNaN] and the test for
    a zero, which with NaN makes a number falsy. *)
Variable num : Type.
Variable Number : string -> num.
Variable isNaN : num -> bool.
Variable isZero : num -> bool.

(** Option values: what a parser returns and a default may be. *)
Inductive arg_value : Type :=
| ABool (b : bool)
| ANum (n : num)
| AStr (s : string)
| AList (items : list arg_value).

Definition truthy (v : arg_value) : bool :=
  match v with
  | ABool b => b
  | ANum n => negb (isNaN n || isZero n)
  | AStr s => negb (String.eqb s EmptyString)
  | AList _ => true
  end.

Inductive enum_value : Type :=
| EnumString (s : string)
| EnumNumber (n : num)
| EnumBoolean (b : bool)
| EnumOther.

Record flag_config : Type := {
  ctype : config_type;
  cvalues : option (list enum_value);
  cnegatedDescription : option string
}.

Inductive type_field : Type :=
| TypeOne (k : kind)
| TypeMany (ks : list kind).

(** [WebpackCLIBuiltInOption] *)
Record cli_option : Type := {
  name : string;
  alias : option string;
  configs : option (list flag_config);
  type : option type_field;
  multiple : bool;
  defaultValue : option arg_value;
  valueName : option string;
  description : option string;
  negative : bool;
  negatedDescription : option string;
  helpLevel : option string;
  group : option string
}.

(** The inner [for (const value of config.values || [])]. *)
Fixpoint enum_scan (values : list enum_value) (t : list kind)
    (hasFalseEnum : bool) : list kind * bool :=
  match values with
  | [] => (t, hasFalseEnum)
  | EnumString _ :: rest => enum_scan rest (add KString t) hasFalseEnum
  | EnumNumber _ :: rest => enum_scan rest (add KNumber t) hasFalseEnum
  | EnumBoolean b :: rest =>
      if negb hasFalseEnum && negb b then enum_scan rest t true
      else enum_scan rest (add KBoolean t) hasFalseEnum
  | EnumOther :: rest => enum_scan rest t hasFalseEnum
  end.

(** The state of [for (const config of option.configs)]. *)
Record scan_state : Type := {
  needNegativeOption : bool;
  negatedDescription' : option string;
  mainOptionType : list kind
}.

Definition scan_config (st : scan_state) (c : flag_config) : scan_state :=
  let need := needNegativeOption st in
  let nd := negatedDescription' st in
  let t := mainOptionType st in
  match ctype c with
  | TReset => Build_scan_state need nd (add KBoolean t)
  | TBoolean =>
      if negb need
      then Build_scan_state true (cnegatedDescription c) (add KBoolean t)
      else Build_scan_state need nd (add KBoolean t)
  | TNumber => Build_scan_state need nd (add KNumber t)
  | TString | TPath | TRegExp => Build_scan_state need nd (add KString t)
  | TEnum =>
      let '(t', hasFalseEnum) :=
        enum_scan (match cvalues c with Some vs => vs | None => [] end) t false in
      if negb need
      then Build_scan_state hasFalseEnum (cnegatedDescription c) t'
      else Build_scan_state need nd t'
  | TUnknown => st
  end.

Definition scan_configs (cs : list flag_config) : scan_state :=
  fold_left scan_config cs (Build_scan_state false None []).

(** [WebpackCLIMainOption] *)
Record main_option : Type := {
  mflags : string;
  mvalueName : string;
  mdescription : string;
  mtype : list kind;
  mmultiple : bool;
  mdefaultValue : option arg_value
}.

Record negative_option : Type := {
  nflags : string;
  ndescription : string
}.

Definition effective_alias (o : cli_option) : option string :=
  if existsb (String.eqb (name o)) flagsWithAlias
  then first_char (name o)
  else alias o.

Definition base_flags (o : cli_option) : string :=
  if str_truthy (effective_alias o)
  then "-" +:+ str_or (effective_alias o) "" +:+ ", --" +:+ name o
  else "--" +:+ name o.

(** The type set inferred for the flag (lines 659-741). *)
Definition inferred_type (o : cli_option) : list kind :=
  match configs o with
  | Some cs => mainOptionType (scan_configs cs)
  | None =>
      match type o with
      | Some (TypeMany ks) => set_of ks
      | Some (TypeOne k) => set_of [k]
      | None => set_of [KBoolean]
      end
  end.

Definition initial_main_option (o : cli_option) : main_option :=
  {| mflags := base_flags o;
     mvalueName := str_or (valueName o) "value";
     mdescription := str_or (description o) "";
     mtype := inferred_type o;
     mmultiple := multiple o;
     mdefaultValue := defaultValue o |}.

Definition default_negated_description (o : cli_option) : string :=
  str_or (negatedDescription o) ("Negative '" +:+ name o +:+ "' option.").

Definition negativeOption (o : cli_option) : option negative_option :=
  match configs o with
  | Some cs =>
      let st := scan_configs cs in
      if needNegativeOption st
      then Some {| nflags := "--no-" +:+ name o;
                   ndescription :=
                     str_or (negatedDescription' st) (default_negated_description o) |}
      else None
  | None =>
      if negative o
      then Some {| nflags := "--no-" +:+ name o;
                   ndescription := default_negated_description o |}
      else None
  end.

Definition value_suffix (m : main_option) : string :=
  str_or (Some (mvalueName m)) "value" +:+ (if mmultiple m then "..." else "").

(** Lines 751-759: the value placeholder appended to the flags. *)
Definition with_grammar (m : main_option) : main_option :=
  let flags' :=
    if Nat.ltb 1 (length (mtype m)) && has KBoolean (mtype m)
    then mflags m +:+ " [" +:+ value_suffix m +:+ "]"
    else if Nat.ltb 0 (length (mtype m)) && negb (has KBoolean (mtype m))
    then mflags m +:+ " <" +:+ value_suffix m +:+ ">"
    else mflags m in
  {| mflags := flags';
     mvalueName := mvalueName m;
     mdescription := mdescription m;
     mtype := mtype m;
     mmultiple := mmultiple m;
     mdefaultValue := mdefaultValue m |}.

Definition mainOption (o : cli_option) : main_option :=
  with_grammar (initial_main_option o).

(** Which [argParser] the compiled option carries. *)
Inductive arg_parser : Type :=
| NoParser
| NumberParser
| StringParser
| MultiParser
| CustomParser (fn : nat).

(** A commander [Option] as [makeOption] configures it. *)
Record command_option : Type := {
  flags : string;
  odescription : string;
  parser : arg_parser;
  odefault : option arg_value;
  hidden : bool;
  ohelpLevel : option string
}.

(** Lines 761-860: the option built for the main flag, if any. *)
Definition main_command_option (o : cli_option) : option command_option :=
  let m := mainOption o in
  let mk p d h :=
    {| flags := mflags m; odescription := mdescription m; parser := p;
       odefault := d; hidden := h; ohelpLevel := helpLevel o |} in
  match mtype m with
  | [k] =>
      if has KNumber (mtype m) then Some (mk NumberParser (mdefaultValue m) false)
      else if has KString (mtype m) then Some (mk StringParser (mdefaultValue m) false)
      else if has KBoolean (mtype m) then Some (mk NoParser (mdefaultValue m) false)
      else Some (mk (match k with KCustom fn => CustomParser fn | _ => NoParser end)
                    (mdefaultValue m) false)
  | _ :: _ :: _ => Some (mk MultiParser (mdefaultValue m) false)
  | [] =>
      match negativeOption o with
      | Some _ => Some (mk NoParser None true)
      | None => None
      end
  end.

(** Lines 862-868. *)
Definition negative_command_option (o : cli_option) : option command_option :=
  match negativeOption o with
  | Some n =>
      Some {| flags := nflags n; odescription := ndescription n; parser := NoParser;
              odefault := None; hidden := false; ohelpLevel := helpLevel o |}
  | None => None
  end.

Definition option_list {A : Type} (x : option A) : list A :=
  match x with
  | Some a => [a]
  | None => []
  end.

(** [makeOption(command, option)]: the options of [command] afterwards.
    Commander's [addOption] puts the option last; the flags of one
    schema are distinct, so it has no clash to refuse. *)
Definition makeOption (command : list command_option) (o : cli_option)
  : list command_option :=
  command ++ option_list (main_command_option o)
          ++ option_list (negative_command_option o).

(** Whether the flag declares a negation: one of its configs is of type
    [boolean] or is an enum with the literal [false] among its values; a
    flag without configs says so with [negative]. *)
Definition is_false_member (v : enum_value) : bool :=
  match v with
  | EnumBoolean b => negb b
  | _ => false
  end.

Definition config_negates (c : flag_config) : bool :=
  match ctype c with
  | TBoolean => true
  | TEnum => existsb is_false_member (match cvalues c with Some vs => vs | None => [] end)
  | _ => false
  end.

Definition declares_negation (o : cli_option) : bool :=
  match configs o with
  | Some cs => existsb config_negates cs
  | None => negative o
  end.

(** The value placeholder of the flag: its [valueName], or [value],
    followed by [...] when the flag is repeatable. *)
Definition placeholder (o : cli_option) : string :=
  str_or (valueName o) "value" +:+ (if multiple o then "..." else "").

(** *** The argument parsers of lines 769-776, 789-796 and 827-846 *)

(** [[...prev]]: an array spreads to its elements, a string to its
    characters; a number or a boolean is not iterable. *)
Definition spread (prev : arg_value) : result (list arg_value) :=
  match prev with
  | AList items => Ok items
  | AStr s => Ok (map AStr (chars s))
  | ABool _ => Err TypeError
  | ANum _ => Err TypeError
  end.

Definition opt_truthy (v : option arg_value) : bool :=
  match v with
  | Some v => truthy v
  | None => false
  end.

(** [if (mainOption.defaultValue && mainOption.multiple && skipDefault)
    { prev = []; skipDefault = false; }] *)
Definition discard_default (m : main_option) (skipDefault : bool)
    (prev : arg_value) : arg_value * bool :=
  if opt_truthy (mdefaultValue m) && mmultiple m && skipDefault
  then (AList [], false)
  else (prev, skipDefault).

(** [mainOption.multiple ? [...prev, v] : v] *)
Definition accumulate (m : main_option) (prev : arg_value) (v : arg_value)
  : result arg_value :=
  if mmultiple m then
    match spread prev with
    | Ok items => Ok (AList (items ++ [v]))
    | Err e => Err e
    end
  else Ok v.

(** The parameter [prev = []]. *)
Definition prev_or_empty (prev : option arg_value) : arg_value :=
  match prev with
  | Some p => p
  | None => AList []
  end.

(** A parser closure: the captured [skipDefault] goes in and out. *)
Definition parser_fn : Type :=
  bool -> string -> option arg_value -> result arg_value * bool.

Definition number_parser (m : main_option) : parser_fn :=
  fun skipDefault value prev =>
    let '(prev, skipDefault) :=
      discard_default m skipDefault (prev_or_empty prev) in
    (accumulate m prev (ANum (Number value)), skipDefault).

Definition string_parser (m : main_option) : parser_fn :=
  fun skipDefault value prev =>
    let '(prev, skipDefault) :=
      discard_default m skipDefault (prev_or_empty prev) in
    (accumulate m prev (AStr value), skipDefault).

Definition multi_parser (m : main_option) : parser_fn :=
  fun skipDefault value prev =>
    let '(prev, skipDefault) :=
      discard_default m skipDefault (prev_or_empty prev) in
    let numberValue := Number value in
    if has KNumber (mtype m) && negb (isNaN numberValue)
    then (accumulate m prev (ANum numberValue), skipDefault)
    else if has KString (mtype m)
    then (accumulate m prev (AStr value), skipDefault)
    else (Ok (AStr value), skipDefault).

(** The parser [makeOption] itself installs; a [CustomParser] is the
    flag's own function and a switch has none. *)
Definition installed_parser (m : main_option) (p : arg_parser) : option parser_fn :=
  match p with
  | NumberParser => Some (number_parser m)
  | StringParser => Some (string_parser m)
  | MultiParser => Some (multi_parser m)
  | NoParser => None
  | CustomParser _ => None
  end.

(** Commander's side of the contract, as its documentation of custom
    option processing gives it: the parser is called once per
    option-argument with that argument and the option's previous value,
    which is at first the default set with [.default(...)]. *)
Fixpoint feed (f : parser_fn) (skipDefault : bool) (current : option arg_value)
    (values : list string) : result (option arg_value) :=
  match values with
  | [] => Ok current
  | value :: rest =>
      match f skipDefault value current with
      | (Ok v, skipDefault') => feed f skipDefault' (Some v) rest
      | (Err e, _) => Err e
      end
  end.

(** The value of flag [o] after the option-arguments [values], when
    [makeOption] installed a parser for it. *)
Definition parse_values (o : cli_option) (values : list string)
  : option (result (option arg_value)) :=
  match main_command_option o with
  | Some co =>
      match installed_parser (mainOption o) (parser co) with
      | Some f => Some (feed f true (odefault co) values)
      | None => None
      end
  | None => None
  end.

(** What one option-argument contributes under the type set [t]: the
    number when [t] has [Number] and the argument is numeric (or [t] is
    [Number] alone), the raw string otherwise. *)
Definition coerce (t : list kind) (value : string) : arg_value :=
  if has KNumber t && (Nat.eqb (length t) 1 || negb (isNaN (Number value)))
  then ANum (Number value)
  else AStr value.

(** The type set takes the option-argument: it has [String], or it has
    [Number] and the argument is numeric (or it is [Number] alone). *)
Definition accepted (t : list kind) (value : string) : bool :=
  has KString t
  || (has KNumber t && (Nat.eqb (length t) 1 || negb (isNaN (Number value)))).

End WithNumbers.

Arguments name {num} c.
Arguments alias {num} c.
Arguments configs {num} c.
Arguments type {num} c.
Arguments multiple {num} c.
Arguments defaultValue {num} c.
Arguments valueName {num} c.
Arguments description {num} c.
Arguments negative {num} c.
Arguments negatedDescription {num} c.
Arguments helpLevel {num} c.
Arguments group {num} c.
Arguments ctype {num} f.
Arguments cvalues {num} f.
Arguments cnegatedDescription {num} f.
Arguments mflags {num} m.
Arguments mvalueName {num} m.
Arguments mdescription {num} m.
Arguments mtype {num} m.
Arguments mmultiple {num} m.
Arguments mdefaultValue {num} m.
Arguments flags {num} c.
Arguments odescription {num} c.
Arguments parser {num} c.
Arguments odefault {num} c.
Arguments hidden {num} c.
Arguments ohelpLevel {num} c.
Arguments inferred_type {num} o.
Arguments base_flags {num} o.
Arguments effective_alias {num} o.
Arguments mainOption {num} o.
Arguments initial_main_option {num} o.
Arguments negativeOption {num} o.
Arguments main_command_option {num} o.
Arguments negative_command_option {num} o.
Arguments makeOption {num} command o.
Arguments declares_negation {num} o.
Arguments placeholder {num} o.
Arguments config_negates {num} c.
Arguments is_false_member {num} v.
Arguments scan_configs {num} cs.
Arguments scan_config {num} st c.
Arguments enum_scan {num} values t hasFalseEnum.
Arguments spread {num} prev.
Arguments prev_or_empty {num} prev.
Arguments ABool {num} b.
Arguments ANum {num} n.
Arguments AStr {num} s.
Arguments AList {num} items.
Arguments EnumString {num} s.
Arguments EnumNumber {num} n.
Arguments EnumBoolean {num} b.
Arguments EnumOther {num}.

(** A stand-in for the host's [Number] used to run examples: exact on
    the empty string and on unsigned decimal numerals, NaN ([None]) on
    every string holding a character that is neither a digit nor part of
    any numeric literal, which is all the examples below feed it. *)
Definition digit_value (c : ascii) : option N :=
  let n := N_of_ascii c in
  if (N.leb 48 n && N.leb n 57)%N then Some (n - 48)%N else None.

Fixpoint decimal_from (acc : N) (s : string) : option N :=
  match s with
  | EmptyString => Some acc
  | String c rest =>
      match digit_value c with
      | Some d => decimal_from (acc * 10 + d) rest
      | None => None
      end
  end.

Definition decimal_Number (s : string) : option N := decimal_from 0 s.

Definition decimal_isNaN (n : option N) : bool :=
  match n with
  | Some _ => false
  | None => true
  end.

Definition decimal_isZero (n : option N) : bool :=
  match n with
  | Some n => N.eqb n 0
  | None => false
  end.

End Options.

(** ** The command registry ([makeCommand]) *)

Module Commands.
Import JsString.

Inductive alias_field : Type :=
| AliasNone
| AliasOne (a : string)
| AliasMany (l : list string).

Section WithHost.

Variable num : Type.

(** [checkPackageExists] and [doInstall] reach the file system and the
    package manager; [doInstall] ends the process when it fails. *)
Variable checkPackageExists : string -> bool.
Variable doInstall : string -> result unit.
Variable WEBPACK_PACKAGE : string.
Variable WEBPACK_PACKAGE_IS_CUSTOM : bool.
Variable WEBPACK_DEV_SERVER_PACKAGE : string.
Variable WEBPACK_DEV_SERVER_PACKAGE_IS_CUSTOM : bool.

(** [WebpackCLIOptions] *)
Record command_spec : Type := {
  sname : string;
  salias : alias_field;
  sdescription : option string;
  susage : option string;
  spkg : option string;
  sdependencies : option (list string);
  shidden : bool;
  sisDefault : bool
}.

(** [WebpackCLICommandOptions]: a list, or a function that yields one
    when called; absent when falsy. *)
Inductive options_provider : Type :=
| NoOptions
| Static (l : list (Options.cli_option num))
| Deferred (l : list (Options.cli_option num)).

(** A commander [Command] in [program.commands]. *)
Record command : Type := {
  cname : string;
  caliases : list string;
  cdescription : string;
  cusage : option string;
  cpkg : string;
  chidden : bool;
  cisDefault : bool;
  coptions : list (Options.command_option num);
  caction : option nat
}.

Record program : Type := {
  commands : list command;
  forHelp : bool
}.

(** Commander's own check of a new command against the registered ones:
    from its name and aliases it lets the command in or throws.  Which
    clashes it refuses depends on its version. *)
Variable commander_accepts : list command -> string -> list string -> result unit.

(** [command.aliases().includes(commandOptions.alias as string)]: the
    argument is compared with [===] to each alias, so an array never
    matches, and neither does [undefined]. *)
Definition aliases_include (aliases : list string) (a : alias_field) : bool :=
  match a with
  | AliasOne a => existsb (String.eqb a) aliases
  | AliasMany _ => false
  | AliasNone => false
  end.

Definition alreadyLoaded (p : program) (s : command_spec) : option command :=
  find (fun c => String.eqb (cname c) (first_word (sname s))
                 || aliases_include (caliases c) (salias s))
       (commands p).

(** [command.aliases(list)] / [command.alias(a)]; [alias(undefined)] only
    reads. *)
Definition registered_aliases (a : alias_field) : list string :=
  match a with
  | AliasNone => []
  | AliasOne a => [a]
  | AliasMany l => l
  end.

(** The names a specification announces, the names a registered command
    answers to, and whether the two share one. *)
Definition spec_names (s : command_spec) : list string :=
  first_word (sname s) :: registered_aliases (salias s).

Definition command_names (c : command) : list string :=
  cname c :: caliases c.

Definition shares_a_name (s : command_spec) (c : command) : bool :=
  existsb (fun n => existsb (String.eqb n) (command_names c)) (spec_names s).

(** The loop over [commandOptions.dependencies]: whether every
    dependency was found, or the exit of a failed installation. *)
Fixpoint check_dependencies (forHelp_ : bool) (deps : list string)
    (allDependenciesInstalled : bool) : result bool :=
  match deps with
  | [] => Ok allDependenciesInstalled
  | dependency :: rest =>
      if checkPackageExists dependency
      then check_dependencies forHelp_ rest allDependenciesInstalled
      else if forHelp_
      then check_dependencies forHelp_ rest false
      else if (String.eqb dependency WEBPACK_PACKAGE && WEBPACK_PACKAGE_IS_CUSTOM)
              || (String.eqb dependency WEBPACK_DEV_SERVER_PACKAGE
                  && WEBPACK_DEV_SERVER_PACKAGE_IS_CUSTOM)
      then check_dependencies forHelp_ rest allDependenciesInstalled
      else
        match doInstall dependency with
        | Ok _ => check_dependencies forHelp_ rest allDependenciesInstalled
        | Err e => Err e
        end
  end.

Fixpoint join_quoted (deps : list string) : string :=
  match deps with
  | [] => EmptyString
  | [d] => "'" +:+ d +:+ "'"
  | d :: rest => "'" +:+ d +:+ "', " +:+ join_quoted rest
  end.

Definition description_text (s : command_spec) : string :=
  match sdescription s with
  | Some d => d
  | None => "undefined"
  end.

(** What follows the check for a command already loaded: the new
    command is configured and stands last in [program.commands]. *)
Definition register_command (p : program) (s : command_spec)
    (options : options_provider) (action : nat) : result program :=
      let deps := match sdependencies s with Some d => d | None => [] end in
      match check_dependencies (forHelp p) deps true with
      | Err e => Err e
      | Ok allDependenciesInstalled =>
          let withheld :=
            match options, sdependencies s with
            | Deferred _, Some _ => forHelp p && negb allDependenciesInstalled
            | _, _ => false
            end in
          let description' :=
            if withheld
            then description_text s
                 +:+ " To see all available options you need to install "
                 +:+ join_quoted deps +:+ "."
            else if Options.str_truthy (sdescription s)
            then description_text s
            else EmptyString in
          let flagsToAdd :=
            match options with
            | NoOptions => []
            | Static l => l
            | Deferred l => if withheld then [] else l
            end in
          let c :=
            {| cname := first_word (sname s);
               caliases := registered_aliases (salias s);
               cdescription := description';
               cusage := if Options.str_truthy (susage s) then susage s else None;
               cpkg := Options.str_or (spkg s) "webpack-cli";
               chidden := shidden s;
               cisDefault := sisDefault s;
               coptions := fold_left Options.makeOption flagsToAdd [];
               caction := Some action |} in
          Ok {| commands := commands p ++ [c]; forHelp := forHelp p |}
      end.

(** [makeCommand(commandOptions, options, action)]: the program
    afterwards.  Commander's [program.command(...)] and
    [command.alias(...)] add the command and its aliases to
    [program.commands], or throw when commander holds the name or an
    alias to be in use already. *)
Definition makeCommand (p : program) (s : command_spec)
    (options : options_provider) (action : nat) : result program :=
  match alreadyLoaded p s with
  | Some _ => Ok p
  | None =>
      match commander_accepts (commands p) (first_word (sname s))
                              (registered_aliases (salias s)) with
      | Err e => Err e
      | Ok _ => register_command p s options action
      end
  end.

End WithHost.

Arguments cname {num} c.
Arguments caliases {num} c.
Arguments coptions {num} c.
Arguments commands {num} p.
Arguments forHelp {num} p.
Arguments NoOptions {num}.
Arguments Static {num} l.
Arguments Deferred {num} l.
Arguments alreadyLoaded {num} p s.
Arguments shares_a_name {num} s c.
Arguments command_names {num} c.

End Commands.

(** ** Configuration objects and their deep merge *)

Module Config.

(** A configuration value.  [VHost] stands for a value this code never
    looks into: a plugin instance, a function, a regular expression. *)
Inductive value : Type :=
| VNull
| VBool (b : bool)
| VNum (n : Z)
| VStr (s : string)
| VHost (tag : string)
| VArr (items : list value)
| VObj (props : list (string * value)).

Definition fields : Type := list (string * value).

Fixpoint get (k : string) (o : fields) : option value :=
  match o with
  | [] => None
  | (k', v) :: rest => if String.eqb k k' then Some v else get k rest
  end.

Definition has_key (k : string) (o : fields) : bool :=
  match get k o with
  | Some _ => true
  | None => false
  end.

(** [delete o[k]] *)
Definition delete_key (k : string) (o : fields) : fields :=
  List.filter (fun kv => negb (String.eqb k (fst kv))) o.

Definition truthy (v : value) : bool :=
  match v with
  | VNull => false
  | VBool b => b
  | VNum n => negb (Z.eqb n 0)
  | VStr s => negb (String.eqb s EmptyString)
  | VHost _ => true
  | VArr _ => true
  | VObj _ => true
  end.

(** Modelled from the spec: the deep merge of two values, which the code
    obtains from the external package [webpack-merge] and which is not
    part of the repository.  Section 4.4b: plain mapping fields merge
    key-by-key recursively, ordered-sequence fields concatenate in input
    order, scalar fields are overwritten by the later operand.  The
    keys of the result are those of the earlier operand, in its order,
    followed by the new keys of the later one. *)
Fixpoint join (a b : value) {struct a} : value :=
  match a, b with
  | VArr xs, VArr ys => VArr (xs ++ ys)
  | VObj pa, VObj pb =>
      VObj (map (fun kv : string * value =>
                   let (k, va) := kv in
                   (k, match get k pb with
                       | Some vb => join va vb
                       | None => va
                       end)) pa
            ++ List.filter (fun kv => negb (has_key (fst kv) pa)) pb)
  | _, _ => b
  end.

(** Modelled from the spec: [merge(a, b)] of [webpack-merge] on two
    configuration objects, the deep merge above at the top level. *)
Definition merge (a b : fields) : fields :=
  map (fun kv : string * value =>
         let (k, va) := kv in
         (k, match get k b with
             | Some vb => join va vb
             | None => va
             end)) a
  ++ List.filter (fun kv => negb (has_key (fst kv) a)) b.

(** A value that is neither an ordered sequence nor a mapping. *)
Definition is_scalar (v : value) : bool :=
  match v with
  | VArr _ => false
  | VObj _ => false
  | _ => true
  end.

(** Modelled from the spec: [merge(first, ...rest)], the left-to-right
    reduction of section 4.4b. *)
Definition merge_all (first : fields) (rest : list fields) : fields :=
  fold_left merge rest first.

(** [typeof e === "string" ? [e] : e], then used as a list of paths:
    [path.resolve] throws on an element that is not a string, and
    [.map] is missing on a value that is not an array. *)
Fixpoint strings_of (items : list value) : result (list string) :=
  match items with
  | [] => Ok []
  | VStr s :: rest =>
      match strings_of rest with
      | Ok l => Ok (s :: l)
      | Err e => Err e
      end
  | _ :: _ => Err TypeError
  end.

Definition extends_paths (e : value) : result (list string) :=
  match e with
  | VStr s => Ok [s]
  | VArr items => strings_of items
  | _ => Err TypeError
  end.

(** [config.extends], when truthy. *)
Definition extends_of (o : fields) : option value :=
  match get "extends" o with
  | Some e => if truthy e then Some e else None
  | None => None
  end.

End Config.

(** ** The configuration loader ([loadConfig]) *)

Module Loader.
Import Config.

(** A configuration object with its identity: the path ledger is a
    [WeakMap] keyed by the object, not by its contents. *)
Record obj : Type := {
  oid : nat;
  props : fields
}.

(** [WebpackConfiguration | WebpackConfiguration[]]; an array has an
    identity of its own. *)
Inductive config_set : Type :=
| Single (o : obj)
| Many (aid : nat) (items : list obj).

(** What a configuration module yields once lines 1842-1899 have
    required or imported it and unwrapped promises and factory
    functions.  Every load makes new objects: the module cache of the
    host, by which a file required twice yields one object, is not
    modelled.  The one object this code writes to ([delete
    config.extends]) is the configuration under resolution, and its file
    is loaded again only through a path its ledger entry records, where
    the comparison of paths ends the process before the contents are
    read. *)
Inductive module_export : Type :=
| MObject (o : fields)
| MArray (items : list fields)
| MOther.

Record loaded : Type := {
  loptions : config_set;
  lpath : string
}.

Record state : Type := {
  next_id : nat;
  ledger : gmap nat (list string)
}.

Inductive outcome (A : Type) : Type :=
| Return (a : A) (s : state)
| Exit (e : error)
| OutOfFuel.

Arguments Return {A} a s.
Arguments Exit {A} e.
Arguments OutOfFuel {A}.

Definition M (A : Type) : Type := state -> outcome A.

#[global] Instance M_ret : MRet M := fun A a s => Return a s.

#[global] Instance M_bind : MBind M := fun A B f m s =>
  match m s with
  | Return a s' => f a s'
  | Exit e => Exit e
  | OutOfFuel => OutOfFuel
  end.

Definition exit {A : Type} (e : error) : M A := fun _ => Exit e.

Definition out_of_fuel {A : Type} : M A := fun _ => OutOfFuel.

Definition lift {A : Type} (r : result A) : M A :=
  match r with
  | Ok a => mret a
  | Err e => exit e
  end.

(** A new object or array. *)
Definition fresh : M nat :=
  fun s => Return (next_id s) {| next_id := S (next_id s); ledger := ledger s |}.

(** [config.path.get(key)] and [config.path.set(key, paths)] *)
Definition path_get (key : nat) : M (option (list string)) :=
  fun s => Return (ledger s !! key) s.

Definition path_set (key : nat) (paths : list string) : M unit :=
  fun s => Return tt {| next_id := next_id s; ledger := <[key := paths]> (ledger s) |}.

Fixpoint for_each {A : Type} (f : A -> M unit) (l : list A) : M unit :=
  match l with
  | [] => mret tt
  | x :: rest => f x;; for_each f rest
  end.

Definition new_obj (o : fields) : M obj :=
  id ← fresh; mret {| oid := id; props := o |}.

Definition set_id (c : config_set) : nat :=
  match c with
  | Single o => oid o
  | Many aid _ => aid
  end.

Definition set_items (c : config_set) : list obj :=
  match c with
  | Single o => [o]
  | Many _ items => items
  end.

(** [loadedPaths.filter((element) => prevPaths.includes(element))
    .length > 0] *)
Definition intersects (loadedPaths prevPaths : list string) : bool :=
  existsb (fun element => existsb (String.eqb element) prevPaths) loadedPaths.

(** [delete config.extends]: the same object without the property. *)
Definition delete_extends (config : obj) : obj :=
  {| oid := oid config; props := delete_key "extends" (props config) |}.

(** The CLI options [loadConfig] reads; [options_id] is the identity of
    the [options] object itself. *)
Record load_options : Type := {
  options_id : nat;
  config : list string;
  configName : option (list string);
  extends : list string;
  merge_flag : bool
}.

Section WithFiles.

(** [path.resolve], the module loader, [fs.existsSync] and the resolved
    default file names in priority order (which depend on the extensions
    [interpret] knows). *)
Variable resolve : string -> string.
Variable load_module : string -> option module_export.
Variable existsSync : string -> bool.
Variable defaultConfigFiles : list string.

Definition loadConfigByPath (configPath : string) : M loaded :=
  match load_module configPath with
  | None => exit (FailedToLoad configPath)
  | Some MOther => exit (InvalidConfiguration configPath)
  | Some (MObject o) =>
      c ← new_obj o;
      mret {| loptions := Single c; lpath := configPath |}
  | Some (MArray items) =>
      aid ← fresh;
      cs ← mapM new_obj items;
      mret {| loptions := Many aid cs; lpath := configPath |}
  end.

(** [Promise.all(paths.map((p) => loadConfigByPath(path.resolve(p))))];
    the results keep the order of the paths. *)
Definition load_all (paths : list string) : M (list loaded) :=
  mapM (fun p => loadConfigByPath (resolve p)) paths.

(** Lines 1921-1987. *)
Definition load_initial (options : load_options) : M config_set :=
  initial ← new_obj [];
  match config options with
  | _ :: _ =>
      loadedConfigs ← load_all (config options);
      match loadedConfigs with
      | [loadedConfig] =>
          path_set (set_id (loptions loadedConfig)) [lpath loadedConfig];;
          mret (loptions loadedConfig)
      | _ =>
          aid ← fresh;
          for_each
            (fun loadedConfig =>
               match loptions loadedConfig with
               | Many _ items =>
                   for_each
                     (fun _ => path_set (options_id options) [lpath loadedConfig])
                     items
               | Single o => path_set (oid o) [lpath loadedConfig]
               end)
            loadedConfigs;;
          mret (Many aid (flat_map (fun l => set_items (loptions l)) loadedConfigs))
      end
  | [] =>
      match find existsSync defaultConfigFiles with
      | Some foundDefaultConfigFile =>
          loadedConfig ← loadConfigByPath foundDefaultConfigFile;
          match loptions loadedConfig with
          | Many _ items =>
              for_each (fun item => path_set (oid item) [lpath loadedConfig]) items
          | Single o => path_set (oid o) [lpath loadedConfig]
          end;;
          mret (loptions loadedConfig)
      | None => mret (Single initial)
      end
  end.

(** [options.name === configName] *)
Definition has_name (configName : string) (o : obj) : bool :=
  match get "name" (props o) with
  | Some (VStr n) => String.eqb n configName
  | _ => false
  end.

(** Lines 1989-2016. *)
Definition select_names (options : load_options) (c : config_set) : M config_set :=
  match configName options with
  | None => mret c
  | Some names =>
      let found configName :=
        match c with
        | Many _ items => find (has_name configName) items
        | Single o => if has_name configName o then Some o else None
        end in
      let notFoundConfigNames :=
        List.filter (fun n => match found n with Some _ => false | None => true end)
                    names in
      aid ← fresh;
      match notFoundConfigNames with
      | [] => mret (Many aid (flat_map (fun n => Options.option_list (found n)) names))
      | _ :: _ => exit (ConfigurationsNotFound notFoundConfigNames)
      end
  end.

(** Lines 2018-2064.  [fuel] bounds the number of nested calls. *)
Fixpoint resolveExtends (fuel : nat) (config : obj) (extendsPaths : list string)
  : M obj :=
  match fuel with
  | O => out_of_fuel
  | S fuel' =>
      let config := delete_extends config in
      loadedConfigs ← load_all extendsPaths;
      let loadedOptions := flat_map (fun l => set_items (loptions l)) loadedConfigs in
      config ←
        match loadedOptions with
        | [] => mret config
        | first :: others =>
            prevPaths ← path_get (oid config);
            let loadedPaths := map lpath loadedConfigs in
            match prevPaths with
            | Some prevPaths =>
                if intersects loadedPaths prevPaths
                then exit RecursiveConfiguration
                else mret tt
            | None => mret tt
            end;;
            merged ← new_obj (merge_all (props first)
                                (map props others ++ [props config]));
            match prevPaths with
            | Some prevPaths => path_set (oid merged) (prevPaths ++ loadedPaths)
            | None => mret tt
            end;;
            mret merged
        end;
      match extends_of (props config) with
      | Some e =>
          extendsPaths ← lift (extends_paths e);
          resolveExtends fuel' config extendsPaths
      | None => mret config
      end
  end.

(** The extends of one configuration of the file, when it has one. *)
Definition resolve_own_extends (fuel : nat) (o : obj) : M obj :=
  match extends_of (props o) with
  | Some e =>
      extendsPaths ← lift (extends_paths e);
      resolveExtends fuel o extendsPaths
  | None => mret o
  end.

(** Lines 2066-2101. *)
Definition apply_extends (fuel : nat) (options : load_options) (c : config_set)
  : M config_set :=
  match extends options with
  | _ :: _ =>
      match c with
      | Many _ items =>
          items' ← mapM (fun o => resolveExtends fuel o (extends options)) items;
          aid ← fresh;
          mret (Many aid items')
      | Single o =>
          o' ← resolveExtends fuel o (extends options);
          mret (Single o')
      end
  | [] =>
      match c with
      | Many _ items =>
          if existsb (fun o => match extends_of (props o) with
                               | Some _ => true
                               | None => false
                               end) items
          then
            items' ← mapM (resolve_own_extends fuel) items;
            aid ← fresh;
            mret (Many aid items')
          else mret c
      | Single o =>
          o' ← resolve_own_extends fuel o;
          mret (Single o')
      end
  end.

(** The ledger entry of [o], or no paths. *)
Definition ledger_paths (paths : gmap nat (list string)) (o : obj) : list string :=
  match paths !! oid o with
  | Some configPath => configPath
  | None => []
  end.

(** The reduction of lines 2116-2125: the merged fields and the paths
    collected from the ledger. *)
Definition merge_step (paths : gmap nat (list string))
    (acc : fields * list string) (o : obj) : fields * list string :=
  (merge (fst acc) (props o),
   match paths !! oid o with
   | Some configPath => snd acc ++ configPath
   | None => snd acc
   end).

(** Lines 2103-2127. *)
Definition apply_merge (options : load_options) (c : config_set) : M config_set :=
  if merge_flag options then
    match c with
    | Many _ (first :: second :: rest) =>
        paths ← (fun s => Return (ledger s) s);
        let '(mergedOptions, mergedConfigPaths) :=
          fold_left (merge_step paths) (first :: second :: rest) ([], []) in
        merged ← new_obj mergedOptions;
        path_set (oid merged) mergedConfigPaths;;
        mret (Single merged)
    | _ => exit MergeNeedsTwoConfigurations
    end
  else mret c.

(** [loadConfig(options)]: the configurations and the path ledger.  The
    [options] object exists before the call; objects made during it are
    numbered after it. *)
Definition loadConfig (fuel : nat) (options : load_options) : M config_set :=
  c ← load_initial options;
  c ← select_names options c;
  c ← apply_extends fuel options c;
  apply_merge options c.

Definition initial_state (options : load_options) : state :=
  {| next_id := S (options_id options); ledger := ∅ |}.

(** *** The extends chain, on paths and contents alone *)

(** The configuration objects the files of one [extends] step yield, in
    order, when all of them load. *)
Definition contents_of (m : module_export) : option (list fields) :=
  match m with
  | MObject o => Some [o]
  | MArray items => Some items
  | MOther => None
  end.

Fixpoint load_contents (paths : list string) : option (list fields) :=
  match paths with
  | [] => Some []
  | p :: rest =>
      match load_module (resolve p) with
      | Some m =>
          match contents_of m, load_contents rest with
          | Some c, Some cs => Some (c ++ cs)
          | _, _ => None
          end
      | None => None
      end
  end.

(** The extends chain of a configuration with the fields [o], whose
    ledger entry is [recorded] and whose next step loads
    [extendsPaths], names a recorded path within [n] further steps: at
    this step (the files load and their contents pass [guard]), or at a
    later one, reached through the merge of this step's contents with
    [o] and the [extends] of that merge.  [guard] is what the step asks
    of the loaded contents before it compares paths. *)
Inductive NamesRecorded (guard : list fields -> Prop)
  : nat -> fields -> list string -> list string -> Prop :=
| names_now (o : fields) (recorded extendsPaths : list string)
    (contents : list fields) :
    load_contents extendsPaths = Some contents ->
    guard contents ->
    intersects (map resolve extendsPaths) recorded = true ->
    NamesRecorded guard 0 o recorded extendsPaths
| names_later (n : nat) (o : fields) (recorded extendsPaths : list string)
    (first : fields) (others : list fields) (e : value) (next : list string) :
    load_contents extendsPaths = Some (first :: others) ->
    extends_of (merge_all first (others ++ [delete_key "extends" o])) = Some e ->
    extends_paths e = Ok next ->
    NamesRecorded guard n
      (merge_all first (others ++ [delete_key "extends" o]))
      (recorded ++ map resolve extendsPaths) next ->
    NamesRecorded guard (S n) o recorded extendsPaths.

(** The files of [files] that [recorded] does not hold yet. *)
Definition unrecorded (files recorded : list string) : list string :=
  List.filter (fun f => negb (existsb (String.eqb f) recorded)) files.

End WithFiles.

End Loader.

(** ** Applying the CLI values ([buildConfig], "Apply options") *)

(** [Problem], as webpack's [processArguments] reports it. *)
Record Problem : Type := {
  ptype : string;
  ppath : string;
  pargument : string;
  pvalue : option string;
  pindex : option nat;
  pexpected : option string
}.

Module Reconcile.

(** [toKebabCase]: [str.replaceAll(/([a-z0-9])([A-Z])/g, "$1-$2")
    .toLowerCase()] on ASCII letters. *)
Definition is_upper (c : ascii) : bool :=
  let n := N_of_ascii c in (N.leb 65 n && N.leb n 90)%N.

Definition is_lower_or_digit (c : ascii) : bool :=
  let n := N_of_ascii c in
  ((N.leb 97 n && N.leb n 122) || (N.leb 48 n && N.leb n 57))%N.

Definition to_lower (c : ascii) : ascii :=
  if is_upper c then ascii_of_N (N_of_ascii c + 32) else c.

Fixpoint kebab_from (after_lower_or_digit : bool) (s : string) : string :=
  match s with
  | EmptyString => EmptyString
  | String c rest =>
      if after_lower_or_digit && is_upper c
      then String "-"%char (String (to_lower c) (kebab_from false rest))
      else String (to_lower c) (kebab_from (is_lower_or_digit c) rest)
  end.

Definition toKebabCase (str : string) : string := kebab_from false str.

Section WithWebpack.

Variable num : Type.

(** The values of the parsed CLI options, and a configuration object,
    as webpack's [processArguments] takes them. *)
Variable cli_value : Type.
Variable configuration : Type.

(** [this.webpack.cli.processArguments(args, item, values)]: it writes
    into [item] and returns the problems, or [null]. *)
Variable processArguments :
  gmap string (Options.cli_option num) -> configuration -> gmap string cli_value ->
  configuration * option (list Problem).

(** Lines 2166-2174. *)
Definition core_args (builtInOptions : list (Options.cli_option num))
  : gmap string (Options.cli_option num) :=
  fold_left
    (fun accumulator flag =>
       match Options.group flag with
       | Some g => if String.eqb g "core"
                   then <[Options.name flag := flag]> accumulator
                   else accumulator
       | None => accumulator
       end)
    builtInOptions ∅.

(** Lines 2175-2190; [options] lists the own properties of the parsed
    options in the order of [Object.keys]. *)
Definition cli_values (args : gmap string (Options.cli_option num))
    (options : list (string * cli_value)) : gmap string cli_value :=
  fold_left
    (fun accumulator '(name, v) =>
       if String.eqb name "argv" then accumulator
       else
         let kebabName := toKebabCase name in
         match args !! kebabName with
         | Some _ => <[kebabName := v]> accumulator
         | None => accumulator
         end)
    options ∅.

(** Lines 2192-2226: the configuration after the step, or the problems
    with which the process exits. *)
Definition apply_options (builtInOptions : list (Options.cli_option num))
    (options : list (string * cli_value)) (item : configuration)
  : configuration + list Problem :=
  let args := core_args builtInOptions in
  let values := cli_values args options in
  if decide (values = ∅) then inl item
  else
    match processArguments args item values with
    | (_, Some problems) => inr problems
    | (item', None) => inl item'
    end.

End WithWebpack.

End Reconcile.

(** ** Concrete inputs used by the examples *)

Module Scenarios.
Import Options.

(** Numbers of the examples: [decimal_Number] and its tests. *)
Definition dnum : Type := option N.

Definition a_config (t : config_type) (vs : option (list (enum_value dnum)))
  : flag_config dnum :=
  {| ctype := t; cvalues := vs; cnegatedDescription := None |}.

Definition a_flag (n : string) (cs : list (flag_config dnum)) (m : bool)
    (d : option (arg_value dnum)) : cli_option dnum :=
  {| name := n; alias := None; configs := Some cs; type := None; multiple := m;
     defaultValue := d; valueName := None; description := None; negative := false;
     negatedDescription := None; helpLevel := Some "minimum"; group := None |}.

(** The built-in flag [progress]: a string, or the enum value [true]. *)
Definition progress_flag : cli_option dnum :=
  {| name := "progress"; alias := None;
     configs := Some [a_config TString None; a_config TEnum (Some [EnumBoolean true])];
     type := None; multiple := false; defaultValue := None; valueName := None;
     description := Some "Print compilation progress during build.";
     negative := false; negatedDescription := None; helpLevel := Some "minimum";
     group := None |}.

(** The built-in flag [merge]: the enum value [true] alone. *)
Definition merge_switch : cli_option dnum :=
  {| name := "merge"; alias := Some "m";
     configs := Some [a_config TEnum (Some [EnumBoolean true])];
     type := None; multiple := false; defaultValue := None; valueName := None;
     description := Some "Merge two or more configurations using 'webpack-merge'.";
     negative := false; negatedDescription := None; helpLevel := Some "minimum";
     group := None |}.

(** A flag that is a string or a boolean, as webpack's core declares
    many. *)
Definition string_or_boolean_flag : cli_option dnum :=
  a_flag "stats" [a_config TString None; a_config TBoolean None] false None.

(** A repeatable string flag with a default. *)
Definition repeatable_string_flag : cli_option dnum :=
  a_flag "entry" [a_config TString None] true (Some (AList [AStr "./src"])).

(** A repeatable flag that is a number or a boolean, with a default. *)
Definition number_or_boolean_flag : cli_option dnum :=
  a_flag "retries" [a_config TNumber None; a_config TBoolean None] true
         (Some (AList [ANum (Some 3%N)])).

(** A flag that is a number or a string. *)
Definition number_or_string_flag : cli_option dnum :=
  a_flag "port" [a_config TNumber None; a_config TString None] false None.

(** A flag of webpack's core, as [getBuiltInOptions] lists it. *)
Definition mode_option : cli_option dnum :=
  {| name := "mode"; alias := None;
     configs := Some [a_config TEnum (Some [EnumString "development";
                                            EnumString "production";
                                            EnumString "none"])];
     type := None; multiple := false; defaultValue := None; valueName := None;
     description := Some "Enable production optimizations or development hints.";
     negative := false; negatedDescription := None; helpLevel := Some "minimum";
     group := Some "core" |}.

(** An argument processor that takes every value and reports nothing. *)
Definition accept_all (args : gmap string (cli_option dnum))
    (item : list (string * string)) (values : gmap string string)
  : list (string * string) * option (list Problem) :=
  (item, None).

(** *** Commands *)

Import Commands.

(** A host on which every package is installed. *)
Definition makeCommand_here
  : program dnum -> command_spec -> options_provider dnum -> nat ->
    result (program dnum) :=
  makeCommand dnum (fun _ => true) (fun _ => Ok tt)
              "webpack" false "webpack-dev-server" false
              (fun _ _ _ => Ok tt).

Definition empty_program : program dnum :=
  {| commands := []; forHelp := false |}.

(** [buildCommandOptions] of [run]. *)
Definition buildCommandOptions : command_spec :=
  {| sname := "build [entries...]"; salias := AliasMany ["bundle"; "b"];
     sdescription := Some "Run webpack (default command, can be omitted).";
     susage := Some "[entries...] [options]"; spkg := None;
     sdependencies := Some ["webpack"]; shidden := false; sisDefault := false |}.

(** The [build] command as [makeCommand] registers it. *)
Definition build_command : command dnum :=
  {| cname := "build"; caliases := ["bundle"; "b"];
     cdescription := "Run webpack (default command, can be omitted).";
     cusage := Some "[entries...] [options]"; cpkg := "webpack-cli";
     chidden := false; cisDefault := false; coptions := []; caction := Some 0 |}.

(** A specification whose primary name is an alias of [build], and one
    whose alias, given as a list, is an alias of [build]. *)
Definition command_named_b : command_spec :=
  {| sname := "b"; salias := AliasNone; sdescription := None; susage := None;
     spkg := None; sdependencies := None; shidden := false; sisDefault := false |}.

Definition command_aliased_b : command_spec :=
  {| sname := "bench"; salias := AliasMany ["b"]; sdescription := None;
     susage := None; spkg := None; sdependencies := None; shidden := false;
     sisDefault := false |}.

(** *** Configuration files *)

Import Config Loader.

(** Paths of the examples are absolute: [path.resolve] returns them. *)
Definition resolve_here (p : string) : string := p.

(** [/a.js] exports an array of two configurations and [/b.js] one
    configuration. *)
Definition array_and_object (p : string) : option module_export :=
  if String.eqb p "/a.js"
  then Some (MArray [[("name", VStr "first")]; [("name", VStr "second")]])
  else if String.eqb p "/b.js"
  then Some (MObject [("name", VStr "third")])
  else None.

Definition two_config_paths : load_options :=
  {| options_id := 0; config := ["/a.js"; "/b.js"]; configName := None;
     extends := []; merge_flag := false |}.

Definition no_config_path : load_options :=
  {| options_id := 0; config := []; configName := None; extends := [];
     merge_flag := false |}.

(** [/a.js] extends [/b.js], which extends [/a.js]. *)
Definition a_and_b_extend_each_other (p : string) : option module_export :=
  if String.eqb p "/a.js"
  then Some (MObject [("mode", VStr "production"); ("extends", VStr "/b.js")])
  else if String.eqb p "/b.js"
  then Some (MObject [("entry", VStr "./b.js"); ("extends", VStr "/a.js")])
  else None.

(** [/a.js] extends [/b.js] and [/c.js]; [/b.js] exports an empty array
    and [/c.js] extends [/b.js]. *)
Definition extends_an_empty_array (p : string) : option module_export :=
  if String.eqb p "/a.js"
  then Some (MObject [("mode", VStr "production");
                      ("extends", VArr [VStr "/b.js"; VStr "/c.js"])])
  else if String.eqb p "/b.js"
  then Some (MArray [])
  else if String.eqb p "/c.js"
  then Some (MObject [("entry", VStr "./c.js"); ("extends", VStr "/b.js")])
  else None.

Definition one_config_path : load_options :=
  {| options_id := 0; config := ["/a.js"]; configName := None; extends := [];
     merge_flag := false |}.

(** Two files with one plugin each, merged. *)
Definition two_plugin_files (p : string) : option module_export :=
  if String.eqb p "/a.js"
  then Some (MObject [("plugins", VArr [VHost "P1"])])
  else if String.eqb p "/b.js"
  then Some (MObject [("plugins", VArr [VHost "P2"])])
  else None.

Definition two_config_paths_merged : load_options :=
  {| options_id := 0; config := ["/a.js"; "/b.js"]; configName := None;
     extends := []; merge_flag := true |}.

End Scenarios.

(** ** The CLI's table of options ([getBuiltInOptions]) *)

Module BuiltIn.
Import Options.

(** The double quote, for the descriptions that hold one. *)
Definition quote : string := String (ascii_of_nat 34) EmptyString.

Definition minimumHelpFlags : list string :=
  ["mode"; "watch"; "watch-options-stdin"; "stats"; "devtool"; "entry";
   "target"; "name"; "output-path"; "extends"].

Section WithNumbers.

Variable num : Type.

Definition string_config : flag_config num :=
  {| ctype := TString; cvalues := None; cnegatedDescription := None |}.

Definition enum_true_config : flag_config num :=
  {| ctype := TEnum; cvalues := Some [EnumBoolean true];
     cnegatedDescription := None |}.

(** One entry of [builtInFlags]: the properties it does not give are
    [undefined]. *)
Definition own_flag (n : string) (a : option string)
    (cs : option (list (flag_config num))) (t : option type_field) (m : bool)
    (vn : option string) (d : string) : cli_option num :=
  {| name := n; alias := a; configs := cs; type := t; multiple := m;
     defaultValue := None; valueName := vn; description := Some d;
     negative := false; negatedDescription := None;
     helpLevel := Some "minimum"; group := None |}.

(** [builtInFlags]; the [type] of [env] is the function modelled by
    [Env.env_type]. *)
Definition builtInFlags : list (cli_option num) :=
  [ own_flag "config" (Some "c") (Some [string_config]) None true
      (Some "pathToConfigFile")
      ("Provide path to one or more webpack configuration files to process, e.g. "
       +:+ quote +:+ "./webpack.config.js" +:+ quote +:+ ".");
    own_flag "config-name" None (Some [string_config]) None true (Some "name")
      "Name(s) of particular configuration(s) to use if configuration file exports an array of multiple configurations.";
    own_flag "merge" (Some "m") (Some [enum_true_config]) None false None
      "Merge two or more configurations using 'webpack-merge'.";
    own_flag "disable-interpret" None (Some [enum_true_config]) None false None
      "Disable interpret for loading the config file.";
    own_flag "env" None None (Some (TypeOne (KCustom 0))) true None
      ("Environment variables passed to the configuration when it is a function, e.g. "
       +:+ quote +:+ "myvar" +:+ quote +:+ " or " +:+ quote +:+ "myvar=myval"
       +:+ quote +:+ ".");
    own_flag "node-env" None (Some [string_config]) None false None
      "Sets process.env.NODE_ENV to the specified value for access within the configuration.(Deprecated: Use '--config-node-env' instead)";
    own_flag "config-node-env" None (Some [string_config]) None false None
      "Sets process.env.NODE_ENV to the specified value for access within the configuration.";
    own_flag "analyze" None (Some [enum_true_config]) None false None
      "It invokes webpack-bundle-analyzer plugin to get bundle information.";
    own_flag "progress" None (Some [string_config; enum_true_config]) None false
      None "Print compilation progress during build.";
    own_flag "json" (Some "j") (Some [string_config; enum_true_config]) None false
      (Some "pathToJsonFile") "Prints result as JSON or store it in a file.";
    own_flag "fail-on-warnings" None (Some [enum_true_config]) None false None
      "Stop webpack-cli process with non-zero exit code on warnings from webpack." ].

(** [{ ...meta, name, description: meta.description, group: "core",
    helpLevel: minimumHelpFlags.includes(name) ? "minimum" : "verbose" }] *)
Definition core_option (entry : string * cli_option num) : cli_option num :=
  let (n, meta) := entry in
  {| name := n; alias := alias meta; configs := configs meta; type := type meta;
     multiple := multiple meta; defaultValue := defaultValue meta;
     valueName := valueName meta; description := description meta;
     negative := negative meta; negatedDescription := negatedDescription meta;
     helpLevel := Some (if existsb (String.eqb n) minimumHelpFlags
                        then "minimum" else "verbose");
     group := Some "core" |}.

(** [getBuiltInOptions()], from the entries of webpack's
    [cli.getArguments()]; the cache of the result is left out. *)
Definition getBuiltInOptions (coreArguments : list (string * cli_option num))
  : list (cli_option num) :=
  builtInFlags ++ map core_option coreArguments.

End WithNumbers.

End BuiltIn.

(** ** Command names in [run] *)

Module Run.
Import JsString Commands.

(** [getCommandName] *)
Definition getCommandName (name : string) : string := first_word name.

(** The test that [isKnownCommand] hands to [knownCommands.find]. *)
Definition named (name : string) (command : command_spec) : bool :=
  String.eqb (getCommandName (sname command)) name
  || match salias command with
     | AliasMany l => existsb (String.eqb name) l
     | AliasOne a => String.eqb a name
     | AliasNone => false
     end.

(** [isCommand(input, commandOptions)]; an alias that is the empty string
    is falsy. *)
Definition isCommand (input : string) (commandOptions : command_spec) : bool :=
  if String.eqb input (getCommandName (sname commandOptions)) then true
  else
    match salias commandOptions with
    | AliasNone => false
    | AliasMany l => existsb (String.eqb input) l
    | AliasOne a =>
        if String.eqb a EmptyString then false else String.eqb a input
    end.

(** [isOption] and [isGlobalOption] *)
Definition isOption (value : string) : bool :=
  match value with
  | String c _ => Ascii.eqb c "-"%char
  | EmptyString => false
  end.

Definition isGlobalOption (value : string) : bool :=
  String.eqb value "--color" || String.eqb value "--no-color"
  || String.eqb value "-v" || String.eqb value "--version"
  || String.eqb value "-h" || String.eqb value "--help".

Section WithPackage.

Variable WEBPACK_PACKAGE : string.

Definition buildCommandOptions : command_spec :=
  {| sname := "build [entries...]"; salias := AliasMany ["bundle"; "b"];
     sdescription := Some "Run webpack (default command, can be omitted).";
     susage := Some "[entries...] [options]"; spkg := None;
     sdependencies := Some [WEBPACK_PACKAGE]; shidden := false;
     sisDefault := false |}.

Definition watchCommandOptions : command_spec :=
  {| sname := "watch [entries...]"; salias := AliasOne "w";
     sdescription := Some "Run webpack and watch for files changes.";
     susage := Some "[entries...] [options]"; spkg := None;
     sdependencies := Some [WEBPACK_PACKAGE]; shidden := false;
     sisDefault := false |}.

Definition versionCommandOptions : command_spec :=
  {| sname := "version"; salias := AliasOne "v";
     sdescription :=
       Some "Output the version number of 'webpack', 'webpack-cli' and 'webpack-dev-server' and commands.";
     susage := Some "[options]"; spkg := None; sdependencies := None;
     shidden := false; sisDefault := false |}.

Definition helpCommandOptions : command_spec :=
  {| sname := "help [command] [option]"; salias := AliasOne "h";
     sdescription := Some "Display help for commands and options.";
     susage := None; spkg := None; sdependencies := None; shidden := false;
     sisDefault := false |}.

(** An entry of [externalBuiltInCommandsInfo]: name, alias and package. *)
Definition external (n : string) (a : alias_field) (pkg : string) : command_spec :=
  {| sname := n; salias := a; sdescription := None; susage := None;
     spkg := Some pkg; sdependencies := None; shidden := false;
     sisDefault := false |}.

Definition externalBuiltInCommandsInfo : list command_spec :=
  [ external "serve [entries...]" (AliasMany ["server"; "s"]) "@webpack-cli/serve";
    external "info" (AliasOne "i") "@webpack-cli/info";
    external "configtest [config-path]" (AliasOne "t") "@webpack-cli/configtest" ].

Definition knownCommands : list command_spec :=
  [buildCommandOptions; watchCommandOptions; versionCommandOptions;
   helpCommandOptions] ++ externalBuiltInCommandsInfo.

(** [isKnownCommand(name)]: the command found, used as a truth value. *)
Definition isKnownCommand (name : string) : option command_spec :=
  find (named name) knownCommands.

End WithPackage.

Section WithProgram.

Variable num : Type.

(** [findCommandByName(name)] on [program.commands]. *)
Definition findCommandByName (commands : list (command num)) (name : string)
  : option (command num) :=
  find (fun command => String.eqb name (cname command)
                       || existsb (String.eqb name) (caliases command))
       commands.

End WithProgram.

End Run.

(** ** Reporting the problems of the CLI values ([buildConfig]) *)

Module Report.

(** [(rv[path] ||= []).push(problem)]: [rv] keeps the paths in the order
    in which they first occur. *)
Fixpoint push (path : string) (problem : Problem)
    (rv : list (string * list Problem)) : list (string * list Problem) :=
  match rv with
  | [] => [(path, [problem])]
  | (k, problems) :: rest =>
      if String.eqb path k then (k, problems ++ [problem]) :: rest
      else (k, problems) :: push path problem rest
  end.

(** [groupBy(xs, "path")].  A path that spells an array index would be
    visited first by [for...in]; that changes the order of the groups
    only, on which no statement below depends. *)
Definition groupBy (xs : list Problem) : list (string * list Problem) :=
  fold_left (fun rv problem => push (ppath problem) problem rv) xs [].

(** [problemsByPath[path]], with no problems for a path that is not a
    key. *)
Fixpoint group_of (path : string) (rv : list (string * list Problem))
  : list Problem :=
  match rv with
  | [] => []
  | (k, problems) :: rest =>
      if String.eqb path k then problems else group_of path rest
  end.

(** [capitalizeFirstLetter] and [replaceAll("-", " ")], on ASCII
    letters. *)
Definition is_lower (c : ascii) : bool :=
  let n := N_of_ascii c in (N.leb 97 n && N.leb n 122)%N.

Definition to_upper (c : ascii) : ascii :=
  if is_lower c then ascii_of_N (N_of_ascii c - 32) else c.

Definition capitalizeFirstLetter (str : string) : string :=
  match str with
  | EmptyString => EmptyString
  | String c rest => String (to_upper c) rest
  end.

Fixpoint replace_hyphens (s : string) : string :=
  match s with
  | EmptyString => EmptyString
  | String c rest =>
      String (if Ascii.eqb c "-"%char then " "%char else c) (replace_hyphens rest)
  end.

(** A number in a template literal. *)
Definition decimal (n : nat) : string := NilZero.string_of_uint (Nat.to_uint n).

(** Lines 2210-2216: the value and the index are named when truthy. *)
Definition problem_message (problem : Problem) : string :=
  capitalizeFirstLetter (replace_hyphens (ptype problem))
  +:+ match pvalue problem with
      | Some v => if String.eqb v EmptyString then "" else " '" +:+ v +:+ "'"
      | None => ""
      end
  +:+ " for the '--" +:+ pargument problem +:+ "' option"
  +:+ match pindex problem with
      | Some (S n) => " by index '" +:+ decimal (S n) +:+ "'"
      | _ => ""
      end.

(** Lines 2209-2221: what is logged for one problem. *)
Definition problem_lines (problem : Problem) : list string :=
  problem_message problem
  :: match pexpected problem with
     | Some e => if String.eqb e EmptyString then [] else ["Expected: '" +:+ e +:+ "'"]
     | None => []
     end.

(** Lines 2204-2222: everything logged before the process exits. *)
Definition report (problems : list Problem) : list string :=
  flat_map (fun group => flat_map problem_lines (snd group)) (groupBy problems).

End Report.

(** ** The options of the [serve] command *)

Module Serve.
Import Options Reconcile.

Section WithOptions.

Variable num : Type.
Variable cli_value : Type.

(** An object of option values, in the order of its keys. *)
Local Abbreviation record := (list (string * cli_value)).

(** [o[k]] and [o[k] = v] *)
Fixpoint lookup_key (k : string) (o : record) : option cli_value :=
  match o with
  | [] => None
  | (k', v) :: rest => if String.eqb k k' then Some v else lookup_key k rest
  end.

Fixpoint assign (k : string) (v : cli_value) (o : record) : record :=
  match o with
  | [] => [(k, v)]
  | (k', v') :: rest =>
      if String.eqb k k' then (k, v) :: rest else (k', v') :: assign k v rest
  end.

(** [builtInOptions.find((builtInOption) => builtInOption.name ===
    kebabedOption)], as a truth value. *)
Definition isBuiltInOption (builtInOptions : list (cli_option num))
    (kebabedOption : string) : bool :=
  existsb (fun builtInOption => String.eqb (name builtInOption) kebabedOption)
          builtInOptions.

(** The loop [for (const optionName in options)]: the parsed options
    are dealt out to [webpackCLIOptions] and [devServerCLIOptions]. *)
Definition split_options (builtInOptions : list (cli_option num))
    (options : record) : record * record :=
  fold_left
    (fun (acc : record * record) (entry : string * cli_value) =>
       let (webpackCLIOptions, devServerCLIOptions) := acc in
       let (optionName, v) := entry in
       if isBuiltInOption builtInOptions (toKebabCase optionName)
       then (assign optionName v webpackCLIOptions, devServerCLIOptions)
       else (webpackCLIOptions, assign optionName v devServerCLIOptions))
    options ([], []).

(** [args]: the flags of the dev server by name. *)
Definition dev_server_args (devServerFlags : list (cli_option num))
  : gmap string (cli_option num) :=
  fold_left (fun accumulator flag => <[name flag := flag]> accumulator)
            devServerFlags ∅.

(** [values]: for each key of [devServerCLIOptions] whose kebab-case
    name is a flag of the dev server, the value that [options] has under
    the key ([undefined] when it has none). *)
Definition dev_server_values (devServerFlags : list (cli_option num))
    (options devServerCLIOptions : record) : gmap string (option cli_value) :=
  fold_left
    (fun accumulator optionName =>
       let kebabName := toKebabCase optionName in
       match dev_server_args devServerFlags !! kebabName with
       | Some _ => <[kebabName := lookup_key optionName options]> accumulator
       | None => accumulator
       end)
    (map fst devServerCLIOptions) ∅.

(** The processors of the dev server's flags rewrite [devServerCLIOptions]
    in place before the values are read. *)
Variable run_processors : record -> record.

(** What [processArguments] is given for the dev server. *)
Definition serve_values (builtInOptions devServerFlags : list (cli_option num))
    (options : record) : gmap string (option cli_value) :=
  dev_server_values devServerFlags options
    (run_processors (snd (split_options builtInOptions options))).

End WithOptions.

End Serve.

(** ** Loading a module ([tryRequireThenImport]) *)

Module ModuleLoader.

(** A JavaScript value as far as this code looks into it. *)
Inductive js : Type :=
| JUndefined
| JNull
| JBool (b : bool)
| JNum (n : Z)
| JStr (s : string)
| JFun (tag : string)
| JArr (items : list js)
| JObj (props : list (string * js)).

Definition truthy (v : js) : bool :=
  match v with
  | JUndefined => false
  | JNull => false
  | JBool b => b
  | JNum n => negb (Z.eqb n 0)
  | JStr s => negb (String.eqb s EmptyString)
  | JFun _ => true
  | JArr _ => true
  | JObj _ => true
  end.

Fixpoint own (k : string) (props : list (string * js)) : option js :=
  match props with
  | [] => None
  | (k', v) :: rest => if String.eqb k k' then Some v else own k rest
  end.

(** [ns.default] on an object of exports *)
Definition default_of (props : list (string * js)) : js :=
  match own "default" props with
  | Some v => v
  | None => JUndefined
  end.

(** [result && typeof result === "object" && "default" in result] *)
Definition has_default (result : js) : bool :=
  match result with
  | JObj props => match own "default" props with Some _ => true | None => false end
  | _ => false
  end.

(** Lines 438-443. *)
Definition unwrap_default (result : js) : js :=
  let result :=
    match result with
    | JObj props =>
        if has_default result
        then (if truthy (default_of props) then default_of props else JObj [])
        else result
    | _ => result
    end in
  if truthy result then result else JObj [].

(** A call of the host that returns, or throws an error with its
    [code]. *)
Inductive attempt (A : Type) : Type :=
| Got (a : A)
| Threw (code : option string).

Arguments Got {A} a.
Arguments Threw {A} code.

Inductive module_type : Type :=
| Unknown
| CommonJs
| Esm.

(** How the call ends: with a value, with [process.exit(2)], or with the
    error thrown to the caller. *)
Inductive outcome : Type :=
| Value (v : js)
| ProcessExit
| Rejected (code : option string).

Section WithHost.

(** [require], the dynamic import function that
    [./utils/dynamic-import-loader] yields (or [null]), which resolves
    to the namespace of the module, [pathToFileURL], and whether
    [WEBPACK_CLI_FORCE_LOAD_ESM_CONFIG] is set. *)
Variable require_module : string -> attempt js.
Variable dynamicImportLoader : option (string -> attempt (list (string * js))).
Variable pathToFileURL : string -> string.
Variable WEBPACK_CLI_FORCE_LOAD_ESM_CONFIG : bool.

Definition is_esm_code (code : option string) : bool :=
  match code with
  | Some c => String.eqb c "ERR_REQUIRE_ESM" || String.eqb c "ERR_REQUIRE_ASYNC_MODULE"
  | None => false
  end.

(** [if (handleError) { ...; process.exit(2); } else { throw error; }] *)
Definition on_error (handleError : bool) (code : option string) : outcome :=
  if handleError then ProcessExit else Rejected code.

(** [tryRequireThenImport(module, handleError, moduleType)] *)
Definition tryRequireThenImport (module : string) (handleError : bool)
    (moduleType : module_type) : outcome :=
  match moduleType with
  | Unknown =>
      match require_module module with
      | Got result => Value (unwrap_default result)
      | Threw code =>
          match dynamicImportLoader with
          | Some load =>
              if is_esm_code code || WEBPACK_CLI_FORCE_LOAD_ESM_CONFIG
              then
                match load (pathToFileURL module) with
                | Got ns => Value (default_of ns)
                | Threw code' => Rejected code'
                end
              else on_error handleError code
          | None => on_error handleError code
          end
      end
  | CommonJs =>
      match require_module module with
      | Got result => Value (unwrap_default result)
      | Threw code => on_error handleError code
      end
  | Esm =>
      match dynamicImportLoader with
      | Some load =>
          match load (pathToFileURL module) with
          | Got ns => Value (default_of ns)
          | Threw code => on_error handleError code
          end
      | None => Value (unwrap_default JUndefined)
      end
  end.

(** The [switch (ext)] of [loadConfigByPath]; [ext] is the extension of
    the path in lower case. *)
Definition module_type_of (ext : string) : module_type :=
  if String.eqb ext ".cjs" || String.eqb ext ".cts" then CommonJs
  else if String.eqb ext ".mjs" || String.eqb ext ".mts" then Esm
  else Unknown.

(** Lines 1842-1863 of [loadConfigByPath]: the export of the file, or
    one of the two ways the process ends there. *)
Inductive raw_load : Type :=
| Exported (options : js)
| FailedToLoadConfig
| UnableToFindDefaultExport.

Definition load_export (configPath ext : string) : raw_load :=
  match tryRequireThenImport configPath false (module_type_of ext) with
  | Value options =>
      if truthy options then Exported options else UnableToFindDefaultExport
  | ProcessExit => FailedToLoadConfig
  | Rejected _ => FailedToLoadConfig
  end.

End WithHost.

End ModuleLoader.

(** ** The [configtest] command ([packages/configtest/src/index.ts]) *)

Module ConfigTest.
Import Config Loader.

(** [Set.prototype.add] on an insertion-ordered list without
    repetition. *)
Definition set_add (p : string) (configPaths : list string) : list string :=
  if existsb (String.eqb p) configPaths then configPaths else configPaths ++ [p].

(** [for (const path of loadedConfigPaths) configPaths.add(path)] *)
Definition add_all (loadedConfigPaths configPaths : list string) : list string :=
  fold_left (fun acc p => set_add p acc) loadedConfigPaths configPaths.

(** Lines 20-36: the paths read from the ledger for the configurations
    returned. *)
Definition collect_paths (paths : gmap nat (list string)) (c : config_set)
  : list string :=
  match c with
  | Many _ items =>
      fold_left
        (fun configPaths options =>
           match paths !! oid options with
           | Some loadedConfigPaths => add_all loadedConfigPaths configPaths
           | None => configPaths
           end) items []
  | Single o =>
      match paths !! oid o with
      | Some loadedConfigPaths => add_all loadedConfigPaths []
      | None => []
      end
  end.

(** How the action goes on after loading: the process ends in
    [loadConfig], or with "No configuration found.", or the paths are
    announced and the configurations go to [webpack.validate]. *)
Inductive outcome : Type :=
| LoadExit (e : error)
| NoConfigurationFound
| Validate (configPaths : list string) (c : config_set)
| Unfinished.

(** [configPath ? { config: [configPath] } : {}]; [options_id] is the
    identity of that object. *)
Definition configtest_options (options_id : nat) (configPath : option string)
  : load_options :=
  {| options_id := options_id;
     config := match configPath with
               | Some p => if String.eqb p EmptyString then [] else [p]
               | None => []
               end;
     configName := None; extends := []; merge_flag := false |}.

Section WithFiles.

Variable resolve : string -> string.
Variable load_module : string -> option module_export.
Variable existsSync : string -> bool.
Variable defaultConfigFiles : list string.

(** The action of the command, once webpack is loaded, from [loadConfig]
    up to the call of [webpack.validate]. *)
Definition configtest (fuel : nat) (options_id : nat) (configPath : option string)
  : outcome :=
  let options := configtest_options options_id configPath in
  match loadConfig resolve load_module existsSync defaultConfigFiles fuel options
          (initial_state options) with
  | Return c s =>
      match collect_paths (ledger s) c with
      | [] => NoConfigurationFound
      | p :: ps => Validate (p :: ps) c
      end
  | Exit e => LoadExit e
  | OutOfFuel => Unfinished
  end.

End WithFiles.

End ConfigTest.

(** ** Predicates on strings used by the statements *)

Module Text.

(** Every character of the string passes the test. *)
Fixpoint all_chars (f : ascii -> bool) (s : string) : bool :=
  match s with
  | EmptyString => true
  | String c rest => f c && all_chars f rest
  end.

End Text.

(** ** Further concrete inputs *)

Module Cases.
Import Options Scenarios.

(** A flag of webpack's core whose only value is the enum literal
    [false]: it exists to be negated ([--no-amd]). *)
Definition amd_flag : cli_option dnum :=
  {| name := "amd"; alias := None;
     configs := Some [a_config TEnum (Some [EnumBoolean false])];
     type := None; multiple := false; defaultValue := None; valueName := None;
     description := Some "Set the value of `require.amd` and `define.amd`.";
     negative := false; negatedDescription := None; helpLevel := Some "verbose";
     group := Some "core" |}.

Import Config Loader.

(** [/child.js] extends [/base.js]; both set [mode], the base also
    [devtool]. *)
Definition base_and_child (p : string) : option module_export :=
  if String.eqb p "/base.js"
  then Some (MObject [("mode", VStr "development"); ("devtool", VStr "source-map")])
  else if String.eqb p "/child.js"
  then Some (MObject [("mode", VStr "production"); ("extends", VStr "/base.js")])
  else None.

(** The configuration of [/child.js] once loaded from that path. *)
Definition child_config : obj :=
  {| oid := 2; props := [("mode", VStr "production"); ("extends", VStr "/base.js")] |}.

Definition child_loaded : state :=
  {| next_id := 3; ledger := {[ 2 := ["/child.js"] ]} |}.

(** The same configuration with another [extends] of its own. *)
Definition child_config_extending_other : obj :=
  {| oid := 2; props := [("mode", VStr "production"); ("extends", VStr "/other.js")] |}.

(** After [resolveExtends] with [/base.js]. *)
Definition child_resolved : obj :=
  {| oid := 4; props := [("mode", VStr "production"); ("devtool", VStr "source-map")] |}.

Definition child_resolved_state : state :=
  {| next_id := 5;
     ledger := <[4 := ["/child.js"; "/base.js"]]> {[ 2 := ["/child.js"] ]} |}.

(** The two configurations that [/a.js] of [array_and_object] exports,
    once loaded, and a selection of both by name, last first. *)
Definition first_and_second : config_set :=
  Many 2 [ {| oid := 3; props := [("name", VStr "first")] |};
           {| oid := 4; props := [("name", VStr "second")] |} ].

Definition first_and_second_loaded : state :=
  {| next_id := 5; ledger := {[ 2 := ["/a.js"] ]} |}.

Definition second_then_first : load_options :=
  {| options_id := 0; config := ["/a.js"]; configName := Some ["second"; "first"];
     extends := []; merge_flag := false |}.

(** [/b.js] names itself in [extends]. *)
Definition self_extending (p : string) : option module_export :=
  if String.eqb p "/b.js"
  then Some (MObject [("mode", VStr "production"); ("extends", VStr "/b.js")])
  else None.

(** The empty configuration [loadConfig] starts from when no file is
    found; it has no ledger entry. *)
Definition empty_config : obj := {| oid := 1; props := [] |}.

Definition nothing_recorded : state := {| next_id := 2; ledger := ∅ |}.

(** One explicit path, with [--merge]. *)
Definition one_config_path_merged : load_options :=
  {| options_id := 0; config := ["/b.js"]; configName := None; extends := [];
     merge_flag := true |}.

End Cases.

(** * Properties *)

#[local] Arguments append s1 s2 : simpl nomatch.

(** ** The [--env] accumulator *)

Module EnvFacts.
Import JsString Env.

Lemma get_set_prop (k : string) (v : env_value) (o : list (string * env_value)) :
  get k (set_prop k v o) = Some v.
Proof.
  induction o as [| [k' v'] o IH]; simpl.
  - now rewrite String.eqb_refl.
  - destruct (String.eqb k k') eqn:E; simpl.
    + now rewrite String.eqb_refl.
    + now rewrite E.
Qed.

Lemma get_set_prop_other (k k' : string) (v : env_value) (o : list (string * env_value)) :
  k <> k' -> get k' (set_prop k v o) = get k' o.
Proof.
  intros Hne. induction o as [| [k0 v0] o IH]; simpl.
  - destruct (String.eqb k' k) eqn:E; [| reflexivity].
    apply String.eqb_eq in E. congruence.
  - destruct (String.eqb k k0) eqn:E; simpl.
    + apply String.eqb_eq in E. subst k0.
      destruct (String.eqb k' k) eqn:E'; [| reflexivity].
      apply String.eqb_eq in E'. congruence.
    + now rewrite IH.
Qed.

Lemma ends_with_eq_app (k : string) : ends_with_eq (k +:+ "=") = true.
Proof.
  induction k as [| c k IH]; [reflexivity |].
  simpl. destruct (k +:+ "=") eqn:E; [| exact IH].
  destruct k; discriminate.
Qed.

Lemma slice_last_app (k : string) : slice_last (k +:+ "=") = k.
Proof.
  induction k as [| c k IH]; [reflexivity |].
  simpl. destruct (k +:+ "=") eqn:E.
  - destruct k; discriminate.
  - now rewrite IH.
Qed.

Lemma walkable_object (path : list string) (v : env_value) :
  walkable path v = true -> exists o, v = EObj o.
Proof. destruct v; destruct path; simpl; try discriminate; eauto. Qed.

Lemma walkable_empty_object (path : list string) : walkable path (EObj []) = true.
Proof. destruct path; reflexivity. Qed.

(** The loop on a key whose last segment ends with [=]: the segments
    before it are walked, creating objects where needed, and the last
    key is bound to [undefined]. *)
Lemma env_loop_trailing_eq (key : string) (val : option string) :
  forall (before : list string) (o : list (string * env_value)),
    Forall (fun s => ends_with_eq s = false) before ->
    walkable before (EObj o) = true ->
    exists acc,
      env_loop (before ++ [key +:+ "="]) val (EObj o) = Ok acc
      /\ lookup_path (before ++ [key]) acc = Some EUndefined.
Proof.
  induction before as [| k rest IH]; intros o Hno Hwalk.
  - simpl. rewrite ends_with_eq_app, slice_last_app.
    eexists. split; [reflexivity |].
    simpl. now rewrite get_set_prop.
  - inversion Hno as [| ? ? Hk Hrest]; subst.
    cbn [app env_loop]. rewrite Hk.
    set (c0 := get_prop k o) in *.
    set (c1 := if truthy c0 then c0 else EObj []).
    set (c2 := if is_string c1 then EObj [] else c1).
    assert (Hc2 : walkable rest c2 = true).
    { cbn [walkable] in Hwalk. fold c0 in Hwalk.
      subst c2 c1. destruct (truthy c0) eqn:Ht; simpl in Hwalk.
      - destruct (is_string c0) eqn:Hs; simpl in Hwalk.
        + apply walkable_empty_object.
        + exact Hwalk.
      - simpl. apply walkable_empty_object. }
    destruct (walkable_object _ _ Hc2) as [o2 Ho2].
    rewrite Ho2 in Hc2.
    destruct (IH o2 Hrest Hc2) as (acc & Hrun & Hlook).
    assert (Hc3 : match rest ++ [key +:+ "="] with
                  | [] => match val with
                          | Some s => EStr s
                          | None => EBool true
                          end
                  | _ :: _ => c2
                  end = EObj o2).
    { destruct rest; simpl; exact Ho2. }
    rewrite Hc3, Hrun.
    eexists. split; [reflexivity |].
    cbn [app lookup_path]. now rewrite get_set_prop.
Qed.

(** *** Where a segment ending with [=] can stand *)

Lemma append_assoc (a b c : string) : (a +:+ b) +:+ c = a +:+ (b +:+ c).
Proof. induction a as [| x a IH]; simpl; [reflexivity | now rewrite IH]. Qed.

Lemma append_empty_r (a : string) : a +:+ EmptyString = a.
Proof. induction a as [| x a IH]; simpl; [reflexivity | now rewrite IH]. Qed.

Lemma split_keys_from_cons (s cur : string) :
  exists x l, split_keys_from cur s = x :: l.
Proof.
  revert cur. induction s as [| c s IH]; intros cur; cbn [split_keys_from].
  - eauto.
  - destruct (Ascii.eqb c "."%char && negb (String.eqb s EmptyString)); eauto.
Qed.

Lemma split_keys_from_join (s cur : string) :
  join_dots (split_keys_from cur s) = cur +:+ s.
Proof.
  revert cur. induction s as [| c s IH]; intros cur.
  - simpl. now rewrite append_empty_r.
  - cbn [split_keys_from].
    destruct (Ascii.eqb c "."%char && negb (String.eqb s EmptyString)) eqn:E.
    + apply andb_true_iff in E as [Ec _]. apply Ascii.eqb_eq in Ec. subst c.
      destruct (split_keys_from_cons s EmptyString) as (x & l & Hx).
      specialize (IH EmptyString). rewrite Hx in IH.
      cbn [join_dots]. rewrite Hx, IH. reflexivity.
    + rewrite IH, append_assoc. reflexivity.
Qed.

Lemma split_keys_join (s : string) : join_dots (split_keys s) = s.
Proof. apply (split_keys_from_join s EmptyString). Qed.

Lemma split_value_none (s k : string) : split_value s = (k, None) -> k = s.
Proof.
  revert k. induction s as [| c s IH]; intros k H; simpl in H.
  - now inversion H.
  - destruct (split_value s) as [k' v'] eqn:E.
    destruct (Ascii.eqb c "="%char).
    + destruct s as [| d s'].
      * inversion H; subst. now rewrite (IH k' eq_refl).
      * destruct (is_line_terminator d); [| discriminate].
        inversion H; subst. now rewrite (IH k' eq_refl).
    + inversion H; subst. now rewrite (IH k' eq_refl).
Qed.

Lemma split_value_tail (c : ascii) (s : string) :
  snd (split_value (String c s)) = None -> snd (split_value s) = None.
Proof.
  cbn [split_value]. generalize (split_value s) as r. intros [k v].
  destruct (Ascii.eqb c "="%char); [| exact (fun H => H)].
  destruct s as [| d s']; [exact (fun H => H) |].
  destruct (is_line_terminator d); [exact (fun H => H) | discriminate].
Qed.

Lemma split_value_suffix (a b : string) :
  snd (split_value (a +:+ b)) = None -> snd (split_value b) = None.
Proof.
  induction a as [| c a IH]; [exact (fun H => H) |].
  intros H. apply IH. exact (split_value_tail c _ H).
Qed.

Lemma split_value_eq_dot (a b : string) :
  snd (split_value (a +:+ String "="%char (String "."%char b))) <> None.
Proof.
  intros H. apply split_value_suffix in H. discriminate H.
Qed.

Lemma ends_with_eq_inv (s : string) :
  ends_with_eq s = true -> exists k, s = k +:+ "=".
Proof.
  induction s as [| c s IH]; [discriminate |].
  destruct s as [| d s'].
  - simpl. intros H. apply Ascii.eqb_eq in H. subst. now exists EmptyString.
  - intros H. change (ends_with_eq (String d s') = true) in H.
    destruct (IH H) as [k Hk]. exists (String c k). simpl. now rewrite Hk.
Qed.

Lemma join_dots_cons (s : string) (rest : list string) :
  rest <> [] -> join_dots (s :: rest) = s +:+ "." +:+ join_dots rest.
Proof. destruct rest; [congruence | reflexivity]. Qed.

(** With no value split off, only the last segment can end with [=]:
    an earlier one would be followed by a dot, and [=.] splits. *)
Lemma only_last_segment_ends_with_eq (allKeys : string) (before : list string)
    (last : string) :
  snd (split_value allKeys) = None ->
  split_keys allKeys = before ++ [last] ->
  Forall (fun s => ends_with_eq s = false) before.
Proof.
  intros Hnone Hsplit.
  pose proof (split_keys_join allKeys) as Hjoin. rewrite Hsplit in Hjoin.
  clear Hsplit. revert allKeys Hnone Hjoin.
  induction before as [| s rest IH]; intros allKeys Hnone Hjoin; [constructor |].
  assert (Hrest : rest ++ [last] <> []) by (destruct rest; discriminate).
  cbn [app] in Hjoin. rewrite (join_dots_cons _ _ Hrest) in Hjoin.
  subst allKeys. constructor.
  - destruct (ends_with_eq s) eqn:E; [| reflexivity].
    destruct (ends_with_eq_inv _ E) as [k Hk]. subst s.
    exfalso. apply (split_value_eq_dot k (join_dots (rest ++ [last]))).
    rewrite append_assoc in Hnone. exact Hnone.
  - apply (IH (join_dots (rest ++ [last]))); [| reflexivity].
    apply (split_value_suffix (s +:+ ".")).
    rewrite append_assoc. exact Hnone.
Qed.

(** C7.  Scenario [--env foo=bar --env baz.qux]: from the empty
    accumulator the parser yields first [{foo: "bar"}] and then
    [{foo: "bar", baz: {qux: true}}]: the pair binds the key to the string
    and the dotted key without a value nests an object whose last
    segment is [true]. *)
Theorem env_foo_bar_then_baz_qux :
  env_type "foo=bar" EUndefined = Ok (EObj [("foo", EStr "bar")])
  /\ env_type "foo=bar" (EObj []) = Ok (EObj [("foo", EStr "bar")])
  /\ env_type "baz.qux" (EObj [("foo", EStr "bar")])
     = Ok (EObj [("foo", EStr "bar"); ("baz", EObj [("qux", EBool true)])]).
Proof. repeat split; reflexivity. Qed.



(** A key without dots: every accumulator takes the binding. *)
Lemma env_plain_key_eq (value key : string) (o : list (string * env_value)) :
  split_value value = (value, None) ->
  split_keys value = [key +:+ "="] ->
  env_type value (EObj o) = Ok (EObj (set_prop key EUndefined o))
  /\ env_type value EUndefined = Ok (EObj [(key, EUndefined)]).
Proof.
  intros Hvalue Hkeys. unfold env_type. rewrite Hvalue, Hkeys. simpl.
  now rewrite ends_with_eq_app, slice_last_app.
Qed.

(** C10.  After [--env a] the accumulator binds [a] to [true]; the value
    [a.b=] then has a last key segment ending with [=] and no value
    text, yet nothing is bound: the loop steps into [true] and the write
    of [b] on it throws. *)
Theorem env_trailing_eq_under_true :
  env_type "a" EUndefined = Ok (EObj [("a", EBool true)])
  /\ split_value "a.b=" = ("a.b=", None)
  /\ split_keys "a.b=" = ["a"; "b="]
  /\ env_type "a.b=" (EObj [("a", EBool true)]) = Err TypeError.
Proof. repeat split; reflexivity. Qed.

(** *** Binding a dotted key, and what the parser leaves alone *)

(** Walking the segments before the last one, whatever the last one
    does. *)
Lemma env_loop_walk (last target : string) (val : option string)
    (bound : env_value) :
  (forall o, exists acc,
      env_loop [last] val (EObj o) = Ok acc
      /\ lookup_path [target] acc = Some bound) ->
  forall (before : list string) (o : list (string * env_value)),
    Forall (fun s => ends_with_eq s = false) before ->
    walkable before (EObj o) = true ->
    exists acc,
      env_loop (before ++ [last]) val (EObj o) = Ok acc
      /\ lookup_path (before ++ [target]) acc = Some bound.
Proof.
  intros Hlast.
  induction before as [| k rest IH]; intros o Hno Hwalk.
  - apply Hlast.
  - inversion Hno as [| ? ? Hk Hrest]; subst.
    cbn [app env_loop]. rewrite Hk.
    set (c0 := get_prop k o) in *.
    set (c1 := if truthy c0 then c0 else EObj []).
    set (c2 := if is_string c1 then EObj [] else c1).
    assert (Hc2 : walkable rest c2 = true).
    { cbn [walkable] in Hwalk. fold c0 in Hwalk.
      subst c2 c1. destruct (truthy c0) eqn:Ht; simpl in Hwalk.
      - destruct (is_string c0) eqn:Hs; simpl in Hwalk.
        + apply walkable_empty_object.
        + exact Hwalk.
      - simpl. apply walkable_empty_object. }
    destruct (walkable_object _ _ Hc2) as [o2 Ho2].
    rewrite Ho2 in Hc2.
    destruct (IH o2 Hrest Hc2) as (acc & Hrun & Hlook).
    assert (Hc3 : match rest ++ [last] with
                  | [] => match val with
                          | Some s => EStr s
                          | None => EBool true
                          end
                  | _ :: _ => c2
                  end = EObj o2).
    { destruct rest; simpl; exact Ho2. }
    rewrite Hc3, Hrun.
    eexists. split; [reflexivity |].
    cbn [app lookup_path]. now rewrite get_set_prop.
Qed.

Lemma env_loop_last (key : string) (val : option string)
    (o : list (string * env_value)) :
  ends_with_eq key = false ->
  exists acc,
    env_loop [key] val (EObj o) = Ok acc
    /\ lookup_path [key] acc
       = Some (match val with Some s => EStr s | None => EBool true end).
Proof.
  intros Hkey. cbn [env_loop]. rewrite Hkey.
  eexists. split; [reflexivity |].
  cbn [lookup_path]. now rewrite get_set_prop.
Qed.

(** The text before the value holds no [=] that could have split it, and
    does not end with one. *)
Lemma split_value_keys (s k v : string) :
  split_value s = (k, Some v) ->
  split_value k = (k, None) /\ ends_with_eq k = false.
Proof.
  revert k. induction s as [| c s IH]; intros k H; [discriminate |].
  cbn [split_value] in H.
  destruct (split_value s) as [k' v'] eqn:E.
  destruct (Ascii.eqb c "="%char) eqn:Ec.
  - destruct s as [| d s'].
    + simpl in E. inversion E; subst. discriminate H.
    + destruct (is_line_terminator d) eqn:Ed.
      * inversion H; subst k v'. destruct (IH k' eq_refl) as [Hk He].
        assert (Hd : exists k2, k' = String d k2).
        { cbn [split_value] in E.
          destruct (split_value s') as [k2 v2].
          assert (Hne : Ascii.eqb d "="%char = false).
          { unfold is_line_terminator in Ed.
            destruct (Ascii.eqb d "="%char) eqn:Hde; [| reflexivity].
            apply Ascii.eqb_eq in Hde. subst d. discriminate Ed. }
          rewrite Hne in E. inversion E. now exists k2. }
        destruct Hd as [k2 Hk2]. subst k'.
        split.
        -- cbn [split_value]. cbn [split_value] in Hk. rewrite Ec, Ed.
           destruct (split_value k2) as [a b].
           destruct (Ascii.eqb d "="%char).
           ++ destruct k2 as [| e k3].
              ** inversion Hk; subst. reflexivity.
              ** destruct (is_line_terminator e); [| discriminate].
                 inversion Hk; subst. reflexivity.
           ++ inversion Hk; subst. reflexivity.
        -- exact He.
      * inversion H; subst. split; reflexivity.
  - inversion H; subst k v'. destruct (IH k' eq_refl) as [Hk He].
    split.
    + cbn [split_value]. rewrite Ec, Hk. reflexivity.
    + destruct k' as [| d k2]; [simpl; exact Ec | exact He].
Qed.

Lemma ends_with_eq_append (a b : string) :
  b <> EmptyString -> ends_with_eq (a +:+ b) = ends_with_eq b.
Proof.
  intros Hb. induction a as [| c a IH]; [reflexivity |].
  simpl. destruct (a +:+ b) eqn:E.
  - destruct a; [simpl in E; congruence | discriminate].
  - exact IH.
Qed.

Lemma ends_with_eq_join (before : list string) (last : string) :
  ends_with_eq last = true ->
  ends_with_eq (join_dots (before ++ [last])) = true.
Proof.
  intros Hlast.
  assert (Hne : last <> EmptyString) by (intros ->; discriminate).
  induction before as [| s rest IH]; [exact Hlast |].
  assert (Hrest : rest ++ [last] <> []) by (destruct rest; discriminate).
  cbn [app]. rewrite (join_dots_cons _ _ Hrest).
  rewrite <- append_assoc, ends_with_eq_append; [exact IH |].
  destruct (rest ++ [last]) as [| x l] eqn:E; [congruence |].
  intros Hj. rewrite Hj in IH. discriminate IH.
Qed.

(** Which segments of the key can end with [=]: none before the last,
    and not the last either when a value was split off. *)
Lemma segments_ending_with_eq (value allKeys : string) (val : option string)
    (before : list string) (last : string) :
  split_value value = (allKeys, val) ->
  split_keys allKeys = before ++ [last] ->
  Forall (fun s => ends_with_eq s = false) before
  /\ (val <> None -> ends_with_eq last = false).
Proof.
  intros Hvalue Hkeys.
  assert (Hnone : snd (split_value allKeys) = None
                  /\ (val <> None -> ends_with_eq allKeys = false)).
  { destruct val as [v |].
    - destruct (split_value_keys _ _ _ Hvalue) as [Hk He].
      rewrite Hk. split; [reflexivity | intros _; exact He].
    - pose proof (split_value_none _ _ Hvalue) as Heq. subst allKeys.
      rewrite Hvalue. split; [reflexivity | congruence]. }
  destruct Hnone as [Hnone Hend].
  split.
  - exact (only_last_segment_ends_with_eq allKeys before last Hnone Hkeys).
  - intros Hval. destruct (ends_with_eq last) eqn:E; [| reflexivity].
    pose proof (ends_with_eq_join before last E) as Hj.
    rewrite <- Hkeys, split_keys_join in Hj.
    rewrite (Hend Hval) in Hj. discriminate Hj.
Qed.

Lemma split_keys_last (s : string) :
  exists before last, split_keys s = before ++ [last].
Proof.
  destruct (split_keys_from_cons s EmptyString) as (x & l & Hx).
  unfold split_keys. rewrite Hx.
  exists (removelast (x :: l)), (List.last (x :: l) EmptyString).
  apply app_removelast_last. discriminate.
Qed.

Lemma env_loop_object (keys : list string) (val : option string) :
  forall (o : list (string * env_value)) (acc : env_value),
    env_loop keys val (EObj o) = Ok acc -> exists o', acc = EObj o'.
Proof.
  induction keys as [| k rest IH]; intros o acc H; cbn [env_loop] in H.
  - inversion H. eauto.
  - destruct (ends_with_eq k); [exact (IH _ _ H) |].
    match type of H with
    | match ?r with _ => _ end = _ => destruct r; inversion H; eauto
    end.
Qed.




Lemma env_loop_frame (first : string) (rest : list string) (val : option string)
    (o : list (string * env_value)) (acc : env_value) (other : string) :
  (ends_with_eq first = true -> rest = []) ->
  env_loop (first :: rest) val (EObj o) = Ok acc ->
  other <> (if ends_with_eq first then slice_last first else first) ->
  exists o', acc = EObj o' /\ get other o' = get other o.
Proof.
  intros Hlast H Hother. cbn [env_loop] in H.
  destruct (ends_with_eq first).
  - rewrite (Hlast eq_refl) in H. cbn [env_loop] in H. inversion H.
    eexists. split; [reflexivity |].
    apply get_set_prop_other. congruence.
  - match type of H with
    | match ?r with _ => _ end = _ => destruct r; inversion H
    end.
    eexists. split; [reflexivity |].
    apply get_set_prop_other. congruence.
Qed.

(** X3.  An [--env] value touches one top-level binding only.  Whatever
    the value text and the accumulator, when the parser succeeds the
    result is an object in which every top-level key other than the first
    segment of the key (stripped of a final [=]) is bound as before. *)
Theorem env_touches_first_segment_only (value first : string)
    (rest : list string) (o : list (string * env_value)) (acc : env_value)
    (other : string) :
  split_keys (fst (split_value value)) = first :: rest ->
  env_type value (EObj o) = Ok acc ->
  other <> (if ends_with_eq first then slice_last first else first) ->
  exists o', acc = EObj o' /\ get other o' = get other o.
Proof.
  intros Hkeys Hrun Hother.
  unfold env_type in Hrun.
  destruct (split_value value) as [allKeys val] eqn:Hvalue.
  cbn [fst] in Hkeys. rewrite Hkeys in Hrun.
  apply (env_loop_frame first rest val o acc other); [| exact Hrun | exact Hother].
  intros Hfirst. destruct rest as [| r rs]; [reflexivity | exfalso].
  assert (Hsplit : first :: r :: rs
                   = (first :: removelast (r :: rs)) ++ [List.last (r :: rs) EmptyString]).
  { cbn [app]. f_equal. apply app_removelast_last. discriminate. }
  rewrite Hsplit in Hkeys.
  destruct (segments_ending_with_eq _ _ _ _ _ Hvalue Hkeys) as [Hbefore _].
  inversion Hbefore as [| ? ? Hf _]. congruence.
Qed.

Lemma env_touches_first_segment_only_witness :
  env_type "output.path=dist"
    (EObj [("mode", EStr "production"); ("output", EStr "old")])
  = Ok (EObj [("mode", EStr "production"); ("output", EObj [("path", EStr "dist")])])
  /\ exists o',
       EObj [("mode", EStr "production"); ("output", EObj [("path", EStr "dist")])]
       = EObj o'
       /\ get "mode" o'
          = get "mode" [("mode", EStr "production"); ("output", EStr "old")].
Proof.
  split; [reflexivity |].
  apply (env_touches_first_segment_only "output.path=dist" "output" ["path"]
           [("mode", EStr "production"); ("output", EStr "old")]
           (EObj [("mode", EStr "production");
                  ("output", EObj [("path", EStr "dist")])]) "mode");
    [reflexivity | reflexivity | discriminate].
Defined.

End EnvFacts.

(** ** The flag-to-option compiler *)

Module OptionsFacts.
Import Options.

Lemma str_or_twice (s : option string) :
  str_or (Some (str_or s "value")) "value" = str_or s "value".
Proof.
  destruct s as [s |]; [| reflexivity].
  simpl. destruct (String.eqb s EmptyString) eqn:E; [reflexivity |].
  now rewrite E.
Qed.

Section Compiler.

Variable num : Type.

Lemma enum_scan_false (vs : list (enum_value num)) :
  forall (t : list kind) (h : bool),
    snd (enum_scan vs t h) = h || existsb is_false_member vs.
Proof.
  induction vs as [| v vs IH]; intros t h; simpl.
  - now rewrite orb_false_r.
  - destruct v as [s | n | b |]; simpl; try apply IH.
    destruct h, b; simpl; rewrite IH; reflexivity.
Qed.

Lemma scan_config_need (st : scan_state) (c : flag_config num) :
  needNegativeOption (scan_config st c) = needNegativeOption st || config_negates c.
Proof.
  unfold scan_config, config_negates.
  destruct (ctype c); simpl; try (now rewrite orb_false_r).
  - destruct (needNegativeOption st); reflexivity.
  - pose proof (enum_scan_false
                  (match cvalues c with Some vs => vs | None => [] end)
                  (mainOptionType st) false) as H.
    destruct (enum_scan _ _ false) as [t' hasFalse]. simpl in H. subst hasFalse.
    destruct (needNegativeOption st); reflexivity.
Qed.

Lemma scan_configs_need (cs : list (flag_config num)) :
  forall st : scan_state,
    needNegativeOption (fold_left scan_config cs st)
    = needNegativeOption st || existsb config_negates cs.
Proof.
  induction cs as [| c cs IH]; intros st; simpl.
  - now rewrite orb_false_r.
  - now rewrite IH, scan_config_need, orb_assoc.
Qed.

(** The negated option exists exactly when the flag declares a negation. *)
Lemma negative_option_declared (o : cli_option num) :
  match negative_command_option o with
  | Some co => declares_negation o = true /\ flags co = "--no-" +:+ name o
  | None => declares_negation o = false
  end.
Proof.
  unfold negative_command_option, negativeOption, declares_negation.
  destruct (configs o) as [cs |].
  - unfold scan_configs. rewrite scan_configs_need. simpl.
    destruct (existsb config_negates cs); simpl; auto.
  - destruct (negative o); simpl; auto.
Qed.

Lemma main_flags (o : cli_option num) :
  mflags (mainOption o)
  = if Nat.ltb 1 (length (inferred_type o)) && has KBoolean (inferred_type o)
    then base_flags o +:+ " [" +:+ placeholder o +:+ "]"
    else if Nat.ltb 0 (length (inferred_type o)) && negb (has KBoolean (inferred_type o))
    then base_flags o +:+ " <" +:+ placeholder o +:+ ">"
    else base_flags o.
Proof.
  unfold mainOption, with_grammar, value_suffix, placeholder, initial_main_option.
  cbn [mflags mtype mmultiple mvalueName].
  now rewrite str_or_twice.
Qed.

Lemma main_option_flags (o : cli_option num) (co : command_option num) :
  main_command_option o = Some co -> flags co = mflags (mainOption o).
Proof.
  unfold main_command_option.
  change (mtype (mainOption o)) with (inferred_type o).
  destruct (inferred_type o) as [| k [| k2 r]].
  - destruct (negativeOption o); intros H; inversion H; reflexivity.
  - destruct (has KNumber [k]); [intros H; inversion H; reflexivity |].
    destruct (has KString [k]); [intros H; inversion H; reflexivity |].
    destruct (has KBoolean [k]); intros H; inversion H; reflexivity.
  - intros H; inversion H; reflexivity.
Qed.

Lemma main_option_exists (o : cli_option num) :
  inferred_type o <> [] -> exists co, main_command_option o = Some co.
Proof.
  unfold main_command_option.
  change (mtype (mainOption o)) with (inferred_type o).
  destruct (inferred_type o) as [| k [| k2 r]]; [congruence | |]; intros _.
  - destruct (has KNumber [k]); [eauto |].
    destruct (has KString [k]); [eauto |].
    destruct (has KBoolean [k]); eauto.
  - eauto.
Qed.

(** C3.  [makeOption] appends the option built for the flag
    and then its negated option, if any.  When the inferred type set has
    boolean and at least one other kind the option's value is optional
    ([[value]]); when the set is not empty and lacks boolean it is
    required ([<value>]); when the set is boolean alone the flag is a
    switch without placeholder or parser.  The negated [--no-<name>] is
    added exactly when the flag declares a negation (a config of type
    boolean, an enum with the literal [false], or [negative]); a boolean
    that enters the set only through [reset] or the enum value [true]
    brings none. *)
Theorem makeOption_grammar_and_negation (command : list (command_option num))
    (o : cli_option num) :
  makeOption command o
  = command ++ option_list (main_command_option o)
            ++ option_list (negative_command_option o)
  /\ (has KBoolean (inferred_type o) = true -> 1 < length (inferred_type o) ->
      exists co, In co (makeOption command o)
                 /\ flags co = base_flags o +:+ " [" +:+ placeholder o +:+ "]")
  /\ (has KBoolean (inferred_type o) = false -> inferred_type o <> [] ->
      exists co, In co (makeOption command o)
                 /\ flags co = base_flags o +:+ " <" +:+ placeholder o +:+ ">")
  /\ (inferred_type o = [KBoolean] ->
      exists co, In co (makeOption command o)
                 /\ flags co = base_flags o /\ parser co = NoParser)
  /\ (declares_negation o = true ->
      exists co, In co (makeOption command o) /\ flags co = "--no-" +:+ name o)
  /\ (declares_negation o = false -> negative_command_option o = None).
Proof.
  assert (Hin : forall co, main_command_option o = Some co ->
                           In co (makeOption command o)).
  { intros co H. unfold makeOption. rewrite H.
    apply in_or_app. right. left. reflexivity. }
  split; [reflexivity |]. repeat split.
  - intros Hb Hlen.
    destruct (main_option_exists o) as [co Hco].
    { destruct (inferred_type o); simpl in Hlen; [lia | discriminate]. }
    exists co. split; [auto |].
    rewrite (main_option_flags o co Hco), main_flags, Hb.
    destruct (inferred_type o) as [| k [| k2 r]]; simpl in Hlen; try lia.
    reflexivity.
  - intros Hb Hne.
    destruct (main_option_exists o Hne) as [co Hco].
    exists co. split; [auto |].
    rewrite (main_option_flags o co Hco), main_flags, Hb.
    destruct (inferred_type o) as [| k r]; [congruence |].
    rewrite andb_false_r. reflexivity.
  - intros Ht.
    destruct (main_option_exists o) as [co Hco]; [rewrite Ht; discriminate |].
    exists co. split; [auto |].
    split.
    + rewrite (main_option_flags o co Hco), main_flags, Ht. reflexivity.
    + revert Hco. unfold main_command_option.
      change (mtype (mainOption o)) with (inferred_type o). rewrite Ht. simpl.
      intros H. inversion H. reflexivity.
  - intros Hd. pose proof (negative_option_declared o) as H.
    destruct (negative_command_option o) as [co |] eqn:E.
    + exists co. split; [| apply H].
      unfold makeOption. rewrite E.
      apply in_or_app. right. apply in_or_app. right. left. reflexivity.
    + congruence.
  - intros Hd. pose proof (negative_option_declared o) as H.
    destruct (negative_command_option o) as [co |]; [| reflexivity].
    destruct H as [H _]. congruence.
Qed.

End Compiler.

Import Scenarios.

Lemma makeOption_grammar_and_negation_witness :
  (exists co, In co (makeOption [] string_or_boolean_flag)
              /\ flags co = "--stats [value]")
  /\ (exists co, In co (makeOption [] string_or_boolean_flag)
                 /\ flags co = "--no-stats")
  /\ (exists co, In co (makeOption [] repeatable_string_flag)
                 /\ flags co = "--entry <value...>")
  /\ (exists co, In co (makeOption [] merge_switch)
                 /\ flags co = "-m, --merge" /\ parser co = NoParser)
  /\ negative_command_option merge_switch = None.
Proof.
  destruct (makeOption_grammar_and_negation dnum [] string_or_boolean_flag)
    as (_ & Hopt & _ & _ & Hneg & _).
  destruct (makeOption_grammar_and_negation dnum [] repeatable_string_flag)
    as (_ & _ & Hreq & _).
  destruct (makeOption_grammar_and_negation dnum [] merge_switch)
    as (_ & _ & _ & Hswitch & _ & Hnone).
  repeat apply conj.
  - apply Hopt; [reflexivity | simpl; lia].
  - apply Hneg. reflexivity.
  - apply Hreq; [reflexivity | discriminate].
  - apply Hswitch. reflexivity.
  - apply Hnone. reflexivity.
Defined.

(** The built-in flag [progress] has the type set [{String, Boolean}]
    and an optional value, and [makeOption] adds the one option
    [--progress [value]] for it: no [--no-progress]. *)
Lemma progress_flag_has_no_negated_option :
  inferred_type progress_flag = [KString; KBoolean]
  /\ makeOption [] progress_flag
     = [ {| flags := "--progress [value]";
            odescription := "Print compilation progress during build.";
            parser := MultiParser; odefault := None; hidden := false;
            ohelpLevel := Some "minimum" |} ].
Proof. split; reflexivity. Qed.

Section Parsers.

Variable num : Type.
Variable Number : string -> num.
Variable isNaN : num -> bool.
Variable isZero : num -> bool.

Local Abbreviation truthy := (Options.truthy num isNaN isZero).
Local Abbreviation discard_default := (Options.discard_default num isNaN isZero).
Local Abbreviation accumulate := (Options.accumulate num).
Local Abbreviation number_parser := (Options.number_parser num Number isNaN isZero).
Local Abbreviation string_parser := (Options.string_parser num isNaN isZero).
Local Abbreviation multi_parser := (Options.multi_parser num Number isNaN isZero).
Local Abbreviation installed_parser := (Options.installed_parser num Number isNaN isZero).
Local Abbreviation feed := (Options.feed num).
Local Abbreviation parse_values := (Options.parse_values num Number isNaN isZero).
Local Abbreviation coerce := (Options.coerce num Number isNaN).
Local Abbreviation accepted := (Options.accepted num Number isNaN).

Lemma has_two_kinds (t : list kind) :
  has KNumber t = true -> has KString t = true -> exists k1 k2 r, t = k1 :: k2 :: r.
Proof.
  destruct t as [| k1 [| k2 r]]; simpl; try discriminate; eauto.
  destruct k1; simpl; discriminate.
Qed.

(** C8.  A flag whose inferred type set has both number and string gets
    the parser of lines 827-846.  That parser tries [Number(value)]
    first: the element it contributes is the number when that is not
    NaN and the raw string otherwise; the element is the result itself,
    or is appended to the previous values when the flag is repeatable.
    No branch of it reports anything. *)
Theorem number_or_string_coercion (o : cli_option num) (skipDefault : bool)
    (value : string) (prev : option (arg_value num)) :
  has KNumber (inferred_type o) = true ->
  has KString (inferred_type o) = true ->
  let element :=
    if isNaN (Number value) then AStr value else ANum (Number value) in
  let previous :=
    fst (discard_default (mainOption o) skipDefault (prev_or_empty prev)) in
  (exists co, main_command_option o = Some co
              /\ installed_parser (mainOption o) (parser co)
                 = Some (multi_parser (mainOption o)))
  /\ fst (multi_parser (mainOption o) skipDefault value prev)
     = accumulate (mainOption o) previous element
  /\ (multiple o = false ->
      fst (multi_parser (mainOption o) skipDefault value prev) = Ok element)
  /\ (multiple o = true -> forall items, previous = AList items ->
      fst (multi_parser (mainOption o) skipDefault value prev)
      = Ok (AList (items ++ [element]))).
Proof.
  intros Hn Hs element previous.
  assert (Hrun : fst (multi_parser (mainOption o) skipDefault value prev)
                 = accumulate (mainOption o) previous element).
  { unfold Options.multi_parser. subst previous element.
    destruct (discard_default (mainOption o) skipDefault (prev_or_empty prev))
      as [p sk].
    change (mtype (mainOption o)) with (inferred_type o). rewrite Hn, Hs.
    destruct (isNaN (Number value)); reflexivity. }
  split; [| split; [exact Hrun | split]].
  - destruct (has_two_kinds _ Hn Hs) as (k1 & k2 & r & Ht).
    unfold main_command_option.
    change (mtype (mainOption o)) with (inferred_type o). rewrite Ht.
    eexists. split; reflexivity.
  - intros Hm. rewrite Hrun. unfold Options.accumulate.
    change (mmultiple (mainOption o)) with (multiple o). now rewrite Hm.
  - intros Hm items Hitems. rewrite Hrun, Hitems. unfold Options.accumulate.
    change (mmultiple (mainOption o)) with (multiple o). now rewrite Hm.
Qed.

(** *** Repeatable flags *)

Lemma discard_default_later (m : main_option num) (prev : arg_value num) :
  discard_default m false prev = (prev, false).
Proof. unfold Options.discard_default. now rewrite andb_false_r. Qed.

Lemma discard_default_first (m : main_option num) (prev : arg_value num) :
  Options.opt_truthy num isNaN isZero (mdefaultValue m) = true ->
  mmultiple m = true ->
  discard_default m true prev = (AList [], false).
Proof. intros Hd Hm. unfold Options.discard_default. now rewrite Hd, Hm. Qed.

Section Feeding.

Variable f : Options.parser_fn num.
Variable m : main_option num.
Variable t : list kind.

Hypothesis f_step :
  forall skipDefault value prev,
    accepted t value = true ->
    f skipDefault value prev
    = (accumulate m (fst (discard_default m skipDefault (prev_or_empty prev)))
                  (coerce t value),
       snd (discard_default m skipDefault (prev_or_empty prev))).

Hypothesis m_multiple : mmultiple m = true.

Lemma feed_accumulates (values : list string) :
  forall items : list (arg_value num),
    Forall (fun v => accepted t v = true) values ->
    feed f false (Some (AList items)) values
    = Ok (Some (AList (items ++ map (coerce t) values))).
Proof.
  induction values as [| v vs IH]; intros items Hacc; simpl.
  - now rewrite app_nil_r.
  - inversion Hacc as [| ? ? Hv Hvs]; subst.
    rewrite (f_step false v (Some (AList items)) Hv).
    simpl. rewrite discard_default_later. simpl.
    unfold Options.accumulate. rewrite m_multiple. simpl.
    rewrite (IH _ Hvs). now rewrite <- app_assoc.
Qed.

Lemma feed_discards_default (d : arg_value num) (v : string) (vs : list string) :
  mdefaultValue m = Some d ->
  truthy d = true ->
  Forall (fun v => accepted t v = true) (v :: vs) ->
  feed f true (Some d) (v :: vs) = Ok (Some (AList (map (coerce t) (v :: vs)))).
Proof.
  intros Hd Ht Hacc. inversion Hacc as [| ? ? Hv Hvs]; subst.
  cbn [Options.feed].
  rewrite (f_step true v (Some d) Hv).
  rewrite discard_default_first; [| rewrite Hd; exact Ht | exact m_multiple].
  simpl. unfold Options.accumulate. rewrite m_multiple. simpl.
  now rewrite (feed_accumulates vs _ Hvs).
Qed.

End Feeding.

Lemma number_parser_step (m : main_option num) (skipDefault : bool)
    (value : string) (prev : option (arg_value num)) :
  number_parser m skipDefault value prev
  = (accumulate m (fst (discard_default m skipDefault (prev_or_empty prev)))
                (coerce [KNumber] value),
     snd (discard_default m skipDefault (prev_or_empty prev))).
Proof.
  unfold Options.number_parser.
  destruct (discard_default m skipDefault (prev_or_empty prev)). reflexivity.
Qed.

Lemma string_parser_step (m : main_option num) (skipDefault : bool)
    (value : string) (prev : option (arg_value num)) :
  string_parser m skipDefault value prev
  = (accumulate m (fst (discard_default m skipDefault (prev_or_empty prev)))
                (coerce [KString] value),
     snd (discard_default m skipDefault (prev_or_empty prev))).
Proof.
  unfold Options.string_parser.
  destruct (discard_default m skipDefault (prev_or_empty prev)). reflexivity.
Qed.

Lemma multi_parser_step (m : main_option num) (k1 k2 : kind) (r : list kind)
    (skipDefault : bool) (value : string) (prev : option (arg_value num)) :
  mtype m = k1 :: k2 :: r ->
  accepted (mtype m) value = true ->
  multi_parser m skipDefault value prev
  = (accumulate m (fst (discard_default m skipDefault (prev_or_empty prev)))
                (coerce (mtype m) value),
     snd (discard_default m skipDefault (prev_or_empty prev))).
Proof.
  intros Ht Hacc. unfold Options.multi_parser, Options.coerce.
  unfold Options.accepted in Hacc.
  destruct (discard_default m skipDefault (prev_or_empty prev)) as [p sk].
  assert (Hlen : Nat.eqb (length (mtype m)) 1 = false) by now rewrite Ht.
  rewrite Hlen in *. simpl in *.
  destruct (has KNumber (mtype m) && negb (isNaN (Number value))) eqn:E;
    [reflexivity |].
  rewrite orb_false_r in Hacc. now rewrite Hacc.
Qed.

(** X28.  A repeatable flag drops its default at the first occurrence.
    A repeatable flag with a truthy default whose type set takes every
    option-argument given: the value of the flag is the list of those
    arguments, each coerced, in the order given.  The default is
    discarded at the first of them. *)
Lemma repeatable_flag_discards_default (o : cli_option num) (d : arg_value num)
    (values : list string) :
  multiple o = true ->
  defaultValue o = Some d ->
  truthy d = true ->
  values <> [] ->
  Forall (fun v => accepted (inferred_type o) v = true) values ->
  parse_values o values
  = Some (Ok (Some (AList (map (coerce (inferred_type o)) values)))).
Proof.
  intros Hm Hd Ht Hne Hacc.
  destruct values as [| v vs]; [congruence |].
  assert (Hv : accepted (inferred_type o) v = true) by now inversion Hacc.
  unfold Options.parse_values, main_command_option.
  change (mtype (mainOption o)) with (inferred_type o).
  change (mdefaultValue (mainOption o)) with (defaultValue o).
  assert (Hmd : mdefaultValue (mainOption o) = Some d) by exact Hd.
  assert (Hmm : mmultiple (mainOption o) = true) by exact Hm.
  destruct (inferred_type o) as [| k1 [| k2 r]] eqn:Et.
  - discriminate Hv.
  - destruct k1; try discriminate Hv; cbn [has existsb kind_eqb orb parser
      odefault Options.installed_parser]; rewrite Hd; f_equal.
    + apply (feed_discards_default _ (mainOption o) [KNumber]); auto.
      intros. apply number_parser_step.
    + apply (feed_discards_default _ (mainOption o) [KString]); auto.
      intros. apply string_parser_step.
  - cbn [parser odefault Options.installed_parser]. rewrite Hd. f_equal.
    apply (feed_discards_default _ (mainOption o) (k1 :: k2 :: r)); auto.
    intros skipDefault value prev Hvalue.
    assert (Hmt : mtype (mainOption o) = k1 :: k2 :: r) by exact Et.
    rewrite <- Hmt in Hvalue |- *.
    apply (multi_parser_step (mainOption o) k1 k2 r); assumption.
Qed.

End Parsers.

Lemma repeatable_flag_discards_default_example :
  Options.parse_values dnum decimal_Number decimal_isNaN decimal_isZero
    repeatable_string_flag ["./a.js"; "./b.js"]
  = Some (Ok (Some (AList [AStr "./a.js"; AStr "./b.js"]))).
Proof.
  apply (repeatable_flag_discards_default dnum decimal_Number decimal_isNaN
           decimal_isZero repeatable_string_flag (AList [AStr "./src"]));
    try reflexivity; [discriminate | repeat constructor].
Defined.

(** C4.  A repeatable flag that is a number or a boolean, with a
    default: after [1] the value is [[1]] and the default is gone; the
    argument [abc] is not numeric and is returned alone by line 845,
    without the values before it; the next argument is then appended to
    the characters of that string. *)
Theorem number_or_boolean_flag_loses_values :
  inferred_type number_or_boolean_flag = [KNumber; KBoolean]
  /\ Options.parse_values dnum decimal_Number decimal_isNaN decimal_isZero
       number_or_boolean_flag ["1"]
     = Some (Ok (Some (AList [ANum (Some 1%N)])))
  /\ Options.parse_values dnum decimal_Number decimal_isNaN decimal_isZero
       number_or_boolean_flag ["1"; "abc"]
     = Some (Ok (Some (AStr "abc")))
  /\ Options.parse_values dnum decimal_Number decimal_isNaN decimal_isZero
       number_or_boolean_flag ["1"; "abc"; "2"]
     = Some (Ok (Some (AList [AStr "a"; AStr "b"; AStr "c"; ANum (Some 2%N)]))).
Proof. repeat split; reflexivity. Qed.

Lemma number_or_string_coercion_witness :
  fst (multi_parser dnum decimal_Number decimal_isNaN decimal_isZero
         (mainOption number_or_string_flag) true "8080" None)
  = Ok (ANum (Some 8080%N))
  /\ fst (multi_parser dnum decimal_Number decimal_isNaN decimal_isZero
            (mainOption number_or_string_flag) true "auto" None)
     = Ok (AStr "auto").
Proof.
  split.
  - destruct (number_or_string_coercion dnum decimal_Number decimal_isNaN
                decimal_isZero number_or_string_flag true "8080" None)
      as (_ & _ & H & _); [reflexivity | reflexivity |].
    apply H. reflexivity.
  - destruct (number_or_string_coercion dnum decimal_Number decimal_isNaN
                decimal_isZero number_or_string_flag true "auto" None)
      as (_ & _ & H & _); [reflexivity | reflexivity |].
    apply H. reflexivity.
Defined.

(** *** Flags that take one value, and flags that take none *)

Section SingleValued.

Variable num : Type.
Variable Number : string -> num.
Variable isNaN : num -> bool.
Variable isZero : num -> bool.

Local Abbreviation discard_default := (Options.discard_default num isNaN isZero).
Local Abbreviation number_parser := (Options.number_parser num Number isNaN isZero).
Local Abbreviation string_parser := (Options.string_parser num isNaN isZero).
Local Abbreviation multi_parser := (Options.multi_parser num Number isNaN isZero).
Local Abbreviation feed := (Options.feed num).
Local Abbreviation parse_values := (Options.parse_values num Number isNaN isZero).
Local Abbreviation coerce := (Options.coerce num Number isNaN).

(** A parser whose result depends on the option-argument alone: the
    last argument decides. *)
Lemma feed_keeps_last (f : Options.parser_fn num) (g : string -> arg_value num) :
  (forall skipDefault value prev, fst (f skipDefault value prev) = Ok (g value)) ->
  forall (values : list string) (value : string) (skipDefault : bool)
         (current : option (arg_value num)),
    feed f skipDefault current (values ++ [value]) = Ok (Some (g value)).
Proof.
  intros Hf. induction values as [| v vs IH]; intros value skipDefault current.
  - cbn [app Options.feed]. specialize (Hf skipDefault value current).
    destruct (f skipDefault value current) as [r sk]. cbn [fst] in Hf.
    now subst r.
  - cbn [app Options.feed]. specialize (Hf skipDefault v current).
    destruct (f skipDefault v current) as [r sk]. cbn [fst] in Hf.
    subst r. apply IH.
Qed.

Lemma single_parser_result (m : main_option num) (skipDefault : bool)
    (value : string) (prev : option (arg_value num)) :
  mmultiple m = false ->
  fst (number_parser m skipDefault value prev) = Ok (ANum (Number value))
  /\ fst (string_parser m skipDefault value prev) = Ok (AStr value)
  /\ fst (multi_parser m skipDefault value prev)
     = Ok (if has KNumber (mtype m) && negb (isNaN (Number value))
           then ANum (Number value) else AStr value).
Proof.
  intros Hm.
  unfold Options.number_parser, Options.string_parser, Options.multi_parser,
    Options.accumulate.
  destruct (discard_default m skipDefault (prev_or_empty prev)) as [p sk].
  rewrite Hm.
  repeat split.
  destruct (has KNumber (mtype m) && negb (isNaN (Number value)));
    [reflexivity |].
  destruct (has KString (mtype m)); reflexivity.
Qed.

(** X5.  A flag that is not repeatable keeps its last occurrence.  For a
    flag whose type set has number or string and which is not
    [multiple], the value after any occurrences is the last
    option-argument alone, as a number when the set has number and the
    argument is numeric (or the set is number alone) and as the raw
    string otherwise: earlier occurrences and the default leave no
    trace. *)
Theorem single_valued_flag_keeps_last (o : cli_option num)
    (values : list string) (value : string) :
  multiple o = false ->
  has KNumber (inferred_type o) || has KString (inferred_type o) = true ->
  parse_values o (values ++ [value])
  = Some (Ok (Some (coerce (inferred_type o) value))).
Proof.
  intros Hm Hkinds.
  assert (Hmm : mmultiple (mainOption o) = false) by exact Hm.
  unfold Options.parse_values, main_command_option.
  change (mtype (mainOption o)) with (inferred_type o).
  assert (Hmt : mtype (mainOption o) = inferred_type o) by reflexivity.
  unfold Options.coerce.
  destruct (inferred_type o) as [| k1 [| k2 r]] eqn:Et.
  - discriminate Hkinds.
  - destruct k1; try discriminate Hkinds;
      cbn [has existsb kind_eqb orb andb parser odefault Options.installed_parser
           length Nat.eqb]; f_equal.
    + apply (feed_keeps_last _ (fun v => ANum (Number v))).
      intros. now apply single_parser_result.
    + apply (feed_keeps_last _ (fun v => AStr v)).
      intros. now apply single_parser_result.
  - cbn [parser odefault Options.installed_parser length Nat.eqb orb].
    f_equal.
    apply (feed_keeps_last _
             (fun v => if has KNumber (k1 :: k2 :: r) && negb (isNaN (Number v))
                       then ANum (Number v) else AStr v)).
    intros skipDefault v prev. rewrite <- Hmt.
    now apply single_parser_result.
Qed.

(** X6.  A flag without any value kind.  When the type set inferred for
    a flag is empty (its configs list only the enum literal [false], or
    nothing the compiler knows), [makeOption] adds nothing unless the
    flag declares a negation; with one it adds a hidden option for the
    bare flag, without a value placeholder, parser or default, followed
    by the visible [--no-<name>] option. *)
Theorem flag_without_value_kinds (command : list (command_option num))
    (o : cli_option num) :
  inferred_type o = [] ->
  (declares_negation o = false -> makeOption command o = command)
  /\ (declares_negation o = true ->
      exists text,
        makeOption command o
        = command
          ++ [ {| flags := base_flags o; odescription := str_or (description o) "";
                  parser := NoParser; odefault := None; hidden := true;
                  ohelpLevel := helpLevel o |};
               {| flags := "--no-" +:+ name o; odescription := text;
                  parser := NoParser; odefault := None; hidden := false;
                  ohelpLevel := helpLevel o |} ]).
Proof.
  intros Ht.
  pose proof (negative_option_declared num o) as Hneg.
  pose proof (main_flags num o) as Hflags. rewrite Ht in Hflags.
  cbn [length Nat.ltb Nat.leb andb] in Hflags.
  unfold makeOption, main_command_option, negative_command_option in *.
  change (mtype (mainOption o)) with (inferred_type o). rewrite Ht.
  destruct (negativeOption o) as [n |].
  - destruct Hneg as [Hd Hn]. cbn [flags] in Hn.
    split; [congruence |]. intros _.
    exists (ndescription n). cbn [option_list]. rewrite Hflags, Hn.
    reflexivity.
  - split; [| congruence]. intros _. cbn [option_list]. now rewrite app_nil_r.
Qed.

End SingleValued.

Lemma single_valued_flag_keeps_last_witness :
  Options.parse_values dnum decimal_Number decimal_isNaN decimal_isZero
    number_or_string_flag (["80"; "auto"] ++ ["8080"])
  = Some (Ok (Some (ANum (Some 8080%N)))).
Proof.
  apply (single_valued_flag_keeps_last dnum decimal_Number decimal_isNaN
           decimal_isZero number_or_string_flag ["80"; "auto"] "8080");
    reflexivity.
Defined.

Lemma flag_without_value_kinds_witness :
  exists text,
    makeOption [] Cases.amd_flag
    = [ {| flags := "--amd";
           odescription := "Set the value of `require.amd` and `define.amd`.";
           parser := NoParser; odefault := None; hidden := true;
           ohelpLevel := Some "verbose" |};
        {| flags := "--no-amd"; odescription := text;
           parser := NoParser; odefault := None; hidden := false;
           ohelpLevel := Some "verbose" |} ].
Proof.
  destruct (flag_without_value_kinds dnum [] Cases.amd_flag) as [_ H];
    [reflexivity |].
  apply H. reflexivity.
Defined.

End OptionsFacts.

(** ** The command registry *)

Module CommandsFacts.
Import JsString Commands.

Section Registry.

Variable num : Type.
Variable checkPackageExists : string -> bool.
Variable doInstall : string -> result unit.
Variable WEBPACK_PACKAGE : string.
Variable WEBPACK_PACKAGE_IS_CUSTOM : bool.
Variable WEBPACK_DEV_SERVER_PACKAGE : string.
Variable WEBPACK_DEV_SERVER_PACKAGE_IS_CUSTOM : bool.
Variable commander_accepts :
  list (command num) -> string -> list string -> result unit.

Local Abbreviation makeCommand :=
  (Commands.makeCommand num checkPackageExists doInstall WEBPACK_PACKAGE
     WEBPACK_PACKAGE_IS_CUSTOM WEBPACK_DEV_SERVER_PACKAGE
     WEBPACK_DEV_SERVER_PACKAGE_IS_CUSTOM commander_accepts).

Lemma alreadyLoaded_found (p : program num) (s : command_spec) (c : command num) :
  In c (commands p) ->
  String.eqb (cname c) (first_word (sname s))
  || aliases_include (caliases c) (salias s) = true ->
  exists c', alreadyLoaded p s = Some c'.
Proof.
  intros Hin Hc. unfold alreadyLoaded.
  destruct (find _ (commands p)) as [c' |] eqn:E; [eauto |].
  pose proof (find_none _ _ E c Hin) as H. simpl in H. congruence.
Qed.

Lemma makeCommand_after_append (cs : list (command num)) (fh : bool)
    (c : command num) (s : command_spec) (options : options_provider num)
    (action : nat) :
  cname c = first_word (sname s) ->
  makeCommand {| commands := cs ++ [c]; forHelp := fh |} s options action
  = Ok {| commands := cs ++ [c]; forHelp := fh |}.
Proof.
  intros Hc.
  destruct (alreadyLoaded_found {| commands := cs ++ [c]; forHelp := fh |} s c)
    as [c' Hc'].
  - simpl. apply in_or_app. right. left. reflexivity.
  - rewrite Hc, String.eqb_refl. reflexivity.
  - unfold Commands.makeCommand. now rewrite Hc'.
Qed.

(** C9.  Registration leaves the program as it is when a
    registered command has the primary name of the specification, or has
    among its aliases the alias of the specification given as a single
    string; and registering a specification again after it was
    registered changes nothing. *)
Theorem makeCommand_again_is_noop (p : program num) (s : command_spec)
    (options options' : options_provider num) (action action' : nat) :
  (forall c, In c (commands p) ->
             cname c = first_word (sname s)
             \/ (exists a, salias s = AliasOne a /\ In a (caliases c)) ->
             makeCommand p s options action = Ok p)
  /\ (forall p1, makeCommand p s options action = Ok p1 ->
                 makeCommand p1 s options' action' = Ok p1).
Proof.
  split.
  - intros c Hin Hc.
    destruct (alreadyLoaded_found p s c Hin) as [c' Hc'].
    + destruct Hc as [Hname | (a & Ha & Hina)].
      * rewrite Hname, String.eqb_refl. reflexivity.
      * rewrite Ha. simpl. apply orb_true_iff. right.
        apply existsb_exists. exists a. split; [exact Hina |].
        apply String.eqb_refl.
    + unfold Commands.makeCommand. now rewrite Hc'.
  - intros p1 H. unfold Commands.makeCommand in H.
    destruct (alreadyLoaded p s) as [c |] eqn:E.
    + inversion H; subst p1. unfold Commands.makeCommand. now rewrite E.
    + destruct (commander_accepts _ _ _); [| discriminate].
      unfold register_command in H.
      destruct (check_dependencies _ _ _ _ _ _ _ _ _) as [ok | e];
        [| discriminate].
      injection H as Hp1. subst p1.
      apply makeCommand_after_append. reflexivity.
Qed.

(** When no registered command is found by the check, the result is
    never the program as it was: commander throws, or an installation
    fails, or the new command is added. *)
Lemma makeCommand_not_loaded (p : program num) (s : command_spec)
    (options : options_provider num) (action : nat) :
  alreadyLoaded p s = None ->
  makeCommand p s options action <> Ok p.
Proof.
  intros Hnone H. unfold Commands.makeCommand in H. rewrite Hnone in H.
  destruct (commander_accepts _ _ _); [| discriminate].
  unfold register_command in H.
  destruct (check_dependencies _ _ _ _ _ _ _ _ _) as [ok | e]; [| discriminate].
  injection H as Hp. apply (f_equal (fun p => length (commands p))) in Hp.
  simpl in Hp. rewrite length_app in Hp. simpl in Hp. lia.
Qed.

End Registry.

Import Scenarios.

Lemma makeCommand_again_is_noop_witness :
  makeCommand_here {| commands := [build_command]; forHelp := false |}
    buildCommandOptions NoOptions 1
  = Ok {| commands := [build_command]; forHelp := false |}.
Proof.
  destruct (makeCommand_again_is_noop dnum (fun _ => true) (fun _ => Ok tt)
              "webpack" false "webpack-dev-server" false (fun _ _ _ => Ok tt)
              {| commands := [build_command]; forHelp := false |}
              buildCommandOptions NoOptions NoOptions 1 1) as [H _].
  apply (H build_command); left; reflexivity.
Defined.

(** After [build] is registered with the aliases [bundle] and [b], a
    specification whose primary name is [b], and one whose alias list
    holds [b], each share a name with it; neither is found by the check,
    and whatever commander then does with the clash, the outcome is not
    the program as it was.  Where commander lets them in, each becomes a
    new command. *)
Lemma makeCommand_shared_name_registers :
  makeCommand_here empty_program buildCommandOptions NoOptions 0
  = Ok {| commands := [build_command]; forHelp := false |}
  /\ shares_a_name command_named_b build_command = true
  /\ shares_a_name command_aliased_b build_command = true
  /\ (forall commander_accepts (s : command_spec),
        s = command_named_b \/ s = command_aliased_b ->
        makeCommand dnum (fun _ => true) (fun _ => Ok tt) "webpack" false
          "webpack-dev-server" false commander_accepts
          {| commands := [build_command]; forHelp := false |} s NoOptions 1
        <> Ok {| commands := [build_command]; forHelp := false |})
  /\ match makeCommand_here {| commands := [build_command]; forHelp := false |}
             command_named_b NoOptions 1 with
     | Ok p => map (fun c => (cname c, caliases c)) (commands p)
     | Err _ => []
     end = [("build", ["bundle"; "b"]); ("b", [])]
  /\ match makeCommand_here {| commands := [build_command]; forHelp := false |}
             command_aliased_b NoOptions 1 with
     | Ok p => map (fun c => (cname c, caliases c)) (commands p)
     | Err _ => []
     end = [("build", ["bundle"; "b"]); ("bench", ["b"])].
Proof.
  repeat split; try reflexivity.
  intros commander_accepts s [-> | ->]; apply makeCommand_not_loaded; reflexivity.
Qed.

(** *** Dependencies of a command *)

Section Dependencies.

Variable num : Type.
Variable checkPackageExists : string -> bool.
Variable WEBPACK_PACKAGE : string.
Variable WEBPACK_PACKAGE_IS_CUSTOM : bool.
Variable WEBPACK_DEV_SERVER_PACKAGE : string.
Variable WEBPACK_DEV_SERVER_PACKAGE_IS_CUSTOM : bool.
Variable commander_accepts :
  list (command num) -> string -> list string -> result unit.

Local Abbreviation check_dependencies doInstall :=
  (Commands.check_dependencies checkPackageExists doInstall WEBPACK_PACKAGE
     WEBPACK_PACKAGE_IS_CUSTOM WEBPACK_DEV_SERVER_PACKAGE
     WEBPACK_DEV_SERVER_PACKAGE_IS_CUSTOM).

Local Abbreviation makeCommand doInstall :=
  (Commands.makeCommand num checkPackageExists doInstall WEBPACK_PACKAGE
     WEBPACK_PACKAGE_IS_CUSTOM WEBPACK_DEV_SERVER_PACKAGE
     WEBPACK_DEV_SERVER_PACKAGE_IS_CUSTOM commander_accepts).

(** The dependency is found, or it is one of the two packages given by
    a path of the user's own. *)
Local Abbreviation found_or_custom d :=
  (checkPackageExists d
   || (String.eqb d WEBPACK_PACKAGE && WEBPACK_PACKAGE_IS_CUSTOM)
   || (String.eqb d WEBPACK_DEV_SERVER_PACKAGE
       && WEBPACK_DEV_SERVER_PACKAGE_IS_CUSTOM)).

Lemma check_dependencies_without_install (doInstall : string -> result unit)
    (forHelp_ : bool) (deps : list string) :
  forHelp_ = true \/ (forall d, In d deps -> found_or_custom d = true) ->
  forall allDependenciesInstalled : bool,
    check_dependencies doInstall forHelp_ deps allDependenciesInstalled
    = Ok (allDependenciesInstalled
          && (negb forHelp_ || forallb checkPackageExists deps)).
Proof.
  intros Hcase. induction deps as [| d rest IH]; intros b.
  - cbn. now rewrite orb_true_r, andb_true_r.
  - assert (Hrest : forHelp_ = true
                    \/ (forall d, In d rest -> found_or_custom d = true)).
    { destruct Hcase as [Hh | Hall]; [now left | right].
      intros d' Hd'. apply Hall. now right. }
    specialize (IH Hrest).
    cbn [Commands.check_dependencies forallb].
    destruct (checkPackageExists d) eqn:Hd.
    + rewrite IH. reflexivity.
    + destruct forHelp_.
      * rewrite IH. cbn. now rewrite andb_false_r.
      * destruct Hcase as [Hh | Hall]; [discriminate |].
        specialize (Hall d (or_introl eq_refl)). rewrite Hd in Hall.
        cbn [orb] in Hall. rewrite Hall, IH. cbn. reflexivity.
Qed.

(** X7.  When the installer is consulted.  In help mode, and whenever
    every dependency of the command is found or is one of the two
    packages given by a custom path ([WEBPACK_PACKAGE],
    [WEBPACK_DEV_SERVER_PACKAGE]), the outcome of [makeCommand] is the
    same whatever [doInstall] would do: it is not called, so nothing is
    installed and the process cannot end there. *)
Theorem makeCommand_without_install (doInstall1 doInstall2 : string -> result unit)
    (p : program num) (s : command_spec) (options : options_provider num)
    (action : nat) :
  forHelp p = true
  \/ (forall d, In d (match sdependencies s with Some l => l | None => [] end) ->
                found_or_custom d = true) ->
  makeCommand doInstall1 p s options action
  = makeCommand doInstall2 p s options action.
Proof.
  intros Hcase. unfold Commands.makeCommand, Commands.register_command.
  rewrite (check_dependencies_without_install doInstall1 _ _ Hcase).
  rewrite (check_dependencies_without_install doInstall2 _ _ Hcase).
  reflexivity.
Qed.

(** X8.  Help for a command whose dependency is missing.  In help mode,
    a command that names dependencies of which one is not found, and
    whose options come from a function, is registered without calling
    that function: the command has no options, and its description is
    the given one followed by the list of all its dependencies to
    install. *)
Theorem help_withholds_options (doInstall : string -> result unit)
    (p : program num) (s : command_spec) (deps : list string)
    (l : list (Options.cli_option num)) (action : nat) :
  forHelp p = true ->
  alreadyLoaded p s = None ->
  commander_accepts (commands p) (first_word (sname s))
    (registered_aliases (salias s)) = Ok tt ->
  sdependencies s = Some deps ->
  (exists d, In d deps /\ checkPackageExists d = false) ->
  exists c,
    makeCommand doInstall p s (Deferred l) action
    = Ok {| commands := commands p ++ [c]; forHelp := true |}
    /\ cname c = first_word (sname s)
    /\ coptions c = []
    /\ cdescription num c
       = description_text s
         +:+ " To see all available options you need to install "
         +:+ join_quoted deps +:+ ".".
Proof.
  intros Hhelp Hnew Hacc Hdeps (d & Hin & Hd).
  unfold Commands.makeCommand, Commands.register_command.
  rewrite Hnew, Hacc, Hdeps, Hhelp.
  rewrite (check_dependencies_without_install doInstall true deps
             (or_introl eq_refl)).
  assert (Hall : forallb checkPackageExists deps = false).
  { destruct (forallb checkPackageExists deps) eqn:E; [| reflexivity].
    rewrite forallb_forall in E. rewrite (E d Hin) in Hd. discriminate Hd. }
  rewrite Hall. cbn [negb orb andb].
  eexists. split; [reflexivity |].
  cbn. repeat split.
Qed.

End Dependencies.

Lemma makeCommand_without_install_witness :
  makeCommand dnum (fun _ => false) (fun _ => Err TypeError) "webpack" false
    "webpack-dev-server" false (fun _ _ _ => Ok tt)
    {| commands := []; forHelp := true |} buildCommandOptions
    (Deferred [mode_option]) 0
  = makeCommand dnum (fun _ => false) (fun _ => Ok tt) "webpack" false
      "webpack-dev-server" false (fun _ _ _ => Ok tt)
      {| commands := []; forHelp := true |} buildCommandOptions
      (Deferred [mode_option]) 0.
Proof.
  apply (makeCommand_without_install dnum (fun _ => false) "webpack" false
           "webpack-dev-server" false (fun _ _ _ => Ok tt)
           (fun _ => Err TypeError) (fun _ => Ok tt)
           {| commands := []; forHelp := true |} buildCommandOptions
           (Deferred [mode_option]) 0).
  left. reflexivity.
Defined.

Lemma help_withholds_options_witness :
  exists c,
    makeCommand dnum (fun _ => false) (fun _ => Err TypeError) "webpack" false
      "webpack-dev-server" false (fun _ _ _ => Ok tt)
      {| commands := []; forHelp := true |} buildCommandOptions
      (Deferred [mode_option]) 0
    = Ok {| commands := [] ++ [c]; forHelp := true |}
    /\ cname c = "build"
    /\ coptions c = []
    /\ cdescription dnum c
       = "Run webpack (default command, can be omitted)."
         +:+ " To see all available options you need to install "
         +:+ "'webpack'" +:+ ".".
Proof.
  apply (help_withholds_options dnum (fun _ => false) "webpack" false
           "webpack-dev-server" false (fun _ _ _ => Ok tt)
           (fun _ => Err TypeError)
           {| commands := []; forHelp := true |} buildCommandOptions
           ["webpack"] [mode_option] 0); try reflexivity.
  exists "webpack". split; [left |]; reflexivity.
Defined.

End CommandsFacts.

(** ** Applying the CLI values *)

Module ReconcileFacts.
Import Reconcile.

Section Reconciler.

Variable num : Type.
Variable cli_value : Type.
Variable configuration : Type.
Variable processArguments :
  gmap string (Options.cli_option num) -> configuration -> gmap string cli_value ->
  configuration * option (list Problem).

Local Abbreviation core_args := (Reconcile.core_args num).
Local Abbreviation cli_values := (Reconcile.cli_values num cli_value).
Local Abbreviation apply_options :=
  (Reconcile.apply_options num cli_value configuration processArguments).

(** Every key of [args] is the name of a built-in option of the group
    [core]. *)
Lemma core_args_from (l : list (Options.cli_option num)) :
  forall (acc : gmap string (Options.cli_option num)) (k : string),
    is_Some (fold_left
               (fun accumulator flag =>
                  match Options.group flag with
                  | Some g => if String.eqb g "core"
                              then <[Options.name flag := flag]> accumulator
                              else accumulator
                  | None => accumulator
                  end) l acc !! k) ->
    is_Some (acc !! k)
    \/ exists flag, In flag l /\ Options.group flag = Some "core"
                    /\ Options.name flag = k.
Proof.
  induction l as [| flag l IH]; intros acc k H; simpl in H.
  - now left.
  - destruct (IH _ _ H) as [Hacc | (f & Hin & Hgroup & Hname)].
    + destruct (Options.group flag) as [g |] eqn:Eg; [| now left].
      destruct (String.eqb g "core") eqn:Ecore; [| now left].
      apply String.eqb_eq in Ecore. subst g.
      destruct (decide (Options.name flag = k)) as [Heq | Hne].
      * right. exists flag. split; [now left | split; assumption].
      * rewrite lookup_insert_ne in Hacc by exact Hne. now left.
    + right. exists f. split; [now right | split; assumption].
Qed.

Lemma core_args_unknown (builtInOptions : list (Options.cli_option num))
    (k : string) :
  (forall flag, In flag builtInOptions -> Options.group flag = Some "core" ->
                Options.name flag <> k) ->
  core_args builtInOptions !! k = None.
Proof.
  intros Hno. destruct (core_args builtInOptions !! k) as [f |] eqn:E; [| reflexivity].
  destruct (core_args_from builtInOptions ∅ k)
    as [Hacc | (flag & Hin & Hgroup & Hname)].
  - unfold Reconcile.core_args in E. rewrite E. eauto.
  - rewrite lookup_empty in Hacc. destruct Hacc as [? Hacc]. discriminate.
  - exfalso. exact (Hno flag Hin Hgroup Hname).
Qed.

(** Every key of [values] is a key of [args]. *)
Lemma cli_values_keys (args : gmap string (Options.cli_option num))
    (options : list (string * cli_value)) :
  forall (acc : gmap string cli_value) (k : string),
    args !! k = None ->
    acc !! k = None ->
    fold_left
      (fun accumulator '(name, v) =>
         if String.eqb name "argv" then accumulator
         else
           match args !! toKebabCase name with
           | Some _ => <[toKebabCase name := v]> accumulator
           | None => accumulator
           end) options acc !! k = None.
Proof.
  induction options as [| [name v] options IH]; intros acc k Hargs Hacc; simpl.
  - exact Hacc.
  - apply IH; [exact Hargs |].
    destruct (String.eqb name "argv"); [exact Hacc |].
    destruct (args !! toKebabCase name) eqn:E; [| exact Hacc].
    rewrite lookup_insert_ne; [exact Hacc |].
    intros Heq. rewrite Heq in E. congruence.
Qed.

Lemma cli_values_skip (args : gmap string (Options.cli_option num))
    (before after : list (string * cli_value)) (name : string) (v : cli_value) :
  args !! toKebabCase name = None ->
  cli_values args (before ++ (name, v) :: after) = cli_values args (before ++ after).
Proof.
  intros Hargs. unfold Reconcile.cli_values.
  rewrite !fold_left_app. simpl. rewrite Hargs.
  destruct (String.eqb name "argv"); reflexivity.
Qed.

(** C6.  A CLI value whose kebab-cased name is the name of no built-in
    flag (it is enough that no built-in flag of the group [core] has
    it) never reaches the argument processor: the values handed to it,
    and so the configuration and the problems that come back, are those
    of the same command line without that value; no value is recorded
    under that name; and alone on the command line it leaves the
    configuration as it is, the processor not being called. *)
Theorem unknown_name_is_filtered
    (builtInOptions : list (Options.cli_option num))
    (before after : list (string * cli_value)) (name : string) (v : cli_value)
    (item : configuration) :
  (forall flag, In flag builtInOptions -> Options.group flag = Some "core" ->
                Options.name flag <> toKebabCase name) ->
  cli_values (core_args builtInOptions) (before ++ (name, v) :: after)
  = cli_values (core_args builtInOptions) (before ++ after)
  /\ cli_values (core_args builtInOptions) (before ++ (name, v) :: after)
     !! toKebabCase name = None
  /\ apply_options builtInOptions (before ++ (name, v) :: after) item
     = apply_options builtInOptions (before ++ after) item
  /\ apply_options builtInOptions [(name, v)] item = inl item.
Proof.
  intros Hno.
  pose proof (core_args_unknown builtInOptions _ Hno) as Hargs.
  pose proof (cli_values_skip _ before after name v Hargs) as Hskip.
  repeat split.
  - exact Hskip.
  - unfold Reconcile.cli_values. apply cli_values_keys; [exact Hargs |].
    apply lookup_empty.
  - unfold Reconcile.apply_options. now rewrite Hskip.
  - unfold Reconcile.apply_options.
    pose proof (cli_values_skip _ [] [] name v Hargs) as H0. simpl in H0.
    rewrite H0. unfold Reconcile.cli_values. simpl.
    destruct (decide (∅ = ∅)); [reflexivity | congruence].
Qed.

End Reconciler.

Import Scenarios.

Lemma unknown_name_is_filtered_witness :
  Reconcile.apply_options dnum string (list (string * string)) accept_all
    [mode_option; progress_flag]
    ([("mode", "development")] ++ ("fooBar", "1") :: [])
    [("entry", "./a.js")]
  = Reconcile.apply_options dnum string (list (string * string)) accept_all
      [mode_option; progress_flag]
      ([("mode", "development")] ++ [])
      [("entry", "./a.js")].
Proof.
  destruct (unknown_name_is_filtered dnum string (list (string * string))
              accept_all [mode_option; progress_flag]
              [("mode", "development")] [] "fooBar" "1" [("entry", "./a.js")])
    as (_ & _ & H & _).
  - intros flag [<- | [<- | []]] _; vm_compute; discriminate.
  - exact H.
Defined.

(** *** Kebab-case names *)

Lemma to_lower_not_upper (c : ascii) : is_upper (to_lower c) = false.
Proof. destruct c as [[] [] [] [] [] [] [] []]; reflexivity. Qed.

Lemma to_lower_fixes (c : ascii) : is_upper c = false -> to_lower c = c.
Proof. intros H. unfold to_lower. now rewrite H. Qed.

Lemma kebab_from_lower (s : string) :
  forall b : bool,
    Text.all_chars (fun c => negb (is_upper c)) (kebab_from b s) = true.
Proof.
  induction s as [| c s IH]; intros b; [reflexivity |].
  cbn [kebab_from]. destruct (b && is_upper c).
  - cbn [Text.all_chars]. rewrite to_lower_not_upper, IH. reflexivity.
  - cbn [Text.all_chars]. rewrite to_lower_not_upper, IH. reflexivity.
Qed.

Lemma kebab_from_fixes_lower (s : string) :
  forall b : bool,
    Text.all_chars (fun c => negb (is_upper c)) s = true -> kebab_from b s = s.
Proof.
  induction s as [| c s IH]; intros b H; [reflexivity |].
  cbn [Text.all_chars] in H. apply andb_true_iff in H as [Hc Hs].
  apply negb_true_iff in Hc.
  cbn [kebab_from]. rewrite Hc, andb_false_r, (to_lower_fixes _ Hc), (IH _ Hs).
  reflexivity.
Qed.

(** X17.  [toKebabCase] is idempotent.  Its result holds no ASCII
    capital letter, and converting a converted name again changes
    nothing: a name that is already in kebab case is looked up as it
    is. *)
Theorem toKebabCase_idempotent (str : string) :
  Text.all_chars (fun c => negb (is_upper c)) (toKebabCase str) = true
  /\ toKebabCase (toKebabCase str) = toKebabCase str.
Proof.
  split.
  - apply kebab_from_lower.
  - unfold toKebabCase at 1. apply kebab_from_fixes_lower, kebab_from_lower.
Qed.

(** *** Where the values given to webpack come from *)

Section Values.

Variable num : Type.
Variable cli_value : Type.

Local Abbreviation core_args := (Reconcile.core_args num).
Local Abbreviation cli_values := (Reconcile.cli_values num cli_value).

Lemma cli_values_from (args : gmap string (Options.cli_option num))
    (options : list (string * cli_value)) (k : string) (v : cli_value) :
  forall acc : gmap string cli_value,
    fold_left
      (fun accumulator '(name, v) =>
         if String.eqb name "argv" then accumulator
         else
           match args !! toKebabCase name with
           | Some _ => <[toKebabCase name := v]> accumulator
           | None => accumulator
           end) options acc !! k = Some v ->
    acc !! k = Some v
    \/ (is_Some (args !! k)
        /\ exists name, In (name, v) options /\ name <> "argv"
                        /\ toKebabCase name = k).
Proof.
  induction options as [| [name w] options IH]; intros acc H; [now left |].
  cbn [fold_left] in H. apply IH in H as [H | (Hargs & n & Hin & Hn & Hk)].
  - destruct (String.eqb name "argv") eqn:Eargv; [now left |].
    destruct (args !! toKebabCase name) as [flag |] eqn:Eflag; [| now left].
    destruct (decide (toKebabCase name = k)) as [Hk | Hk].
    + subst k. rewrite lookup_insert_eq in H. inversion H; subst w.
      right. split; [now rewrite Eflag |].
      exists name. split; [now left |]. split; [| reflexivity].
      intros ->. discriminate Eargv.
    + rewrite lookup_insert_ne in H by exact Hk. now left.
  - right. split; [exact Hargs |]. exists n. split; [now right |]. now split.
Qed.

(** X18.  What webpack's argument processor is given.  Every value in
    the table handed to [processArguments] stands under the name of a
    flag of the group [core], and is the value of a parsed option, other
    than [argv], whose name in kebab case is that name: the CLI passes on
    nothing of its own making. *)
Theorem cli_values_are_core_flags
    (builtInOptions : list (Options.cli_option num))
    (options : list (string * cli_value)) (k : string) (v : cli_value) :
  cli_values (core_args builtInOptions) options !! k = Some v ->
  (exists flag, In flag builtInOptions /\ Options.group flag = Some "core"
                /\ Options.name flag = k)
  /\ (exists name, In (name, v) options /\ name <> "argv"
                   /\ toKebabCase name = k).
Proof.
  intros H. unfold Reconcile.cli_values in H.
  apply cli_values_from in H as [H | [Hargs Hname]].
  - rewrite lookup_empty in H. discriminate H.
  - split; [| exact Hname].
    unfold Reconcile.core_args in Hargs.
    apply core_args_from in Hargs as [Hempty | Hflag]; [| exact Hflag].
    rewrite lookup_empty in Hempty. destruct Hempty as [x Hx]. discriminate Hx.
Qed.

End Values.

Lemma cli_values_are_core_flags_witness :
  (exists flag, In flag [mode_option; progress_flag]
                /\ Options.group flag = Some "core" /\ Options.name flag = "mode")
  /\ (exists name, In (name, "development")
                      [("argv", "x"); ("mode", "development"); ("fooBar", "1")]
                   /\ name <> "argv" /\ toKebabCase name = "mode").
Proof.
  apply (cli_values_are_core_flags dnum string [mode_option; progress_flag]
           [("argv", "x"); ("mode", "development"); ("fooBar", "1")]
           "mode" "development").
  vm_compute. reflexivity.
Defined.

End ReconcileFacts.

(** ** The configuration loader *)

Module LoaderFacts.
Import Config Loader.

(** Unfold the operations of the monad [M] down to states. *)
Ltac run_monad :=
  repeat (progress (unfold mbind, M_bind, new_obj, fresh, path_get, path_set,
                      mret, M_ret, exit, lift; cbn beta)).

Lemma bind_return {A B : Type} (m : M A) (f : A -> M B) (s s' : state) (a : A) :
  m s = Return a s' -> (m ≫= f) s = f a s'.
Proof. intros H. unfold mbind, M_bind. now rewrite H. Qed.

Lemma bind_exit {A B : Type} (m : M A) (f : A -> M B) (s : state) (e : error) :
  m s = Exit e -> (m ≫= f) s = Exit e.
Proof. intros H. unfold mbind, M_bind. now rewrite H. Qed.

Lemma new_obj_run (o : fields) (s : state) :
  new_obj o s
  = Return {| oid := next_id s; props := o |}
           {| next_id := S (next_id s); ledger := ledger s |}.
Proof. reflexivity. Qed.

Lemma mapM_new_obj (items : list fields) :
  forall s : state,
    exists cs s',
      mapM new_obj items s = Return cs s'
      /\ ledger s' = ledger s
      /\ map props cs = items.
Proof.
  induction items as [| o items IH]; intros s.
  - exists [], s. repeat split.
  - destruct (IH {| next_id := S (next_id s); ledger := ledger s |})
      as (cs & s' & Hrun & Hledger & Hprops).
    exists ({| oid := next_id s; props := o |} :: cs), s'.
    split; [| split].
    + cbn [mapM]. rewrite (bind_return _ _ _ _ _ (new_obj_run o s)).
      rewrite (bind_return _ _ _ _ _ Hrun). reflexivity.
    + exact Hledger.
    + simpl. now rewrite Hprops.
Qed.

Section Files.

Variable resolve : string -> string.
Variable load_module : string -> option module_export.

Local Abbreviation loadConfigByPath := (Loader.loadConfigByPath load_module).
Local Abbreviation load_all := (Loader.load_all resolve load_module).
Local Abbreviation load_contents := (Loader.load_contents resolve load_module).
Local Abbreviation resolveExtends := (Loader.resolveExtends resolve load_module).
Local Abbreviation NamesRecorded := (Loader.NamesRecorded resolve load_module).

(** Loading a file makes new objects and leaves the ledger alone. *)
Lemma loadConfigByPath_outcome (configPath : string) (s : state) :
  match loadConfigByPath configPath s with
  | Return l s' =>
      ledger s' = ledger s
      /\ lpath l = configPath
      /\ exists m, load_module configPath = Some m
                   /\ contents_of m = Some (map props (set_items (loptions l)))
  | Exit _ => load_module configPath = None
              \/ load_module configPath = Some MOther
  | OutOfFuel => False
  end.
Proof.
  unfold Loader.loadConfigByPath.
  destruct (load_module configPath) as [[o | items |] |] eqn:E.
  - rewrite (bind_return _ _ _ _ _ (new_obj_run o s)). cbn.
    repeat split. exists (MObject o). split; reflexivity.
  - destruct (mapM_new_obj items {| next_id := S (next_id s); ledger := ledger s |})
      as (cs & s' & Hrun & Hledger & Hprops).
    assert (Hfresh : fresh s = Return (next_id s)
                       {| next_id := S (next_id s); ledger := ledger s |})
      by reflexivity.
    rewrite (bind_return _ _ _ _ _ Hfresh).
    rewrite (bind_return _ _ _ _ _ Hrun). cbn.
    repeat split; [exact Hledger |].
    exists (MArray items). split; [reflexivity |]. cbn. now rewrite Hprops.
  - cbn. now right.
  - cbn. now left.
Qed.

Lemma load_all_outcome (paths : list string) :
  forall s : state,
    match load_all paths s with
    | Return lcs s' =>
        ledger s' = ledger s
        /\ map lpath lcs = map resolve paths
        /\ load_contents paths
           = Some (map props (flat_map (fun l => set_items (loptions l)) lcs))
    | Exit _ => load_contents paths = None
    | OutOfFuel => False
    end.
Proof.
  induction paths as [| p paths IH]; intros s.
  - cbn. repeat split.
  - unfold Loader.load_all. cbn [mapM].
    pose proof (loadConfigByPath_outcome (resolve p) s) as Hp.
    destruct (loadConfigByPath (resolve p) s) as [l s1 | e |] eqn:E1.
    + rewrite (bind_return _ _ _ _ _ E1).
      destruct Hp as (Hl1 & Hpath & m & Hm & Hc).
      specialize (IH s1). unfold Loader.load_all in IH.
      destruct (mapM (fun p0 => loadConfigByPath (resolve p0)) paths s1)
        as [lcs s2 | e |] eqn:E2.
      * rewrite (bind_return _ _ _ _ _ E2). cbn.
        destruct IH as (Hl2 & Hpaths & Hcs).
        repeat split.
        -- now rewrite Hl2.
        -- now rewrite Hpath, Hpaths.
        -- rewrite Hm, Hc, Hcs. now rewrite map_app.
      * rewrite (bind_exit _ _ _ _ E2). cbn.
        rewrite Hm, IH. now destruct (contents_of m).
      * destruct IH.
    + rewrite (bind_exit _ _ _ _ E1). cbn.
      destruct Hp as [Hp | Hp]; now rewrite Hp.
    + destruct Hp.
Qed.

Lemma get_delete_key (k : string) (o : fields) : get k (delete_key k o) = None.
Proof.
  induction o as [| [k' v] o IH]; [reflexivity |].
  unfold delete_key in *. cbn.
  destruct (String.eqb k k') eqn:E; cbn; [exact IH |].
  now rewrite E.
Qed.

Lemma extends_of_deleted (o : fields) : extends_of (delete_key "extends" o) = None.
Proof. unfold extends_of. now rewrite get_delete_key. Qed.

(** One call of [resolveExtends], step by step. *)
Lemma resolveExtends_step (fuel : nat) (config : obj) (extendsPaths : list string)
    (s : state) :
  resolveExtends (S fuel) config extendsPaths s
  = match load_all extendsPaths s with
    | Return lcs s1 =>
        let continue_ (c : obj) (st : state) :=
          match extends_of (props c) with
          | Some e =>
              match extends_paths e with
              | Ok next => resolveExtends fuel c next st
              | Err er => Exit er
              end
          | None => Return c st
          end in
        match flat_map (fun l => set_items (loptions l)) lcs with
        | [] => continue_ (delete_extends config) s1
        | first :: others =>
            let merged :=
              {| oid := next_id s1;
                 props := merge_all (props first)
                            (map props others
                             ++ [delete_key "extends" (props config)]) |} in
            match ledger s1 !! oid config with
            | Some prevPaths =>
                if intersects (map lpath lcs) prevPaths
                then Exit RecursiveConfiguration
                else continue_ merged
                       {| next_id := S (next_id s1);
                          ledger := <[next_id s1 := prevPaths ++ map lpath lcs]>
                                      (ledger s1) |}
            | None =>
                continue_ merged
                  {| next_id := S (next_id s1); ledger := ledger s1 |}
            end
        end
    | Exit e => Exit e
    | OutOfFuel => OutOfFuel
    end.
Proof.
  cbn [Loader.resolveExtends]. run_monad.
  destruct (load_all extendsPaths s) as [lcs s1 | e |]; [| reflexivity ..].
  cbn zeta.
  destruct (flat_map (fun l => set_items (loptions l)) lcs) as [| first others].
  - cbn. destruct (extends_of _) as [e |]; [| reflexivity].
    destruct (extends_paths e); reflexivity.
  - cbn. destruct (ledger s1 !! oid config) as [prevPaths |].
    + destruct (intersects (map lpath lcs) prevPaths); [reflexivity |].
      cbn. destruct (extends_of _) as [e |]; [| reflexivity].
      destruct (extends_paths e); reflexivity.
    + cbn. destruct (extends_of _) as [e |]; [| reflexivity].
      destruct (extends_paths e); reflexivity.
Qed.

Lemma map_eq_cons_inv {A B : Type} (f : A -> B) (l : list A) (y : B) (ys : list B) :
  map f l = y :: ys -> exists x xs, l = x :: xs /\ f x = y /\ map f xs = ys.
Proof.
  destruct l as [| x xs]; [discriminate |].
  intros H. inversion H. eauto.
Qed.


(** *** Termination *)

Lemma filter_length_le {A : Type} (f g : A -> bool) (l : list A) :
  (forall x, g x = true -> f x = true) ->
  length (List.filter g l) <= length (List.filter f l).
Proof.
  intros Hgf. induction l as [| a l IH]; simpl; [lia |].
  destruct (g a) eqn:Eg.
  - rewrite (Hgf a Eg). simpl. lia.
  - destruct (f a); simpl; lia.
Qed.

Lemma filter_length_lt {A : Type} (f g : A -> bool) (l : list A) (x : A) :
  (forall y, g y = true -> f y = true) ->
  In x l -> f x = true -> g x = false ->
  length (List.filter g l) < length (List.filter f l).
Proof.
  intros Hgf Hin Hf Hg. induction l as [| a l IH]; [destruct Hin |].
  simpl. destruct Hin as [-> | Hin].
  - rewrite Hf, Hg. simpl. pose proof (filter_length_le f g l Hgf). lia.
  - specialize (IH Hin). destruct (g a) eqn:Eg.
    + rewrite (Hgf a Eg). simpl. lia.
    + destruct (f a); simpl; lia.
Qed.

Lemma unrecorded_shrinks (files recorded loadedPaths : list string) (x : string) :
  In x files ->
  In x loadedPaths ->
  intersects loadedPaths recorded = false ->
  length (unrecorded files (recorded ++ loadedPaths))
  < length (unrecorded files recorded).
Proof.
  intros Hfiles Hloaded Hinter. unfold unrecorded.
  apply (filter_length_lt _ _ files x).
  - intros y Hy. rewrite existsb_app in Hy.
    destruct (existsb (String.eqb y) recorded); [discriminate | reflexivity].
  - exact Hfiles.
  - unfold intersects in Hinter.
    destruct (existsb (String.eqb x) recorded) eqn:E; [| reflexivity].
    exfalso. assert (Hex : existsb (fun element => existsb (String.eqb element) recorded)
                             loadedPaths = true).
    { apply existsb_exists. exists x. split; assumption. }
    congruence.
  - rewrite existsb_app. apply negb_false_iff. apply orb_true_iff. right.
    apply existsb_exists. exists x. split; [exact Hloaded | apply String.eqb_refl].
Qed.

Lemma load_contents_loadable (paths : list string) (contents : list fields)
    (p : string) :
  load_contents paths = Some contents -> In p paths ->
  load_module (resolve p) <> None.
Proof.
  revert contents. induction paths as [| q paths IH]; intros contents H Hin.
  - destruct Hin.
  - simpl in H. destruct (load_module (resolve q)) as [m |] eqn:E; [| discriminate].
    destruct (contents_of m); [| discriminate].
    destruct (load_contents paths) as [cs |] eqn:E2; [| discriminate].
    destruct Hin as [-> | Hin]; [congruence |].
    now apply (IH cs).
Qed.

(** X29.  [resolveExtends] comes to an end.  On a finite set of
    loadable files, [resolveExtends] on a
    configuration with a ledger entry comes to an end: every nested call
    records at least one file that was not recorded before. *)
Lemma resolveExtends_terminates (files : list string) :
  (forall p, load_module p <> None -> In p files) ->
  forall (fuel : nat) (config : obj) (extendsPaths : list string) (s : state)
         (recorded : list string),
    ledger s !! oid config = Some recorded ->
    length (unrecorded files recorded) < fuel ->
    resolveExtends fuel config extendsPaths s <> OutOfFuel.
Proof.
  intros Hfiles. induction fuel as [| fuel IH];
    intros config extendsPaths s recorded Hledger Hfuel; [lia |].
  rewrite resolveExtends_step.
  pose proof (load_all_outcome extendsPaths s) as Hall.
  destruct (load_all extendsPaths s) as [lcs s1 | err |];
    [| discriminate | destruct Hall].
  destruct Hall as (Hl & Hlp & Hc). cbn zeta.
  destruct (flat_map (fun l => set_items (loptions l)) lcs) as [| fo oo] eqn:Hflat.
  - cbn [props delete_extends]. rewrite extends_of_deleted. discriminate.
  - rewrite Hl, Hledger.
    destruct (intersects (map lpath lcs) recorded) eqn:Hinter; [discriminate |].
    destruct (extends_of _) as [e |]; [| discriminate].
    destruct (extends_paths e) as [next | err]; [| discriminate].
    apply (IH _ _ _ (recorded ++ map lpath lcs)).
    + cbn [ledger oid]. apply lookup_insert_eq.
    + destruct lcs as [| l lcs']; [discriminate Hflat |].
      destruct extendsPaths as [| p ps]; [discriminate Hlp |].
      injection Hlp as Hp Hps.
      assert (Hx : In (lpath l) files).
      { apply Hfiles. rewrite Hp.
        apply (load_contents_loadable (p :: ps) _ p Hc). now left. }
      pose proof (unrecorded_shrinks files recorded (map lpath (l :: lcs'))
                    (lpath l) Hx (or_introl eq_refl) Hinter).
      lia.
Qed.

End Files.

Import Scenarios.



(** *** Explicit paths that export one object each *)

Section Objects.

Variable resolve : string -> string.
Variable load_module : string -> option module_export.
Variable existsSync : string -> bool.
Variable defaultConfigFiles : list string.

Lemma load_all_objects (paths : list string) :
  (forall p, In p paths -> exists o, load_module (resolve p) = Some (MObject o)) ->
  forall s : state,
    exists lcs s',
      Loader.load_all resolve load_module paths s = Return lcs s'
      /\ ledger s' = ledger s
      /\ length lcs = length paths
      /\ Forall (fun l => exists o, loptions l = Single o) lcs.
Proof.
  induction paths as [| p paths IH]; intros Hobj s.
  - exists [], s. repeat split; constructor.
  - destruct (Hobj p (or_introl eq_refl)) as [o Ho].
    destruct (IH (fun q Hq => Hobj q (or_intror Hq))
                 {| next_id := S (next_id s); ledger := ledger s |})
      as (lcs & s' & Hrun & Hledger & Hlen & Hall).
    exists ({| loptions := Single {| oid := next_id s; props := o |};
               lpath := resolve p |} :: lcs), s'.
    split; [| split; [exact Hledger | split; [simpl; now rewrite Hlen |]]].
    + unfold Loader.load_all. cbn [mapM].
      assert (Hp : Loader.loadConfigByPath load_module (resolve p) s
                   = Return {| loptions := Single {| oid := next_id s; props := o |};
                               lpath := resolve p |}
                            {| next_id := S (next_id s); ledger := ledger s |}).
      { unfold Loader.loadConfigByPath. rewrite Ho. reflexivity. }
      rewrite (bind_return _ _ _ _ _ Hp).
      unfold Loader.load_all in Hrun. rewrite (bind_return _ _ _ _ _ Hrun).
      reflexivity.
    + constructor; [eexists; reflexivity | exact Hall].
Qed.

(** Recording the objects of a list of loaded files: afterwards each has
    an entry of one path, and entries of one path stay so. *)
Lemma record_objects (options : load_options) (lcs : list loaded) :
  Forall (fun l => exists o, loptions l = Single o) lcs ->
  forall s : state,
    exists s',
      for_each
        (fun loadedConfig =>
           match loptions loadedConfig with
           | Many _ items =>
               for_each
                 (fun _ => path_set (options_id options) [lpath loadedConfig])
                 items
           | Single o => path_set (oid o) [lpath loadedConfig]
           end) lcs s
      = Return tt s'
      /\ next_id s' = next_id s
      /\ (forall k, (exists p, ledger s !! k = Some [p]) ->
                    exists p, ledger s' !! k = Some [p])
      /\ Forall (fun o => exists p, ledger s' !! oid o = Some [p])
                (flat_map (fun l => set_items (loptions l)) lcs).
Proof.
  induction 1 as [| l lcs [o Ho] Hall IH]; intros s.
  - exists s. repeat split; auto.
  - destruct (IH {| next_id := next_id s;
                    ledger := <[oid o := [lpath l]]> (ledger s) |})
      as (s' & Hrun & Hnext & Hkeep & Hrec).
    exists s'. split; [| split; [exact Hnext | split]].
    + cbn [for_each]. rewrite Ho.
      assert (Hset : path_set (oid o) [lpath l] s
                     = Return tt {| next_id := next_id s;
                                    ledger := <[oid o := [lpath l]]> (ledger s) |})
        by reflexivity.
      rewrite (bind_return _ _ _ _ _ Hset). exact Hrun.
    + intros k [p Hk]. apply Hkeep. cbn [ledger].
      destruct (decide (oid o = k)) as [-> | Hne].
      * rewrite lookup_insert_eq. eauto.
      * rewrite lookup_insert_ne by exact Hne. eauto.
    + cbn [flat_map]. rewrite Ho. cbn [set_items app].
      constructor; [| exact Hrec].
      apply Hkeep. cbn [ledger]. rewrite lookup_insert_eq. eauto.
Qed.

(** X30.  Explicit paths that export one object each are all recorded.
    When every explicit path exports one configuration object, the
    configurations come back in the order of the paths and each has a
    ledger entry of one path. *)
Lemma explicit_objects_recorded (options : load_options) :
  config options <> [] ->
  (forall p, In p (config options) ->
             exists o, load_module (resolve p) = Some (MObject o)) ->
  exists c s,
    load_initial resolve load_module existsSync defaultConfigFiles options
      (initial_state options)
    = Return c s
    /\ length (set_items c) = length (config options)
    /\ Forall (fun o => exists p, ledger s !! oid o = Some [p]) (set_items c).
Proof.
  intros Hne Hobj. unfold load_initial.
  rewrite (bind_return _ _ _ _ _ (new_obj_run [] (initial_state options))).
  destruct (config options) as [| p0 ps] eqn:Epaths; [congruence |].
  set (s0 := {| next_id := S (next_id (initial_state options));
                ledger := ledger (initial_state options) |}).
  destruct (load_all_objects (p0 :: ps) Hobj s0)
    as (lcs & s1 & Hrun & Hledger & Hlen & Hall).
  rewrite (bind_return _ _ _ _ _ Hrun).
  destruct lcs as [| l [| l2 lcs']]; [discriminate Hlen | |].
  - inversion Hall as [| ? ? [o Ho] _]; subst.
    rewrite Ho. cbn [set_id].
    eexists _, _. split; [reflexivity |].
    split; [simpl in *; lia |].
    constructor; [| constructor]. cbn [ledger]. rewrite lookup_insert_eq. eauto.
  - assert (Hfresh : fresh s1 = Return (next_id s1)
                       {| next_id := S (next_id s1); ledger := ledger s1 |})
      by reflexivity.
    rewrite (bind_return _ _ _ _ _ Hfresh).
    destruct (record_objects options (l :: l2 :: lcs') Hall
                {| next_id := S (next_id s1); ledger := ledger s1 |})
      as (s2 & Hrec & _ & _ & Hentries).
    rewrite (bind_return _ _ _ _ _ Hrec).
    eexists _, _. split; [reflexivity |].
    split; [| exact Hentries].
    cbn [set_items]. rewrite <- Hlen. clear - Hall.
    induction Hall as [| x xs [o Ho] _ IH]; [reflexivity |].
    cbn [flat_map]. rewrite Ho. cbn [set_items app length]. now rewrite IH.
Qed.

End Objects.

(** C1.  With the two paths [/a.js] and [/b.js], the first exporting an
    array of two configurations: the three configurations are returned
    in order, the two that come from the array have no ledger entry, and
    the path of [/a.js] is recorded under the [options] object instead
    (line 1937 passes [options] where the sibling loop of line 1981
    passes [item]).  Found by the default search, the same array has
    both of its elements recorded. *)
Theorem flattened_array_elements_not_recorded :
  (exists s,
     loadConfig resolve_here array_and_object (fun _ => false) [] 1
       two_config_paths (initial_state two_config_paths)
     = Return (Many 6 [ {| oid := 3; props := [("name", VStr "first")] |};
                        {| oid := 4; props := [("name", VStr "second")] |};
                        {| oid := 5; props := [("name", VStr "third")] |} ]) s
     /\ ledger s !! 3 = None
     /\ ledger s !! 4 = None
     /\ ledger s !! 5 = Some ["/b.js"]
     /\ ledger s !! options_id two_config_paths = Some ["/a.js"])
  /\ (exists s,
        loadConfig resolve_here array_and_object (String.eqb "/a.js") ["/a.js"] 1
          no_config_path (initial_state no_config_path)
        = Return (Many 2 [ {| oid := 3; props := [("name", VStr "first")] |};
                           {| oid := 4; props := [("name", VStr "second")] |} ]) s
        /\ ledger s !! 3 = Some ["/a.js"]
        /\ ledger s !! 4 = Some ["/a.js"]).
Proof.
  split; eexists; repeat split; vm_compute; reflexivity.
Qed.

(** A single explicit path that exports an array records the path under
    the array, not under its elements. *)
Lemma single_array_path_recorded_under_array :
  exists s,
    loadConfig resolve_here array_and_object (fun _ => false) [] 1
      one_config_path (initial_state one_config_path)
    = Return (Many 2 [ {| oid := 3; props := [("name", VStr "first")] |};
                       {| oid := 4; props := [("name", VStr "second")] |} ]) s
    /\ ledger s !! 2 = Some ["/a.js"]
    /\ ledger s !! 3 = None
    /\ ledger s !! 4 = None.
Proof. eexists; repeat split; vm_compute; reflexivity. Qed.

(** *** The merge *)

Lemma filter_all {A : Type} (l : list A) : List.filter (fun _ => true) l = l.
Proof. induction l as [| a l IH]; simpl; [reflexivity | now rewrite IH]. Qed.

Lemma merge_nil_l (b : fields) : merge [] b = b.
Proof. unfold merge. simpl. apply filter_all. Qed.

Lemma get_app (k : string) (a b : fields) :
  get k (a ++ b) = match get k a with
                   | Some v => Some v
                   | None => get k b
                   end.
Proof.
  induction a as [| [k' v] a IH]; [reflexivity |].
  simpl. destruct (String.eqb k k'); [reflexivity | exact IH].
Qed.

Lemma get_merged_fields (k : string) (b a : fields) :
  get k (map (fun kv : string * value =>
                let (k, va) := kv in
                (k, match get k b with
                    | Some vb => join va vb
                    | None => va
                    end)) a)
  = match get k a with
    | Some va => Some (match get k b with
                       | Some vb => join va vb
                       | None => va
                       end)
    | None => None
    end.
Proof.
  induction a as [| [k' v] a IH]; [reflexivity |].
  simpl. destruct (String.eqb k k') eqn:E; [| exact IH].
  apply String.eqb_eq in E. now subst k'.
Qed.

Lemma get_new_fields (k : string) (a b : fields) :
  get k a = None ->
  get k (List.filter (fun kv => negb (has_key (fst kv) a)) b) = get k b.
Proof.
  intros Ha. induction b as [| [k' v] b IH]; [reflexivity |].
  simpl. destruct (String.eqb k k') eqn:E.
  - apply String.eqb_eq in E. subst k'.
    unfold has_key. rewrite Ha. simpl. now rewrite String.eqb_refl.
  - destruct (negb (has_key k' a)); simpl; [now rewrite E | exact IH].
Qed.

(** The merge, field by field. *)
Lemma get_merge (a b : fields) (k : string) :
  get k (merge a b)
  = match get k a, get k b with
    | Some x, Some y => Some (join x y)
    | Some x, None => Some x
    | None, y => y
    end.
Proof.
  unfold merge. rewrite get_app, get_merged_fields.
  destruct (get k a) as [x |] eqn:Ea.
  - destruct (get k b); reflexivity.
  - now apply get_new_fields.
Qed.

Lemma merge_fold (paths : gmap nat (list string)) (l : list obj) :
  forall (acc : fields) (ps : list string),
    fold_left (merge_step paths) l (acc, ps)
    = (fold_left merge (map props l) acc, ps ++ flat_map (ledger_paths paths) l).
Proof.
  induction l as [| o l IH]; intros acc ps; simpl.
  - now rewrite app_nil_r.
  - unfold merge_step at 2. simpl. rewrite IH. unfold ledger_paths at 2.
    destruct (paths !! oid o); [now rewrite <- app_assoc | reflexivity].
Qed.

(** C5.  Under [--merge], two or more configurations become one whose
    fields are the left-to-right fold of the deep merge over them, in
    their order, and whose ledger entry is their entries in that order.
    The deep merge of two objects takes a field of both from the deep
    merge of the two values, and any other field as it is; two
    sequences concatenate, earlier first; when either value is a scalar
    the later one stands.  So [{plugins: [P1]}] and [{plugins: [P2]}]
    merge to [{plugins: [P1, P2]}]. *)
Theorem merge_is_left_fold (options : load_options) (aid : nat)
    (first second : obj) (rest : list obj) (s : state) :
  merge_flag options = true ->
  apply_merge options (Many aid (first :: second :: rest)) s
  = Return
      (Single {| oid := next_id s;
                 props := fold_left merge (map props (second :: rest)) (props first) |})
      {| next_id := S (next_id s);
         ledger := <[next_id s :=
                       flat_map (ledger_paths (ledger s)) (first :: second :: rest)]>
                     (ledger s) |}
  /\ (forall (a b : fields) (k : string),
        get k (merge a b)
        = match get k a, get k b with
          | Some x, Some y => Some (join x y)
          | Some x, None => Some x
          | None, y => y
          end)
  /\ (forall a b : fields, join (VObj a) (VObj b) = VObj (merge a b))
  /\ (forall xs ys : list value, join (VArr xs) (VArr ys) = VArr (xs ++ ys))
  /\ (forall a b : value, is_scalar a = true \/ is_scalar b = true -> join a b = b)
  /\ merge [("plugins", VArr [VHost "P1"])] [("plugins", VArr [VHost "P2"])]
     = [("plugins", VArr [VHost "P1"; VHost "P2"])].
Proof.
  intros Hflag. repeat split.
  - unfold apply_merge. rewrite Hflag. run_monad.
    pose proof (merge_fold (ledger s) (first :: second :: rest) [] []) as Hfold.
    unfold fields in *. rewrite Hfold.
    cbn [map fold_left app]. fold fields. rewrite merge_nil_l. reflexivity.
  - intros a b k. apply get_merge.
  - intros a b [Ha | Hb].
    + destruct a; try discriminate Ha; reflexivity.
    + destruct b; try discriminate Hb; destruct a; reflexivity.
Qed.

Lemma merge_is_left_fold_witness :
  apply_merge two_config_paths_merged
    (Many 4 [ {| oid := 2; props := [("plugins", VArr [VHost "P1"])] |};
              {| oid := 3; props := [("plugins", VArr [VHost "P2"])] |} ])
    {| next_id := 5; ledger := <[3 := ["/b.js"]]> {[ 2 := ["/a.js"] ]} |}
  = Return
      (Single {| oid := 5; props := [("plugins", VArr [VHost "P1"; VHost "P2"])] |})
      {| next_id := 6;
         ledger := <[5 := ["/a.js"; "/b.js"]]>
                     (<[3 := ["/b.js"]]> {[ 2 := ["/a.js"] ]}) |}.
Proof.
  destruct (merge_is_left_fold two_config_paths_merged 4
              {| oid := 2; props := [("plugins", VArr [VHost "P1"])] |}
              {| oid := 3; props := [("plugins", VArr [VHost "P2"])] |} []
              {| next_id := 5; ledger := <[3 := ["/b.js"]]> {[ 2 := ["/a.js"] ]} |}
              eq_refl) as [H _].
  exact H.
Defined.

(** The scenario from the files to the result: two paths, [--merge]. *)
Lemma two_plugin_files_merged :
  exists s,
    loadConfig resolve_here two_plugin_files (fun _ => false) [] 1
      two_config_paths_merged (initial_state two_config_paths_merged)
    = Return (Single {| oid := 5;
                        props := [("plugins", VArr [VHost "P1"; VHost "P2"])] |}) s
    /\ ledger s !! 5 = Some ["/a.js"; "/b.js"].
Proof. eexists; split; vm_compute; reflexivity. Qed.

(** *** What [resolveExtends] returns *)

Section Chain.

Variable resolve : string -> string.
Variable load_module : string -> option module_export.

Local Abbreviation load_all := (Loader.load_all resolve load_module).
Local Abbreviation resolveExtends := (Loader.resolveExtends resolve load_module).

(** A property of the configuration under resolution and the state that
    holds at the start, survives the deletion of [extends] and survives
    each merge, holds of the result, which has no [extends] left. *)
Lemma resolveExtends_invariant (P : obj -> state -> Prop) :
  (forall config s s1,
      ledger s1 = ledger s -> P config s -> P (delete_extends config) s1) ->
  (forall config s s1 first others loadedPaths,
      ledger s1 = ledger s -> P config s ->
      P {| oid := next_id s1;
           props := merge_all (props first)
                      (map props others ++ [delete_key "extends" (props config)]) |}
        {| next_id := S (next_id s1);
           ledger := match ledger s1 !! oid config with
                     | Some prevPaths =>
                         <[next_id s1 := prevPaths ++ loadedPaths]> (ledger s1)
                     | None => ledger s1
                     end |}) ->
  forall (fuel : nat) (config : obj) (extendsPaths : list string) (s : state)
         (c : obj) (s' : state),
    P config s ->
    resolveExtends fuel config extendsPaths s = Return c s' ->
    P c s' /\ extends_of (props c) = None.
Proof.
  intros Hdelete Hmerge.
  induction fuel as [| fuel IH]; intros config extendsPaths s c s' HP Hrun;
    [discriminate Hrun |].
  rewrite resolveExtends_step in Hrun.
  pose proof (load_all_outcome resolve load_module extendsPaths s) as Hall.
  destruct (load_all extendsPaths s) as [lcs s1 | err |]; [| discriminate ..].
  destruct Hall as (Hl & _ & _). cbn zeta in Hrun.
  assert (Hcont : forall (cfg : obj) (st : state),
             P cfg st ->
             match extends_of (props cfg) with
             | Some e =>
                 match extends_paths e with
                 | Ok next => resolveExtends fuel cfg next st
                 | Err er => Exit er
                 end
             | None => Return cfg st
             end = Return c s' ->
             P c s' /\ extends_of (props c) = None).
  { intros cfg st Hcfg H.
    destruct (extends_of (props cfg)) as [e |] eqn:He.
    - destruct (extends_paths e) as [next | er]; [| discriminate H].
      exact (IH _ _ _ _ _ Hcfg H).
    - inversion H; subst. split; assumption. }
  destruct (flat_map (fun l => set_items (loptions l)) lcs) as [| first others].
  - apply (Hcont _ _ (Hdelete _ _ _ Hl HP) Hrun).
  - pose proof (Hmerge config s s1 first others (map lpath lcs) Hl HP) as Hm.
    destruct (ledger s1 !! oid config) as [prevPaths |].
    + destruct (intersects (map lpath lcs) prevPaths); [discriminate Hrun |].
      apply (Hcont _ _ Hm Hrun).
    + apply (Hcont _ _ Hm Hrun).
Qed.



Lemma get_delete_other (k other : string) (o : fields) :
  other <> k -> get other (delete_key k o) = get other o.
Proof.
  intros Hne. induction o as [| [k' v] o IH]; [reflexivity |].
  unfold delete_key. cbn [List.filter fst get].
  destruct (String.eqb k k') eqn:E; cbn [negb].
  - apply String.eqb_eq in E. subst k'.
    destruct (String.eqb other k) eqn:E2; [| exact IH].
    apply String.eqb_eq in E2. congruence.
  - cbn [get]. destruct (String.eqb other k'); [reflexivity | exact IH].
Qed.

Lemma get_merge_all_last (first : fields) (others : list fields) (last : fields)
    (k : string) (v : value) :
  get k last = Some v -> is_scalar v = true ->
  get k (merge_all first (others ++ [last])) = Some v.
Proof.
  intros Hget Hscalar. unfold merge_all. rewrite fold_left_app. cbn [fold_left].
  rewrite get_merge, Hget.
  destruct (get k (fold_left merge others first)) as [x |]; [| reflexivity].
  f_equal. destruct x, v; try discriminate Hscalar; reflexivity.
Qed.

(** X11.  The configuration's own scalar fields win.  A field of the
    configuration under resolution, other than [extends], whose value is
    neither a sequence nor a mapping is found with that value in the
    configuration returned, whatever the extended files set for it: the
    configuration is the last operand of every merge (the deep merge
    being that of section 4.4b of the specification). *)
Theorem resolveExtends_own_scalar_wins (fuel : nat) (config : obj)
    (extendsPaths : list string) (s : state) (k : string) (v : value)
    (c : obj) (s' : state) :
  k <> "extends" ->
  get k (props config) = Some v ->
  is_scalar v = true ->
  resolveExtends fuel config extendsPaths s = Return c s' ->
  get k (props c) = Some v.
Proof.
  intros Hk Hget Hscalar Hrun.
  apply (resolveExtends_invariant (fun cfg _ => get k (props cfg) = Some v))
    with (fuel := fuel) (config := config) (extendsPaths := extendsPaths) (s := s)
         (s' := s'); [| | exact Hget | exact Hrun].
  - intros cfg st st1 _ Hcfg. cbn [delete_extends props].
    now rewrite get_delete_other.
  - intros cfg st st1 first others loadedPaths _ Hcfg. cbn [props].
    apply get_merge_all_last; [| exact Hscalar].
    now rewrite get_delete_other.
Qed.

Lemma delete_key_twice (k : string) (o : fields) :
  delete_key k (delete_key k o) = delete_key k o.
Proof.
  unfold delete_key. induction o as [| [k' v] o IH]; [reflexivity |].
  cbn [List.filter fst]. destruct (String.eqb k k') eqn:E; cbn [negb].
  - exact IH.
  - cbn [List.filter fst]. rewrite E. cbn [negb]. now rewrite IH.
Qed.

(** X12.  The paths given to [resolveExtends] replace the
    configuration's own [extends].  Two configurations with the same
    identity that differ in their [extends] property only resolve alike
    along the same paths: with [--extends] on the command line, what the
    file says in [extends] is never read. *)
Theorem resolveExtends_ignores_own_extends (fuel : nat) (config1 config2 : obj)
    (extendsPaths : list string) (s : state) :
  oid config1 = oid config2 ->
  delete_key "extends" (props config1) = delete_key "extends" (props config2) ->
  resolveExtends fuel config1 extendsPaths s
  = resolveExtends fuel config2 extendsPaths s.
Proof.
  intros Hoid Hprops. destruct fuel as [| fuel]; [reflexivity |].
  rewrite !resolveExtends_step. unfold delete_extends.
  rewrite Hoid, Hprops. reflexivity.
Qed.

Lemma extends_of_merge_last (o last : fields) (e : value) :
  extends_of o = Some e ->
  extends_of (merge_all o [delete_key "extends" last]) = Some e.
Proof.
  unfold extends_of, merge_all. cbn [fold_left].
  rewrite get_merge, get_delete_key.
  destruct (get "extends" o) as [x |]; [| discriminate].
  exact (fun H => H).
Qed.


End Chain.



Lemma resolveExtends_own_scalar_wins_witness :
  get "mode" (props Cases.child_resolved) = Some (VStr "production").
Proof.
  apply (resolveExtends_own_scalar_wins resolve_here Cases.base_and_child 2
           Cases.child_config ["/base.js"] Cases.child_loaded "mode"
           (VStr "production") Cases.child_resolved Cases.child_resolved_state);
    [discriminate | reflexivity | reflexivity | vm_compute; reflexivity].
Defined.

Lemma resolveExtends_ignores_own_extends_witness :
  Loader.resolveExtends resolve_here Cases.base_and_child 2
    Cases.child_config_extending_other ["/base.js"] Cases.child_loaded
  = Loader.resolveExtends resolve_here Cases.base_and_child 2 Cases.child_config
      ["/base.js"] Cases.child_loaded.
Proof.
  apply (resolveExtends_ignores_own_extends resolve_here Cases.base_and_child 2
           Cases.child_config_extending_other Cases.child_config ["/base.js"]
           Cases.child_loaded); reflexivity.
Defined.


(** *** The stages of [loadConfig] *)

Section Stages.

Variable resolve : string -> string.
Variable load_module : string -> option module_export.
Variable existsSync : string -> bool.
Variable defaultConfigFiles : list string.

Local Abbreviation load_initial :=
  (Loader.load_initial resolve load_module existsSync defaultConfigFiles).
Local Abbreviation loadConfig :=
  (Loader.loadConfig resolve load_module existsSync defaultConfigFiles).

Lemma record_items (p : string) (items : list obj) :
  forall s : state,
    exists s',
      for_each (fun item => path_set (oid item) [p]) items s = Return tt s'
      /\ (forall k, ledger s !! k = Some [p] -> ledger s' !! k = Some [p])
      /\ Forall (fun o => ledger s' !! oid o = Some [p]) items.
Proof.
  induction items as [| o items IH]; intros s.
  - exists s. repeat split; auto.
  - destruct (IH {| next_id := next_id s; ledger := <[oid o := [p]]> (ledger s) |})
      as (s' & Hrun & Hkeep & Hrec).
    exists s'. split; [| split].
    + cbn [for_each].
      assert (Hset : path_set (oid o) [p] s
                     = Return tt {| next_id := next_id s;
                                    ledger := <[oid o := [p]]> (ledger s) |})
        by reflexivity.
      rewrite (bind_return _ _ _ _ _ Hset). exact Hrun.
    + intros k Hk. apply Hkeep. cbn [ledger].
      destruct (decide (oid o = k)) as [-> | Hne].
      * apply lookup_insert_eq.
      * now rewrite lookup_insert_ne.
    + constructor; [| exact Hrec].
      apply Hkeep. cbn [ledger]. apply lookup_insert_eq.
Qed.

(** The search for a default file, when it finds one that loads. *)
Lemma load_default_file (options : load_options) (file : string)
    (m : module_export) (contents : list fields) :
  config options = [] ->
  find existsSync defaultConfigFiles = Some file ->
  load_module file = Some m ->
  contents_of m = Some contents ->
  exists c s,
    load_initial options (initial_state options) = Return c s
    /\ map props (set_items c) = contents
    /\ Forall (fun o => ledger s !! oid o = Some [file]) (set_items c).
Proof.
  intros Hconfig Hfind Hload Hcontents. unfold Loader.load_initial.
  rewrite (bind_return _ _ _ _ _ (new_obj_run [] (initial_state options))).
  rewrite Hconfig, Hfind.
  set (s0 := {| next_id := S (next_id (initial_state options));
                ledger := ledger (initial_state options) |}).
  unfold Loader.loadConfigByPath. rewrite Hload.
  destruct m as [o | items |]; [| | discriminate Hcontents].
  - inversion Hcontents; subst contents.
    eexists _, _. split; [reflexivity |]. split; [reflexivity |].
    constructor; [| constructor]. cbn [ledger oid]. apply lookup_insert_eq.
  - inversion Hcontents; subst contents.
    destruct (mapM_new_obj items {| next_id := S (next_id s0); ledger := ledger s0 |})
      as (cs & s1 & Hrun & Hledger & Hprops).
    destruct (record_items file cs s1) as (s2 & Hrec & _ & Hentries).
    exists (Many (next_id s0) cs), s2. split; [| split].
    + assert (Hfresh : fresh s0 = Return (next_id s0)
                         {| next_id := S (next_id s0); ledger := ledger s0 |})
        by reflexivity.
      assert (Hfile : (fresh ≫= fun aid =>
                       mapM new_obj items ≫= fun cs0 =>
                       mret {| loptions := Many aid cs0; lpath := file |}) s0
                      = Return {| loptions := Many (next_id s0) cs; lpath := file |}
                               s1).
      { rewrite (bind_return _ _ _ _ _ Hfresh).
        rewrite (bind_return _ _ _ _ _ Hrun). reflexivity. }
      rewrite (bind_return _ _ _ _ _ Hfile). cbn [loptions lpath].
      rewrite (bind_return _ _ _ _ _ Hrec). reflexivity.
    + exact Hprops.
    + exact Hentries.
Qed.

(** X13.  The default configuration file records every configuration.
    Without [--config], when one of the default file names exists and
    the first such file exports a configuration object or an array of
    them, [loadConfig]'s first stage returns these configurations in
    order, and the ledger entry of each one is the path of that file. *)
Theorem default_file_elements_recorded (options : load_options) (file : string)
    (m : module_export) (contents : list fields) :
  config options = [] ->
  find existsSync defaultConfigFiles = Some file ->
  load_module file = Some m ->
  contents_of m = Some contents ->
  exists c s,
    load_initial options (initial_state options) = Return c s
    /\ map props (set_items c) = contents
    /\ Forall (fun o => ledger s !! oid o = Some [file]) (set_items c).
Proof. apply load_default_file. Qed.

Lemma find_none_all {A : Type} (f : A -> bool) (l : list A) :
  (forall x, In x l -> f x = false) -> find f l = None.
Proof.
  induction l as [| a l IH]; intros H; [reflexivity |].
  cbn [find]. rewrite (H a (or_introl eq_refl)).
  apply IH. intros x Hx. apply H. now right.
Qed.

(** No configuration file at all.  Without [--config],
    [--config-name], [--extends] and [--merge], when none of the default
    file names exists, [loadConfig] returns one empty configuration and
    an empty ledger; no file is loaded and no resolution step is
    needed. *)
Lemma no_configuration_file (fuel : nat) (options : load_options) :
  config options = [] ->
  configName options = None ->
  extends options = [] ->
  merge_flag options = false ->
  (forall file, In file defaultConfigFiles -> existsSync file = false) ->
  loadConfig fuel options (initial_state options)
  = Return (Single {| oid := S (options_id options); props := [] |})
           {| next_id := S (S (options_id options)); ledger := ∅ |}.
Proof.
  intros Hconfig Hname Hextends Hmerge Hnone.
  unfold Loader.loadConfig, Loader.load_initial, select_names,
    Loader.apply_extends, Loader.resolve_own_extends, apply_merge.
  rewrite Hconfig, Hname, Hextends, Hmerge, (find_none_all _ _ Hnone).
  reflexivity.
Qed.

End Stages.

(** X15.  Selection by [--config-name].  When names are given, the
    stage gives back, for each name in the order given, the first loaded
    configuration whose [name] is that string, and leaves the ledger as
    it is; or, when some name is borne by no configuration, it ends the
    process with exactly those names, in the order given. *)
Theorem select_names_outcome (options : load_options) (names : list string)
    (c : config_set) (s : state) :
  configName options = Some names ->
  match select_names options c s with
  | Return c' s' =>
      ledger s' = ledger s
      /\ Forall2 (fun n o => find (has_name n) (set_items c) = Some o)
                 names (set_items c')
  | Exit e =>
      exists missing,
        e = ConfigurationsNotFound missing
        /\ missing <> []
        /\ missing
           = List.filter
               (fun n => forallb (fun o => negb (has_name n o)) (set_items c))
               names
  | OutOfFuel => False
  end.
Proof.
  intros Hnames. unfold select_names. rewrite Hnames.
  set (found := fun configName : string =>
                  match c with
                  | Many _ items => find (has_name configName) items
                  | Single o => if has_name configName o then Some o else None
                  end).
  assert (Hsome : forall n, found n = find (has_name n) (set_items c)).
  { intros n. subst found. destruct c as [o' | aid items]; cbn beta;
      [| reflexivity].
    cbn. destruct (has_name n o'); reflexivity. }
  assert (Hnone : forall n,
             match found n with Some _ => false | None => true end
             = forallb (fun o => negb (has_name n o)) (set_items c)).
  { intros n. subst found. destruct c as [o' | aid items]; cbn beta.
    - cbn. destruct (has_name n o'); reflexivity.
    - cbn [set_items]. clear Hsome.
      induction items as [| o items IH]; [reflexivity |].
      cbn [find forallb]. destruct (has_name n o); [reflexivity | exact IH]. }
  run_monad.
  match goal with
  | |- context [match List.filter ?f names with _ => _ end] =>
      assert (Hfilter : List.filter f names
                        = List.filter
                            (fun n => forallb (fun o => negb (has_name n o))
                                              (set_items c))
                            names)
        by (apply filter_ext; exact Hnone);
      assert (Hfound : forall n, f n = match found n with
                                       | Some _ => false
                                       | None => true
                                       end) by reflexivity;
      destruct (List.filter f names) as [| m ms] eqn:Hmissing
  end.
  - cbn beta iota. unfold mret, M_ret. cbn [ledger]. split; [reflexivity |].
    cbn [set_items].
    clear Hfilter Hnone Hnames. induction names as [| n names IH]; [constructor |].
    cbn [List.filter] in Hmissing. rewrite Hfound in Hmissing. cbn [flat_map].
    fold (found n).
    destruct (found n) as [o |] eqn:Hfound_n; [| discriminate Hmissing].
    cbn [Options.option_list app]. constructor.
    + now rewrite <- Hsome.
    + apply IH. exact Hmissing.
  - cbn beta iota. exists (m :: ms). split; [reflexivity |].
    split; [discriminate |]. exact Hfilter.
Qed.

(** With [--merge], a single configuration object, and an array of fewer
    than two, end the process; without it the configurations pass
    through unchanged. *)
Lemma merge_needs_two_configurations (options : load_options) (c : config_set)
    (s : state) :
  (merge_flag options = true ->
   (exists o, c = Single o) \/ length (set_items c) < 2 ->
   apply_merge options c s = Exit MergeNeedsTwoConfigurations)
  /\ (merge_flag options = false -> apply_merge options c s = Return c s).
Proof.
  unfold apply_merge. split; intros Hflag; rewrite Hflag; [| reflexivity].
  intros [[o ->] | Hlen]; [reflexivity |].
  destruct c as [o | aid [| first [| second rest]]]; try reflexivity.
  cbn in Hlen. lia.
Qed.

Section OneFile.

Variable resolve : string -> string.
Variable load_module : string -> option module_export.
Variable existsSync : string -> bool.
Variable defaultConfigFiles : list string.

Local Abbreviation loadConfig :=
  (Loader.loadConfig resolve load_module existsSync defaultConfigFiles).

(** X16.  [--merge] with one configuration.  With [--merge] and a single
    [--config] path whose file exports one configuration object without
    [extends], [loadConfig] ends the process with the diagnostic that at
    least two configurations are required: one object is never merged,
    not even with itself. *)
Theorem merge_of_one_configuration_exits (fuel : nat) (options : load_options)
    (p : string) (o : fields) :
  config options = [p] ->
  configName options = None ->
  extends options = [] ->
  merge_flag options = true ->
  load_module (resolve p) = Some (MObject o) ->
  extends_of o = None ->
  loadConfig fuel options (initial_state options)
  = Exit MergeNeedsTwoConfigurations.
Proof.
  intros Hconfig Hname Hextends Hmerge Hload Hown.
  unfold Loader.loadConfig, Loader.load_initial, Loader.load_all, select_names,
    Loader.apply_extends, Loader.resolve_own_extends.
  rewrite Hconfig, Hname, Hextends. cbn [mapM].
  unfold Loader.loadConfigByPath. rewrite Hload.
  run_monad. cbn [loptions set_id oid props lpath]. rewrite Hown.
  apply merge_needs_two_configurations; [exact Hmerge | left; eauto].
Qed.

End OneFile.

Lemma resolveExtends_terminates_witness :
  Loader.resolveExtends resolve_here a_and_b_extend_each_other 3
    {| oid := 2; props := [("mode", VStr "production"); ("extends", VStr "/b.js")] |}
    ["/b.js"]
    {| next_id := 3; ledger := {[ 2 := ["/a.js"] ]} |}
  <> OutOfFuel.
Proof.
  apply (resolveExtends_terminates resolve_here a_and_b_extend_each_other
           ["/a.js"; "/b.js"]) with (recorded := ["/a.js"]).
  - intros p. unfold a_and_b_extend_each_other.
    destruct (String.eqb p "/a.js") eqn:Ea.
    + apply String.eqb_eq in Ea. intros _. now left.
    + destruct (String.eqb p "/b.js") eqn:Eb; [| congruence].
      apply String.eqb_eq in Eb. intros _. right. now left.
  - reflexivity.
  - cbn. lia.
Defined.

Lemma explicit_objects_recorded_witness :
  exists c s,
    Loader.load_initial resolve_here two_plugin_files (fun _ => false) []
      two_config_paths (initial_state two_config_paths)
    = Return c s
    /\ length (set_items c) = length (config two_config_paths)
    /\ Forall (fun o => exists p, ledger s !! oid o = Some [p]) (set_items c).
Proof.
  apply (explicit_objects_recorded resolve_here two_plugin_files (fun _ => false)
           [] two_config_paths).
  - discriminate.
  - intros p [<- | [<- | []]]; eexists; reflexivity.
Defined.

Lemma default_file_elements_recorded_witness :
  exists c s,
    Loader.load_initial resolve_here array_and_object (String.eqb "/a.js")
      ["/webpack.config.js"; "/a.js"] no_config_path (initial_state no_config_path)
    = Return c s
    /\ map props (set_items c) = [[("name", VStr "first")]; [("name", VStr "second")]]
    /\ Forall (fun o => ledger s !! oid o = Some ["/a.js"]) (set_items c).
Proof.
  apply (default_file_elements_recorded resolve_here array_and_object
           (String.eqb "/a.js") ["/webpack.config.js"; "/a.js"] no_config_path
           "/a.js"
           (MArray [[("name", VStr "first")]; [("name", VStr "second")]]));
    reflexivity.
Defined.

Lemma no_configuration_file_witness :
  Loader.loadConfig resolve_here array_and_object (fun _ => false)
    ["/webpack.config.js"] 0 no_config_path (initial_state no_config_path)
  = Return (Single {| oid := 1; props := [] |}) {| next_id := 2; ledger := ∅ |}.
Proof.
  apply (no_configuration_file resolve_here array_and_object (fun _ => false)
           ["/webpack.config.js"] 0 no_config_path); reflexivity.
Defined.

Lemma select_names_outcome_witness :
  select_names Cases.second_then_first Cases.first_and_second
    Cases.first_and_second_loaded
  = Return (Many 5 [ {| oid := 4; props := [("name", VStr "second")] |};
                     {| oid := 3; props := [("name", VStr "first")] |} ])
           {| next_id := 6; ledger := {[ 2 := ["/a.js"] ]} |}
  /\ Forall2 (fun n o => find (has_name n) (set_items Cases.first_and_second)
                         = Some o)
             ["second"; "first"]
             [ {| oid := 4; props := [("name", VStr "second")] |};
               {| oid := 3; props := [("name", VStr "first")] |} ].
Proof.
  split; [reflexivity |].
  exact (proj2 (select_names_outcome Cases.second_then_first ["second"; "first"]
                  Cases.first_and_second Cases.first_and_second_loaded eq_refl)).
Defined.

Lemma merge_of_one_configuration_exits_witness :
  Loader.loadConfig resolve_here array_and_object (fun _ => false) [] 0
    Cases.one_config_path_merged (initial_state Cases.one_config_path_merged)
  = Exit MergeNeedsTwoConfigurations.
Proof.
  apply (merge_of_one_configuration_exits resolve_here array_and_object
           (fun _ => false) [] 0 Cases.one_config_path_merged "/b.js"
           [("name", VStr "third")]); reflexivity.
Defined.

End LoaderFacts.

(** ** The CLI's table of options *)

Module BuiltInFacts.
Import Options BuiltIn.

Section Core.

Variable num : Type.

Lemma core_options_fold (l : list (string * cli_option num)) :
  forall (acc : gmap string (cli_option num)) (k : string),
    is_Some (fold_left
               (fun accumulator flag =>
                  match group flag with
                  | Some g => if String.eqb g "core"
                              then <[name flag := flag]> accumulator
                              else accumulator
                  | None => accumulator
                  end) (map (core_option num) l) acc !! k)
    <-> is_Some (acc !! k) \/ In k (map fst l).
Proof.
  induction l as [| [n meta] l IH]; intros acc k.
  - cbn. tauto.
  - cbn [map fold_left fst In]. rewrite IH.
    cbn [core_option group name String.eqb Ascii.eqb Bool.eqb].
    destruct (decide (n = k)) as [-> | Hne].
    + rewrite lookup_insert_eq. split; [tauto |]. intros _. left. eauto.
    + rewrite lookup_insert_ne by exact Hne. tauto.
Qed.

(** X19.  Which flags reach webpack's argument processor.  The table of
    flags that [buildConfig] builds from [getBuiltInOptions] holds a
    name exactly when webpack's [getArguments] lists it: the CLI's own
    flags ([config], [merge], [env], ...) are not in it, unless webpack
    declares a flag of the same name. *)
Theorem core_args_are_webpack_arguments
    (coreArguments : list (string * cli_option num)) (k : string) :
  is_Some (Reconcile.core_args num (getBuiltInOptions num coreArguments) !! k)
  <-> In k (map fst coreArguments).
Proof.
  unfold Reconcile.core_args, getBuiltInOptions. rewrite fold_left_app.
  change (fold_left _ (builtInFlags num) ∅) with (∅ : gmap string (cli_option num)).
  rewrite core_options_fold, lookup_empty.
  split; [| tauto]. intros [[x Hx] | H]; [discriminate Hx | exact H].
Qed.

End Core.

End BuiltInFacts.

(** ** Command names *)

Module RunFacts.
Import JsString Commands Run.

Lemma named_isCommand (name : string) (s : command_spec) :
  salias s <> AliasOne EmptyString -> named name s = isCommand name s.
Proof.
  intros Halias. unfold named, isCommand.
  rewrite (String.eqb_sym name). destruct (String.eqb _ name); [reflexivity |].
  cbn [orb]. destruct (salias s) as [| a | l]; try reflexivity.
  destruct (String.eqb a EmptyString) eqn:E; [| reflexivity].
  apply String.eqb_eq in E. congruence.
Qed.

Lemma find_ext_in {A : Type} (f g : A -> bool) (l : list A) :
  (forall x, In x l -> f x = g x) -> find f l = find g l.
Proof.
  induction l as [| a l IH]; intros H; [reflexivity |].
  cbn [find]. rewrite (H a (or_introl eq_refl)), IH; [reflexivity |].
  intros x Hx. apply H. now right.
Qed.

(** X20.  The two tests of a command name agree.  For every name,
    [isKnownCommand] finds a command exactly when [isCommand] accepts the
    name for one of the known commands, and the command it finds is the
    first such: the guard by which [isCommand] ignores an empty alias
    makes no difference on the table of known commands. *)
Theorem isKnownCommand_agrees_with_isCommand (WEBPACK_PACKAGE name : string) :
  isKnownCommand WEBPACK_PACKAGE name
  = find (isCommand name) (knownCommands WEBPACK_PACKAGE).
Proof.
  unfold isKnownCommand. apply find_ext_in.
  intros s Hs. apply named_isCommand.
  cbn in Hs.
  repeat (destruct Hs as [<- | Hs]; [discriminate |]). destruct Hs.
Qed.

Section Registered.

Variable num : Type.
Variable checkPackageExists : string -> bool.
Variable doInstall : string -> result unit.
Variable WEBPACK_PACKAGE : string.
Variable WEBPACK_PACKAGE_IS_CUSTOM : bool.
Variable WEBPACK_DEV_SERVER_PACKAGE : string.
Variable WEBPACK_DEV_SERVER_PACKAGE_IS_CUSTOM : bool.
Variable commander_accepts :
  list (command num) -> string -> list string -> result unit.

Local Abbreviation makeCommand :=
  (Commands.makeCommand num checkPackageExists doInstall WEBPACK_PACKAGE
     WEBPACK_PACKAGE_IS_CUSTOM WEBPACK_DEV_SERVER_PACKAGE
     WEBPACK_DEV_SERVER_PACKAGE_IS_CUSTOM commander_accepts).

Lemma find_last {A : Type} (f : A -> bool) (l : list A) (x : A) :
  f x = true ->
  exists y, find f (l ++ [x]) = Some y /\ (find f l = None -> y = x).
Proof.
  intros Hx. induction l as [| a l IH]; cbn [app find].
  - rewrite Hx. eauto.
  - destruct (f a); [| exact IH]. exists a. split; [reflexivity | discriminate].
Qed.

Lemma isCommand_names (n : string) (s : command_spec) :
  isCommand n s = true ->
  String.eqb n (first_word (sname s))
  || existsb (String.eqb n) (registered_aliases (salias s)) = true.
Proof.
  unfold isCommand, getCommandName.
  destruct (String.eqb n (first_word (sname s))); [reflexivity |].
  cbn [orb]. destruct (salias s) as [| a | l]; cbn [registered_aliases existsb].
  - discriminate.
  - destruct (String.eqb a EmptyString); [discriminate |].
    rewrite (String.eqb_sym n). intros ->. reflexivity.
  - exact (fun H => H).
Qed.

(** X21.  A command that was registered is found under each of its
    names.  When [makeCommand] registers a specification that was not
    loaded before, [findCommandByName] afterwards finds a command for
    every name that [isCommand] accepts for the specification (its first
    word, or one of its aliases); and that command is the new one, named
    by the first word with the aliases of the specification, whenever no
    earlier command answered to the name. *)
Theorem registered_command_is_found (p p' : program num) (s : command_spec)
    (options : options_provider num) (action : nat) (n : string) :
  alreadyLoaded p s = None ->
  makeCommand p s options action = Ok p' ->
  isCommand n s = true ->
  exists c,
    findCommandByName num (commands p') n = Some c
    /\ (findCommandByName num (commands p) n = None ->
        cname c = first_word (sname s)
        /\ caliases c = registered_aliases (salias s)).
Proof.
  intros Hnew Hmake Hname.
  unfold Commands.makeCommand, Commands.register_command in Hmake.
  rewrite Hnew in Hmake.
  destruct (commander_accepts _ _ _); [| discriminate Hmake].
  destruct (Commands.check_dependencies _ _ _ _ _ _ _ _ _) as [b | e];
    [| discriminate Hmake].
  inversion Hmake; subst p'. cbn [commands]. unfold findCommandByName.
  match goal with
  | |- context [commands p ++ [?c0]] =>
      destruct (find_last
                  (fun command => String.eqb n (cname command)
                                  || existsb (String.eqb n) (caliases command))
                  (commands p) c0 (isCommand_names n s Hname))
        as (y & Hy & Hlast)
  end.
  exists y. split; [exact Hy |].
  intros Hnone. rewrite (Hlast Hnone). split; reflexivity.
Qed.

End Registered.

Import Scenarios.

Lemma registered_command_is_found_witness :
  exists c,
    findCommandByName dnum [build_command] "b" = Some c
    /\ (findCommandByName dnum [] "b" = None ->
        cname c = "build" /\ caliases c = ["bundle"; "b"]).
Proof.
  apply (registered_command_is_found dnum (fun _ => true) (fun _ => Ok tt)
           "webpack" false "webpack-dev-server" false (fun _ _ _ => Ok tt)
           empty_program {| commands := [build_command]; forHelp := false |}
           buildCommandOptions NoOptions 0 "b"); reflexivity.
Defined.

End RunFacts.

(** ** The [configtest] command *)

Module ConfigTestFacts.
Import Config Loader ConfigTest LoaderFacts.

Lemma mapM_new_obj_ids (items : list fields) :
  forall s : state,
    exists cs s',
      mapM new_obj items s = Return cs s'
      /\ ledger s' = ledger s
      /\ map props cs = items
      /\ Forall (fun o => next_id s <= oid o) cs.
Proof.
  induction items as [| o items IH]; intros s.
  - exists [], s. repeat split. constructor.
  - destruct (IH {| next_id := S (next_id s); ledger := ledger s |})
      as (cs & s' & Hrun & Hledger & Hprops & Hids).
    exists ({| oid := next_id s; props := o |} :: cs), s'.
    split; [| split; [exact Hledger | split]].
    + cbn [mapM]. rewrite (bind_return _ _ _ _ _ (new_obj_run o s)).
      rewrite (bind_return _ _ _ _ _ Hrun). reflexivity.
    + simpl. now rewrite Hprops.
    + constructor; [cbn; lia |].
      eapply Forall_impl; [exact Hids |]. cbn. intros a Ha. lia.
Qed.

Lemma no_extends_among (items : list obj) :
  Forall (fun o => extends_of o = None) (map props items) ->
  existsb (fun o => match extends_of (props o) with
                    | Some _ => true
                    | None => false
                    end) items = false.
Proof.
  induction items as [| o items IH]; intros H; [reflexivity |].
  inversion H as [| ? ? Ho Hrest]; subst.
  cbn [existsb]. rewrite Ho. exact (IH Hrest).
Qed.

(** Without [--config-name], [--extends] and [--merge], configurations
    that have no [extends] pass the later stages as they are. *)
Lemma later_stages_pass (fuel : nat) (options : load_options) (c : config_set)
    (s : state) (resolve : string -> string)
    (load_module : string -> option module_export) :
  configName options = None ->
  extends options = [] ->
  merge_flag options = false ->
  Forall (fun o => extends_of o = None) (map props (set_items c)) ->
  (c1 ← select_names options c;
   c2 ← apply_extends resolve load_module fuel options c1;
   apply_merge options c2) s
  = Return c s.
Proof.
  intros Hname Hextends Hmerge Hown.
  unfold select_names, apply_extends, resolve_own_extends, apply_merge.
  rewrite Hname, Hextends, Hmerge.
  destruct c as [o | aid items]; cbn [set_items map] in Hown.
  - inversion Hown as [| ? ? Ho _]; subst. run_monad. rewrite Ho. reflexivity.
  - run_monad. rewrite (no_extends_among items Hown). reflexivity.
Qed.

Lemma collect_unrecorded (paths : gmap nat (list string)) (items : list obj) :
  Forall (fun o => paths !! oid o = None) items ->
  forall acc : list string,
    fold_left
      (fun configPaths options =>
         match paths !! oid options with
         | Some loadedConfigPaths => add_all loadedConfigPaths configPaths
         | None => configPaths
         end) items acc
    = acc.
Proof.
  induction 1 as [| o items Ho _ IH]; intros acc; [reflexivity |].
  cbn [fold_left]. rewrite Ho. apply IH.
Qed.

Lemma collect_one_file (paths : gmap nat (list string)) (file : string)
    (items : list obj) :
  Forall (fun o => paths !! oid o = Some [file]) items ->
  fold_left
    (fun configPaths options =>
       match paths !! oid options with
       | Some loadedConfigPaths => add_all loadedConfigPaths configPaths
       | None => configPaths
       end) items [file]
  = [file].
Proof.
  induction 1 as [| o items Ho _ IH]; [reflexivity |].
  cbn [fold_left]. rewrite Ho.
  assert (Hadd : add_all [file] [file] = [file]).
  { unfold add_all, set_add. cbn [fold_left existsb].
    now rewrite String.eqb_refl. }
  rewrite Hadd. exact IH.
Qed.

Section Files.

Variable resolve : string -> string.
Variable load_module : string -> option module_export.
Variable existsSync : string -> bool.
Variable defaultConfigFiles : list string.

Local Abbreviation load_initial :=
  (Loader.load_initial resolve load_module existsSync defaultConfigFiles).
Local Abbreviation loadConfig :=
  (Loader.loadConfig resolve load_module existsSync defaultConfigFiles).
Local Abbreviation configtest :=
  (ConfigTest.configtest resolve load_module existsSync defaultConfigFiles).

(** One explicit path whose file exports an array: the path is recorded
    under the array, and under none of its elements. *)
Lemma load_explicit_array (options : load_options) (p : string)
    (items : list fields) :
  config options = [p] ->
  load_module (resolve p) = Some (MArray items) ->
  exists cs s,
    load_initial options (initial_state options)
    = Return (Many (S (S (options_id options))) cs) s
    /\ map props cs = items
    /\ Forall (fun o => ledger s !! oid o = None) cs.
Proof.
  intros Hconfig Hload. unfold Loader.load_initial.
  rewrite (bind_return _ _ _ _ _ (new_obj_run [] (initial_state options))).
  rewrite Hconfig.
  set (s0 := {| next_id := S (next_id (initial_state options));
                ledger := ledger (initial_state options) |}).
  destruct (mapM_new_obj_ids items {| next_id := S (next_id s0); ledger := ledger s0 |})
    as (cs & s1 & Hrun & Hledger & Hprops & Hids).
  assert (Hall : Loader.load_all resolve load_module [p] s0
                 = Return [ {| loptions := Many (next_id s0) cs;
                               lpath := resolve p |} ] s1).
  { unfold Loader.load_all. cbn [mapM]. unfold Loader.loadConfigByPath.
    rewrite Hload.
    assert (Hfile : (fresh ≫= fun aid =>
                     mapM new_obj items ≫= fun cs0 =>
                     mret {| loptions := Many aid cs0; lpath := resolve p |}) s0
                    = Return {| loptions := Many (next_id s0) cs;
                                lpath := resolve p |} s1).
    { assert (Hfresh : fresh s0 = Return (next_id s0)
                         {| next_id := S (next_id s0); ledger := ledger s0 |})
        by reflexivity.
      rewrite (bind_return _ _ _ _ _ Hfresh).
      rewrite (bind_return _ _ _ _ _ Hrun). reflexivity. }
    rewrite (bind_return _ _ _ _ _ Hfile). reflexivity. }
  rewrite (bind_return _ _ _ _ _ Hall). cbn [loptions set_id lpath].
  exists cs. eexists. split; [reflexivity |]. split; [exact Hprops |].
  cbn [ledger]. rewrite Hledger. cbn [ledger initial_state].
  eapply Forall_impl; [exact Hids |]. cbn. intros o Ho.
  rewrite lookup_insert_ne by lia. apply lookup_empty.
Qed.

(** X22.  [configtest] on a file that exports an array.  Given the path
    of a file that exports an array of configurations, none with
    [extends], the command ends with "No configuration found.": the
    loader records the path under the array, the command looks for it
    under the elements, and so collects no path to validate. *)
Theorem configtest_array_file_not_found (fuel options_id : nat) (p : string)
    (items : list fields) :
  p <> EmptyString ->
  load_module (resolve p) = Some (MArray items) ->
  Forall (fun o => extends_of o = None) items ->
  configtest fuel options_id (Some p) = NoConfigurationFound.
Proof.
  intros Hp Hload Hown. unfold ConfigTest.configtest.
  set (options := configtest_options options_id (Some p)).
  assert (Hconfig : config options = [p]).
  { subst options. cbn. destruct (String.eqb p EmptyString) eqn:E; [| reflexivity].
    apply String.eqb_eq in E. congruence. }
  destruct (load_explicit_array options p items Hconfig Hload)
    as (cs & s & Hinit & Hprops & Hnone).
  unfold Loader.loadConfig. rewrite (bind_return _ _ _ _ _ Hinit).
  rewrite later_stages_pass; try reflexivity.
  - cbn [collect_paths]. now rewrite (collect_unrecorded _ _ Hnone).
  - cbn [set_items]. now rewrite Hprops.
Qed.

(** X23.  [configtest] without a path.  When the default search finds a
    file that exports a configuration object or a non-empty array of
    them, none with [extends], the command goes on to validate these
    configurations and announces that file alone, once. *)
Theorem configtest_default_file (fuel options_id : nat) (file : string)
    (m : module_export) (contents : list fields) :
  find existsSync defaultConfigFiles = Some file ->
  load_module file = Some m ->
  contents_of m = Some contents ->
  contents <> [] ->
  Forall (fun o => extends_of o = None) contents ->
  exists c,
    configtest fuel options_id None = Validate [file] c
    /\ map props (set_items c) = contents.
Proof.
  intros Hfind Hload Hcontents Hne Hown. unfold ConfigTest.configtest.
  set (options := configtest_options options_id None).
  destruct (load_default_file resolve load_module existsSync defaultConfigFiles
              options file m contents eq_refl Hfind Hload Hcontents)
    as (c & s & Hinit & Hprops & Hrec).
  unfold Loader.loadConfig. rewrite (bind_return _ _ _ _ _ Hinit).
  rewrite later_stages_pass; try reflexivity; [| now rewrite Hprops].
  exists c. split; [| exact Hprops].
  assert (Hpaths : collect_paths (ledger s) c = [file]).
  { destruct c as [o | aid items]; cbn [set_items] in *.
    - inversion Hrec as [| ? ? Ho _]; subst. cbn [collect_paths]. now rewrite Ho.
    - destruct items as [| o items]; [cbn in Hprops; congruence |].
      inversion Hrec as [| ? ? Ho Hrest]; subst.
      cbn [collect_paths fold_left]. rewrite Ho.
      exact (collect_one_file _ _ _ Hrest). }
  now rewrite Hpaths.
Qed.

End Files.

Import Scenarios.

Lemma configtest_array_file_not_found_witness :
  ConfigTest.configtest resolve_here array_and_object (fun _ => false) [] 0 0
    (Some "/a.js")
  = NoConfigurationFound.
Proof.
  apply (configtest_array_file_not_found resolve_here array_and_object
           (fun _ => false) [] 0 0 "/a.js"
           [[("name", VStr "first")]; [("name", VStr "second")]]);
    [discriminate | reflexivity | repeat constructor].
Defined.

Lemma configtest_default_file_witness :
  exists c,
    ConfigTest.configtest resolve_here array_and_object (String.eqb "/a.js")
      ["/webpack.config.js"; "/a.js"] 0 0 None
    = Validate ["/a.js"] c
    /\ map props (set_items c)
       = [[("name", VStr "first")]; [("name", VStr "second")]].
Proof.
  apply (configtest_default_file resolve_here array_and_object
           (String.eqb "/a.js") ["/webpack.config.js"; "/a.js"] 0 0 "/a.js"
           (MArray [[("name", VStr "first")]; [("name", VStr "second")]]));
    [reflexivity | reflexivity | reflexivity | discriminate | repeat constructor].
Defined.

End ConfigTestFacts.

(** ** Reporting the problems of the CLI values *)

Module ReportFacts.
Import Report.

Lemma group_of_push (k path : string) (p : Problem)
    (rv : list (string * list Problem)) :
  group_of k (push path p rv)
  = if String.eqb k path then group_of k rv ++ [p] else group_of k rv.
Proof.
  induction rv as [| [k' ps] rv IH]; cbn [push group_of].
  - destruct (String.eqb k path); reflexivity.
  - destruct (String.eqb path k') eqn:Epk; cbn [group_of].
    + apply String.eqb_eq in Epk. subst k'.
      destruct (String.eqb k path); reflexivity.
    + destruct (String.eqb k k') eqn:Ekk; [| exact IH].
      apply String.eqb_eq in Ekk. subst k'.
      rewrite String.eqb_sym, Epk. reflexivity.
Qed.

Lemma keys_push (path : string) (p : Problem) (rv : list (string * list Problem)) :
  map fst (push path p rv)
  = if existsb (String.eqb path) (map fst rv) then map fst rv
    else map fst rv ++ [path].
Proof.
  induction rv as [| [k ps] rv IH]; [reflexivity |].
  cbn [push map fst existsb]. destruct (String.eqb path k); [reflexivity |].
  cbn [map fst orb]. rewrite IH.
  destruct (existsb (String.eqb path) (map fst rv)); reflexivity.
Qed.

Lemma members_push (path : string) (p : Problem)
    (rv : list (string * list Problem)) :
  flat_map snd (push path p rv) ≡ₚ flat_map snd rv ++ [p].
Proof.
  induction rv as [| [k ps] rv IH]; [reflexivity |].
  cbn [push]. destruct (String.eqb path k); cbn [flat_map snd].
  - rewrite <- !app_assoc. apply Permutation_app_head, Permutation_app_comm.
  - rewrite IH. now rewrite app_assoc.
Qed.

Lemma groupBy_from (xs : list Problem) :
  forall rv : list (string * list Problem),
    let groups := fold_left (fun rv problem => push (ppath problem) problem rv) xs rv in
    (forall k, group_of k groups
               = group_of k rv
                 ++ List.filter (fun p => String.eqb (ppath p) k) xs)
    /\ (NoDup (map fst rv) -> NoDup (map fst groups))
    /\ flat_map snd groups ≡ₚ flat_map snd rv ++ xs.
Proof.
  induction xs as [| x xs IH]; intros rv; cbn zeta.
  - cbn [fold_left List.filter]. repeat split.
    + intros k. now rewrite app_nil_r.
    + exact (fun H => H).
    + now rewrite app_nil_r.
  - cbn [fold_left List.filter].
    destruct (IH (push (ppath x) x rv)) as (Hgroup & Hkeys & Hperm).
    repeat split.
    + intros k. rewrite Hgroup, group_of_push, (String.eqb_sym (ppath x)).
      destruct (String.eqb k (ppath x)); [| reflexivity].
      now rewrite <- app_assoc.
    + intros Hnodup. apply Hkeys. rewrite keys_push.
      destruct (existsb (String.eqb (ppath x)) (map fst rv)) eqn:E;
        [exact Hnodup |].
      apply NoDup_app. split; [exact Hnodup |]. split; [| apply NoDup_singleton].
      intros k Hk Hin. apply list_elem_of_singleton in Hin. subst k.
      assert (Hex : existsb (String.eqb (ppath x)) (map fst rv) = true).
      { apply existsb_exists. exists (ppath x).
        split; [now apply list_elem_of_In | apply String.eqb_refl]. }
      congruence.
    + rewrite Hperm, members_push. now rewrite <- app_assoc.
Qed.

(** X24.  Every problem is reported once, under its path.  The grouping
    of the problems that [processArguments] returns keeps, for each
    path, exactly the problems of that path in the order they came, has
    each path once, and holds every problem exactly once; so what is
    logged before the process exits is, up to the order of the paths,
    the lines of each problem. *)
Theorem problems_reported_once (xs : list Problem) :
  (forall k, group_of k (groupBy xs)
             = List.filter (fun p => String.eqb (ppath p) k) xs)
  /\ NoDup (map fst (groupBy xs))
  /\ flat_map snd (groupBy xs) ≡ₚ xs
  /\ report xs ≡ₚ flat_map problem_lines xs.
Proof.
  destruct (groupBy_from xs []) as (Hgroup & Hkeys & Hperm).
  cbn [group_of flat_map map app] in *.
  split; [exact Hgroup |]. split; [apply Hkeys, NoDup_nil_2 |].
  split; [exact Hperm |].
  unfold report. fold (groupBy xs) in Hperm.
  transitivity (flat_map problem_lines (flat_map snd (groupBy xs))).
  - clear. induction (groupBy xs) as [| g gs IH]; [reflexivity |].
    cbn [flat_map]. rewrite flat_map_app. now rewrite IH.
  - now rewrite Hperm.
Qed.

End ReportFacts.

(** ** The options of the [serve] command *)

Module ServeFacts.
Import Options Reconcile Serve.

Section Options.

Variable num : Type.
Variable cli_value : Type.
Variable run_processors :
  list (string * cli_value) -> list (string * cli_value).

Local Abbreviation assign := (Serve.assign cli_value).
Local Abbreviation isBuiltInOption := (Serve.isBuiltInOption num).
Local Abbreviation split_options := (Serve.split_options num cli_value).
Local Abbreviation serve_values := (Serve.serve_values num cli_value run_processors).

Lemma keys_assign (k : string) (v : cli_value) (o : list (string * cli_value))
    (x : string) :
  In x (map fst (assign k v o)) <-> x = k \/ In x (map fst o).
Proof.
  induction o as [| [k' v'] o IH]; cbn [Serve.assign map fst In].
  - intuition congruence.
  - destruct (String.eqb k k') eqn:E; cbn [map fst In].
    + apply String.eqb_eq in E. subst k'. intuition congruence.
    + rewrite IH. intuition congruence.
Qed.

(** Each parsed option lands on one side, by the test of its kebab-case
    name. *)
Lemma split_options_sides (builtInOptions : list (cli_option num))
    (options : list (string * cli_value)) :
  forall acc : list (string * cli_value) * list (string * cli_value),
    (forall x, In x (map fst (fst acc)) ->
               isBuiltInOption builtInOptions (toKebabCase x) = true) ->
    (forall x, In x (map fst (snd acc)) ->
               isBuiltInOption builtInOptions (toKebabCase x) = false) ->
    let sides :=
      fold_left
        (fun (acc : list (string * cli_value) * list (string * cli_value))
             (entry : string * cli_value) =>
           let (webpackCLIOptions, devServerCLIOptions) := acc in
           let (optionName, v) := entry in
           if isBuiltInOption builtInOptions (toKebabCase optionName)
           then (assign optionName v webpackCLIOptions, devServerCLIOptions)
           else (webpackCLIOptions, assign optionName v devServerCLIOptions))
        options acc in
    (forall x, In x (map fst (fst sides)) ->
               isBuiltInOption builtInOptions (toKebabCase x) = true)
    /\ (forall x, In x (map fst (snd sides)) ->
                  isBuiltInOption builtInOptions (toKebabCase x) = false).
Proof.
  induction options as [| [optionName v] options IH]; intros [w d] Hw Hd;
    cbn zeta; cbn [fold_left]; [now split |].
  destruct (isBuiltInOption builtInOptions (toKebabCase optionName)) eqn:E;
    apply IH; cbn [fst snd] in *; try assumption.
  - intros x Hx. apply keys_assign in Hx as [-> | Hx]; [exact E | now apply Hw].
  - intros x Hx. apply keys_assign in Hx as [-> | Hx]; [exact E | now apply Hd].
Qed.

Lemma dev_server_values_keys (devServerFlags : list (cli_option num))
    (options : list (string * cli_value)) (names : list string) (k : string) :
  forall acc : gmap string (option cli_value),
    is_Some (fold_left
               (fun accumulator optionName =>
                  let kebabName := toKebabCase optionName in
                  match Serve.dev_server_args num devServerFlags !! kebabName with
                  | Some _ =>
                      <[kebabName := Serve.lookup_key cli_value optionName options]>
                        accumulator
                  | None => accumulator
                  end) names acc !! k) ->
    is_Some (acc !! k) \/ exists x, In x names /\ toKebabCase x = k.
Proof.
  induction names as [| n names IH]; intros acc H; [now left |].
  cbn [fold_left] in H. apply IH in H as [H | (x & Hx & Hk)].
  - cbn zeta in H.
    destruct (Serve.dev_server_args num devServerFlags !! toKebabCase n);
      [| now left].
    destruct (decide (toKebabCase n = k)) as [Hk | Hk].
    + right. exists n. split; [now left | exact Hk].
    + rewrite lookup_insert_ne in H by exact Hk. now left.
  - right. exists x. split; [now right | exact Hk].
Qed.

(** X25.  Built-in options never reach the dev server.  When the
    processors of the dev server's flags add no key to the options they
    are given, no value is handed to [processArguments] for the dev
    server under the name of a built-in option of the CLI, even when the
    dev server declares a flag of that name: such an option goes to the
    compiler's side only. *)
Theorem built_in_options_not_for_dev_server
    (builtInOptions devServerFlags : list (cli_option num))
    (options : list (string * cli_value)) (k : string) :
  (forall o x, In x (map fst (run_processors o)) -> In x (map fst o)) ->
  isBuiltInOption builtInOptions k = true ->
  serve_values builtInOptions devServerFlags options !! k = None.
Proof.
  intros Hkeys Hbuilt.
  destruct (serve_values builtInOptions devServerFlags options !! k) as [v |] eqn:E;
    [exfalso | reflexivity].
  unfold Serve.serve_values, Serve.dev_server_values in E.
  assert (Hsome : is_Some (Some v)) by eauto. rewrite <- E in Hsome.
  apply dev_server_values_keys in Hsome as [[x Hx] | (x & Hx & Hk)].
  - rewrite lookup_empty in Hx. discriminate Hx.
  - apply Hkeys in Hx.
    destruct (split_options_sides builtInOptions options ([], [])) as [_ Hdev];
      [intros ? [] | intros ? [] |].
    cbn zeta in Hdev. specialize (Hdev x Hx). congruence.
Qed.

End Options.

Import Scenarios.

Lemma built_in_options_not_for_dev_server_witness :
  Serve.serve_values dnum string (fun o => o) [mode_option; progress_flag]
    [mode_option] [("mode", "development"); ("hot", "true")] !! "mode"
  = None.
Proof.
  apply (built_in_options_not_for_dev_server dnum string (fun o => o)
           [mode_option; progress_flag] [mode_option]
           [("mode", "development"); ("hot", "true")] "mode").
  - intros o x H. exact H.
  - reflexivity.
Defined.

End ServeFacts.

(** ** Loading a module *)

Module ModuleLoaderFacts.
Import ModuleLoader.

Lemma unwrap_default_truthy (result : js) : truthy (unwrap_default result) = true.
Proof.
  unfold unwrap_default.
  destruct result as [| | b | n | s | tag | items | props]; cbn [truthy];
    try reflexivity.
  - destruct b; reflexivity.
  - destruct (negb (Z.eqb n 0)) eqn:E; [cbn; now rewrite E | reflexivity].
  - destruct (negb (String.eqb s EmptyString)) eqn:E; [cbn; now rewrite E | reflexivity].
  - destruct (has_default (JObj props)); [| reflexivity].
    destruct (truthy (default_of props)) eqn:E; [now rewrite E | reflexivity].
Qed.

Section Host.

Variable require_module : string -> attempt js.
Variable dynamicImportLoader : option (string -> attempt (list (string * js))).
Variable pathToFileURL : string -> string.
Variable WEBPACK_CLI_FORCE_LOAD_ESM_CONFIG : bool.

Local Abbreviation tryRequireThenImport :=
  (ModuleLoader.tryRequireThenImport require_module dynamicImportLoader
     pathToFileURL WEBPACK_CLI_FORCE_LOAD_ESM_CONFIG).
Local Abbreviation load_export :=
  (ModuleLoader.load_export require_module dynamicImportLoader pathToFileURL
     WEBPACK_CLI_FORCE_LOAD_ESM_CONFIG).

(** X26.  What [require] yields is never falsy.  When [require] of the
    module returns and the module is not taken for an ES module by its
    extension, [tryRequireThenImport] returns a truthy value: the export
    itself when it is truthy and has no [default], its [default] when
    that is truthy, and the empty object otherwise; so a CommonJS module
    that exports nothing, or [null], loads as [{}]. *)
Theorem required_module_is_truthy (module : string) (handleError : bool)
    (moduleType : module_type) (result : js) :
  require_module module = Got result ->
  moduleType <> Esm ->
  tryRequireThenImport module handleError moduleType
  = Value (unwrap_default result)
  /\ truthy (unwrap_default result) = true
  /\ (truthy result = false -> unwrap_default result = JObj [])
  /\ (truthy result = true -> has_default result = false ->
      unwrap_default result = result).
Proof.
  intros Hreq Htype. split; [| split; [apply unwrap_default_truthy | split]].
  - unfold ModuleLoader.tryRequireThenImport.
    destruct moduleType; [| | congruence]; now rewrite Hreq.
  - intros Hfalsy. unfold unwrap_default.
    destruct result; try discriminate Hfalsy; cbn [truthy] in *;
      try rewrite Hfalsy; reflexivity.
  - intros Htruthy Hno. unfold unwrap_default.
    destruct result; try discriminate Htruthy; cbn [truthy] in *;
      try rewrite Htruthy; try reflexivity.
    now rewrite Hno.
Qed.

(** X27.  "Unable to find default export" comes from a dynamic import
    only.  When [loadConfigByPath] ends with that diagnostic, the file
    was loaded by the dynamic import function and the namespace it
    resolved to has no truthy [default]; a file that [require] loads
    never ends there. *)
Theorem default_export_missing_only_after_import (configPath ext : string) :
  load_export configPath ext = UnableToFindDefaultExport ->
  exists load ns,
    dynamicImportLoader = Some load
    /\ load (pathToFileURL configPath) = Got ns
    /\ truthy (default_of ns) = false
    /\ (module_type_of ext = Esm
        \/ exists code, require_module configPath = Threw code).
Proof.
  unfold ModuleLoader.load_export, ModuleLoader.tryRequireThenImport.
  assert (Hreq : forall result,
             (if truthy (unwrap_default result)
              then Exported (unwrap_default result)
              else UnableToFindDefaultExport) = UnableToFindDefaultExport ->
             False).
  { intros result. now rewrite unwrap_default_truthy. }
  assert (Himport : forall load ns,
             dynamicImportLoader = Some load ->
             load (pathToFileURL configPath) = Got ns ->
             (if truthy (default_of ns) then Exported (default_of ns)
              else UnableToFindDefaultExport) = UnableToFindDefaultExport ->
             truthy (default_of ns) = false).
  { intros load ns _ _. destruct (truthy (default_of ns)); [discriminate | reflexivity]. }
  destruct (module_type_of ext) eqn:Etype.
  - destruct (require_module configPath) as [result | code] eqn:Ereq.
    + intros H. destruct (Hreq result H).
    + destruct dynamicImportLoader as [load |] eqn:Eload; [| discriminate].
      destruct (is_esm_code code || WEBPACK_CLI_FORCE_LOAD_ESM_CONFIG);
        [| discriminate].
      destruct (load (pathToFileURL configPath)) as [ns | code'] eqn:Ens;
        [| discriminate].
      intros H. exists load, ns. repeat split; eauto.
  - destruct (require_module configPath) as [result | code].
    + intros H. destruct (Hreq result H).
    + discriminate.
  - destruct dynamicImportLoader as [load |] eqn:Eload.
    + destruct (load (pathToFileURL configPath)) as [ns | code'] eqn:Ens;
        [| discriminate].
      intros H. exists load, ns. repeat split; eauto.
    + intros H. destruct (Hreq JUndefined H).
Qed.

End Host.

Lemma required_module_is_truthy_witness :
  ModuleLoader.tryRequireThenImport (fun _ => Got JNull) None (fun p => p) false
    "/webpack.config.js" false Unknown
  = Value (unwrap_default JNull)
  /\ truthy (unwrap_default JNull) = true
  /\ (truthy JNull = false -> unwrap_default JNull = JObj [])
  /\ (truthy JNull = true -> has_default JNull = false ->
      unwrap_default JNull = JNull).
Proof.
  apply (required_module_is_truthy (fun _ => Got JNull) None (fun p => p) false
           "/webpack.config.js" false Unknown JNull);
    [reflexivity | discriminate].
Defined.

Lemma default_export_missing_only_after_import_witness :
  exists load ns,
    Some (fun _ : string => Got [("named", JNum 1)]) = Some load
    /\ load "/webpack.config.mjs" = Got ns
    /\ truthy (default_of ns) = false
    /\ (module_type_of ".mjs" = Esm
        \/ exists code,
             (fun _ : string => @Threw js (Some "ERR_REQUIRE_ESM"))
               "/webpack.config.mjs" = Threw code).
Proof.
  apply (default_export_missing_only_after_import
           (fun _ => Threw (Some "ERR_REQUIRE_ESM"))
           (Some (fun _ => Got [("named", JNum 1)])) (fun p => p) false
           "/webpack.config.mjs" ".mjs").
  reflexivity.
Defined.

End ModuleLoaderFacts.
